(** * The bulk-generation orchestrator of [App.tsx]

    A shallow embedding of [handleGenerate] (the branch taken for
    [config.mode = 'bulk']), of its [worker] closures and of
    [handleStopGeneration].  The article generators and the keyword and
    link services are the external world.

    JavaScript runs the handler and the workers on one event loop: code
    between two [await]s executes without interruption.  The embedding
    follows that structure.  Every suspended continuation (the handler
    itself, each worker) is a program counter carrying its live local
    variables; an [Event] resumes one continuation with the value (or the
    rejection) the awaited promise settled with, and the continuation then
    runs up to its next [await] in a single [step].  What the external
    services answer is not decided by the orchestrator, so responses are
    inputs of the model.

    Around the orchestrator the file embeds the branch of [handleGenerate]
    for a single article, the form that submits the configuration
    ([ArticleForm]: topics, keyword chips, link selection), the link
    post-processing and the retry loop of [geminiService.ts],
    [cleanJsonOutput] of [deepseekService.ts], and the API keys between
    the settings dialog of [Layout.tsx] and the services. *)

From stdpp Require Import base list strings gmap.
From Stdlib Require Import ZArith Lia Ascii.

Set Default Proof Using "Type".

(** ** Data model ([types.ts] and the object shapes used in [App.tsx]) *)

Module AIProvider.
Inductive t := GEMINI | DEEPSEEK.
Definition eqb (a b : t) : bool :=
  match a, b with
  | GEMINI, GEMINI | DEEPSEEK, DEEPSEEK => true
  | _, _ => false
  end.
End AIProvider.

(** [App.tsx] compares against [SearchProvider.TAVILY] and
    [SearchProvider.GEMINI]; the enum is declared in [types.ts]. *)
Module SearchProvider.
Inductive t := GEMINI | TAVILY | SERPSTACK.
Definition eqb (a b : t) : bool :=
  match a, b with
  | GEMINI, GEMINI | TAVILY, TAVILY | SERPSTACK, SERPSTACK => true
  | _, _ => false
  end.
End SearchProvider.

(** [config.x === SearchProvider.Y] on an optional field. *)
Definition is_provider (o : option SearchProvider.t) (p : SearchProvider.t) : bool :=
  match o with
  | Some q => SearchProvider.eqb q p
  | None => false
  end.

(** [InternalLink] and [ExternalLink] have the same shape. *)
Module Link.
Record t := mk { title : string; url : string; snippet : option string }.
End Link.

(** The object returned by [analyzeBrandWebsite]. *)
Module BrandResearch.
Record t := mk { brandVoice : string; siteArchitecture : list string; content : string }.
End BrandResearch.

(** The fields of [ArticleConfig] the orchestrator reads or overrides.  The
    remaining ones (word count, tone, ...) are copied unchanged by the
    object spread that builds [singleConfig]. *)
Module ArticleConfig.
Inductive Mode := single | bulk.
Record t := mk {
  mode : Mode;
  topic : string;
  queueTopics : option (list string);
  autoOptimize : bool;
  primaryKeywords : list string;
  nlpKeywords : list string;
  websiteUrl : option string;
  deepResearch : bool;
  realTimeData : bool;
  internalLinks : option (list Link.t);
  externalLinks : option (list Link.t);
  enableExternalLinks : bool;
  provider : AIProvider.t;
  researchProvider : option SearchProvider.t;
  keywordAnalysisProvider : option SearchProvider.t;
  externalLinkSearchProvider : option SearchProvider.t;
  cachedBrandResearch : option BrandResearch.t;
  cachedInternalLinks : option (list Link.t)
}.
End ArticleConfig.

(** [GeneratedArticle]; [id] (a random UUID) and [date] (the clock) are
    left out. *)
Module GeneratedArticle.
Inductive Status := completed | failed.
Record Strategy := mkStrategy {
  primaryKeywords : list string;
  nlpKeywords : list string;
  internalLinksCount : nat;
  externalLinksCount : nat
}.
Record t := mk {
  title : string;
  content : string;
  sources : option (list string);
  status : Status;
  strategy : option Strategy
}.
End GeneratedArticle.

(** A thrown JavaScript error, as far as the handlers inspect it. *)
Module JsError.
Record t := mk { name : string; message : string }.
End JsError.

(** JavaScript truthiness of an optional string. *)
Definition truthy (o : option string) : bool :=
  match o with
  | Some s => negb (s =? "")%string
  | None => false
  end.

(** ** The external world *)

(** What an awaited promise settles with. *)
Inductive Response :=
| Resolved_timer
| Resolved_import (hasTavilyKey : bool)
| Resolved_keywords (kws : list string)
| Resolved_links (links : list Link.t)
| Resolved_brand (b : BrandResearch.t)
| Resolved_article (content : string) (sources : list string)
| Rejected (e : JsError.t).

(** The service calls the orchestrator initiates.  For the external-link
    scans the second argument is [domainToExclude], the host name of
    [websiteUrl]; the log keeps the URL it is computed from. *)
Inductive Call :=
| analyzeBrandWebsite (url : string)
| scanForInternalLinksTavily (url topic : string)
| scanForInternalLinks (url topic : string) (kws : list string) (deep : bool)
| generatePrimaryKeywordsDeepSeek (topic : string)
| generateNLPKeywordsDeepSeek (topic : string)
| generatePrimaryKeywords (topic : string)
| generateNLPKeywords (topic : string)
| scanForExternalLinksTavily (topic : string) (site : option string)
| scanForExternalLinks (topic : string) (site : option string)
| generateArticleDeepSeek (c : ArticleConfig.t)
| generateArticle (c : ArticleConfig.t).

(** A log entry: who initiated the call ([None] is the handler, [Some i]
    worker [i]), for which queue position, and whether
    [controller.signal.aborted] was already set. *)
Record Issued := mkIssued {
  by_worker : option nat;
  for_task : option nat;
  after_abort : bool;
  call : Call
}.

(** ** Continuations *)

(** The topic a worker holds, with its position in the original queue. *)
Record Task := mkTask { task_index : nat; task_topic : string }.

(** The [let] variables of one loop iteration. *)
Record Locals := mkLocals {
  topicPrimaryKeywords : list string;
  topicNLPKeywords : list string;
  topicInternalLinks : list Link.t;
  topicExternalLinks : list Link.t
}.

(** Where a worker is suspended.  [deepSeekKeywords] tells which pair of
    keyword functions the iteration uses; [NotStarted] is a slot of the
    worker array whose [worker(i)] call has not been made yet. *)
Inductive WorkerPc :=
| NotStarted
| AwaitDelay (t : Task)
| AwaitPrimaryKeywords (deepSeekKeywords : bool) (t : Task) (l : Locals)
| AwaitNLPKeywords (deepSeekKeywords : bool) (t : Task) (l : Locals)
| AwaitInternalLinks (t : Task) (l : Locals)
| AwaitExternalLinks (t : Task) (l : Locals)
| AwaitGenerate (t : Task) (l : Locals)
| Returned.

(** Where [handleGenerate] is suspended. *)
Inductive MainPc :=
| AwaitImport
| AwaitBrand
| AwaitPrescan
| AwaitWorkers
| Settled.

Record Progress := mkProgress { completed : nat; total : nat }.

(** The closure variables of one [handleGenerate] call, the React state it
    writes, and three history variables ([calls], [claims], [reported])
    that only record what happened. *)
Record State := mkState {
  main : MainPc;
  aborted : bool;
  refLive : bool;
  queue : list string;
  completedCount : nat;
  cachedBrandResearch : option BrandResearch.t;
  cachedInternalLinks : list Link.t;
  workers : list WorkerPc;
  generatedArticles : list GeneratedArticle.t;
  bulkProgress : Progress;
  activeTasks : Z;
  isGenerating : bool;
  error : option string;
  calls : list Issued;
  claims : list (nat * nat);
  reported : list nat
}.

(** ** Elementary state updates *)

Definition set_main (m : MainPc) (s : State) : State :=
  mkState m (aborted s) (refLive s) (queue s) (completedCount s)
    (cachedBrandResearch s) (cachedInternalLinks s) (workers s)
    (generatedArticles s) (bulkProgress s) (activeTasks s) (isGenerating s)
    (error s) (calls s) (claims s) (reported s).

Definition set_workers (ws : list WorkerPc) (s : State) : State :=
  mkState (main s) (aborted s) (refLive s) (queue s) (completedCount s)
    (cachedBrandResearch s) (cachedInternalLinks s) ws
    (generatedArticles s) (bulkProgress s) (activeTasks s) (isGenerating s)
    (error s) (calls s) (claims s) (reported s).

(** Worker [i] suspends at [pc]. *)
Definition set_pc (i : nat) (pc : WorkerPc) (s : State) : State :=
  set_workers (<[i:=pc]> (workers s)) s.

(** A service call is initiated. *)
Definition issue (who task : option nat) (c : Call) (s : State) : State :=
  mkState (main s) (aborted s) (refLive s) (queue s) (completedCount s)
    (cachedBrandResearch s) (cachedInternalLinks s) (workers s)
    (generatedArticles s) (bulkProgress s) (activeTasks s) (isGenerating s)
    (error s) (calls s ++ [mkIssued who task (aborted s) c])
    (claims s) (reported s).

(** [queue.shift()] executed by worker [i]. *)
Definition shift (i : nat) (s : State) : State :=
  mkState (main s) (aborted s) (refLive s) (tail (queue s)) (completedCount s)
    (cachedBrandResearch s) (cachedInternalLinks s) (workers s)
    (generatedArticles s) (bulkProgress s) (activeTasks s) (isGenerating s)
    (error s) (calls s) (claims s ++ [(i, length (claims s))]) (reported s).

(** [setActiveTasks(prev => f prev)]. *)
Definition setActiveTasks (f : Z -> Z) (s : State) : State :=
  mkState (main s) (aborted s) (refLive s) (queue s) (completedCount s)
    (cachedBrandResearch s) (cachedInternalLinks s) (workers s)
    (generatedArticles s) (bulkProgress s) (f (activeTasks s)) (isGenerating s)
    (error s) (calls s) (claims s) (reported s).

(** [setGeneratedArticles(prev => [...prev, a])] for the topic at queue
    position [idx]. *)
Definition setGeneratedArticles (idx : nat) (a : GeneratedArticle.t) (s : State) : State :=
  mkState (main s) (aborted s) (refLive s) (queue s) (completedCount s)
    (cachedBrandResearch s) (cachedInternalLinks s) (workers s)
    (generatedArticles s ++ [a]) (bulkProgress s) (activeTasks s) (isGenerating s)
    (error s) (calls s) (claims s) (reported s ++ [idx]).

(** The [finally] of one loop iteration:
    [completedCount++; setBulkProgress(prev => ({...prev, completed:
    completedCount})); setActiveTasks(prev => prev - 1)]. *)
Definition finally_block (s : State) : State :=
  mkState (main s) (aborted s) (refLive s) (queue s) (S (completedCount s))
    (cachedBrandResearch s) (cachedInternalLinks s) (workers s)
    (generatedArticles s)
    (mkProgress (S (completedCount s)) (total (bulkProgress s)))
    (Z.pred (activeTasks s)) (isGenerating s)
    (error s) (calls s) (claims s) (reported s).

Definition set_cachedBrandResearch (b : BrandResearch.t) (s : State) : State :=
  mkState (main s) (aborted s) (refLive s) (queue s) (completedCount s)
    (Some b) (cachedInternalLinks s) (workers s)
    (generatedArticles s) (bulkProgress s) (activeTasks s) (isGenerating s)
    (error s) (calls s) (claims s) (reported s).

Definition set_cachedInternalLinks (ls : list Link.t) (s : State) : State :=
  mkState (main s) (aborted s) (refLive s) (queue s) (completedCount s)
    (cachedBrandResearch s) ls (workers s)
    (generatedArticles s) (bulkProgress s) (activeTasks s) (isGenerating s)
    (error s) (calls s) (claims s) (reported s).

(** ** Concurrency policy *)

Definition topics (cfg : ArticleConfig.t) : list string :=
  default [] (ArticleConfig.queueTopics cfg).

Definition isDeepSeekWebMode (cfg : ArticleConfig.t) : bool :=
  AIProvider.eqb (ArticleConfig.provider cfg) AIProvider.DEEPSEEK
  && (ArticleConfig.deepResearch cfg || ArticleConfig.realTimeData cfg).

Definition CONCURRENCY_LIMIT (cfg : ArticleConfig.t) : nat :=
  if isDeepSeekWebMode cfg then 1 else 5.

(** [Math.min(topics.length, CONCURRENCY_LIMIT)] *)
Definition pool_size (cfg : ArticleConfig.t) : nat :=
  Nat.min (length (topics cfg)) (CONCURRENCY_LIMIT cfg).

(** ** The worker *)

Definition with_primary (l : Locals) (k : list string) : Locals :=
  mkLocals k (topicNLPKeywords l) (topicInternalLinks l) (topicExternalLinks l).
Definition with_nlp (l : Locals) (k : list string) : Locals :=
  mkLocals (topicPrimaryKeywords l) k (topicInternalLinks l) (topicExternalLinks l).
Definition with_internal (l : Locals) (ls : list Link.t) : Locals :=
  mkLocals (topicPrimaryKeywords l) (topicNLPKeywords l) ls (topicExternalLinks l).
Definition with_external (l : Locals) (ls : list Link.t) : Locals :=
  mkLocals (topicPrimaryKeywords l) (topicNLPKeywords l) (topicInternalLinks l) ls.

(** The object literal [singleConfig]. *)
Definition singleConfig (cfg : ArticleConfig.t) (s : State) (t : Task) (l : Locals)
  : ArticleConfig.t :=
  ArticleConfig.mk ArticleConfig.single (task_topic t)
    (ArticleConfig.queueTopics cfg) (ArticleConfig.autoOptimize cfg)
    (topicPrimaryKeywords l) (topicNLPKeywords l)
    (ArticleConfig.websiteUrl cfg) (ArticleConfig.deepResearch cfg)
    (ArticleConfig.realTimeData cfg)
    (Some (topicInternalLinks l)) (Some (topicExternalLinks l))
    (ArticleConfig.enableExternalLinks cfg) (ArticleConfig.provider cfg)
    (ArticleConfig.researchProvider cfg)
    (ArticleConfig.keywordAnalysisProvider cfg)
    (ArticleConfig.externalLinkSearchProvider cfg)
    (cachedBrandResearch s)
    (match cachedInternalLinks s with
     | [] => None
     | _ :: _ => Some (cachedInternalLinks s)
     end).

(** [generateWithFallback]: DeepSeek when selected, Gemini otherwise; the
    [catch] around the Gemini call rethrows on both of its paths. *)
Definition generateWithFallback (c : ArticleConfig.t) : Call :=
  if AIProvider.eqb (ArticleConfig.provider c) AIProvider.DEEPSEEK
  then generateArticleDeepSeek c
  else generateArticle c.

Definition await_call (i : nat) (t : Task) (c : Call) (pc : WorkerPc) (s : State) : State :=
  set_pc i pc (issue (Some i) (Some (task_index t)) c s).

(** Generation phase: build [singleConfig], call the provider, suspend. *)
Definition generation_phase (cfg : ArticleConfig.t) (i : nat) (t : Task) (l : Locals)
    (s : State) : State :=
  await_call i t (generateWithFallback (singleConfig cfg s t l)) (AwaitGenerate t l) s.

(** External links, when [config.enableExternalLinks]. *)
Definition external_stage (cfg : ArticleConfig.t) (i : nat) (t : Task) (l : Locals)
    (s : State) : State :=
  if ArticleConfig.enableExternalLinks cfg then
    let site := ArticleConfig.websiteUrl cfg in
    let c :=
      if AIProvider.eqb (ArticleConfig.provider cfg) AIProvider.DEEPSEEK
         && (is_provider (ArticleConfig.externalLinkSearchProvider cfg) SearchProvider.TAVILY
             || is_provider (ArticleConfig.researchProvider cfg) SearchProvider.TAVILY)
      then scanForExternalLinksTavily (task_topic t) site
      else scanForExternalLinks (task_topic t) site in
    await_call i t c (AwaitExternalLinks t l) s
  else generation_phase cfg i t l s.

(** Internal links: the cached list when it is non-empty, a scan of the
    worker's own otherwise. *)
Definition link_stage (cfg : ArticleConfig.t) (i : nat) (t : Task) (l : Locals)
    (s : State) : State :=
  if truthy (ArticleConfig.websiteUrl cfg) then
    let url := default "" (ArticleConfig.websiteUrl cfg) in
    match cachedInternalLinks s with
    | _ :: _ => external_stage cfg i t (with_internal l (take 3 (cachedInternalLinks s))) s
    | [] =>
      if AIProvider.eqb (ArticleConfig.provider cfg) AIProvider.DEEPSEEK
         && is_provider (ArticleConfig.researchProvider cfg) SearchProvider.TAVILY
      then await_call i t (scanForInternalLinksTavily url (task_topic t))
             (AwaitInternalLinks t l) s
      else if AIProvider.eqb (ArticleConfig.provider cfg) AIProvider.GEMINI
              || is_provider (ArticleConfig.researchProvider cfg) SearchProvider.GEMINI
      then await_call i t
             (scanForInternalLinks url (task_topic t) (topicPrimaryKeywords l)
                (ArticleConfig.deepResearch cfg))
             (AwaitInternalLinks t l) s
      else external_stage cfg i t (with_internal l []) s
    end
  else external_stage cfg i t l s.

(** The [let] declarations that open the [try] block. *)
Definition initial_locals (cfg : ArticleConfig.t) : Locals :=
  mkLocals (ArticleConfig.primaryKeywords cfg) (ArticleConfig.nlpKeywords cfg)
    (default [] (ArticleConfig.internalLinks cfg))
    (default [] (ArticleConfig.externalLinks cfg)).

(** [keywordProvider === TAVILY || config.provider === DEEPSEEK] *)
Definition deepSeekKeywords (cfg : ArticleConfig.t) : bool :=
  let keywordProvider :=
    default (if AIProvider.eqb (ArticleConfig.provider cfg) AIProvider.DEEPSEEK
             then SearchProvider.TAVILY else SearchProvider.GEMINI)
      (ArticleConfig.keywordAnalysisProvider cfg) in
  SearchProvider.eqb keywordProvider SearchProvider.TAVILY
  || AIProvider.eqb (ArticleConfig.provider cfg) AIProvider.DEEPSEEK.

Definition primary_call (ds : bool) (topic : string) : Call :=
  if ds then generatePrimaryKeywordsDeepSeek topic else generatePrimaryKeywords topic.
Definition nlp_call (ds : bool) (topic : string) : Call :=
  if ds then generateNLPKeywordsDeepSeek topic else generateNLPKeywords topic.

(** From the start of the [try] block to the first [await]. *)
Definition enter_try (cfg : ArticleConfig.t) (i : nat) (t : Task) (s : State) : State :=
  let l := initial_locals cfg in
  if ArticleConfig.autoOptimize cfg then
    let ds := deepSeekKeywords cfg in
    await_call i t (primary_call ds (task_topic t)) (AwaitPrimaryKeywords ds t l) s
  else generation_phase cfg i t l s.

(** The head of the [while] loop, the pop, and what follows up to the
    first [await]. *)
Definition loop_head (cfg : ArticleConfig.t) (i : nat) (s : State) : State :=
  match queue s with
  | [] => set_pc i Returned s
  | topic :: _ =>
    if aborted s then set_pc i Returned s
    else
      let s1 := shift i s in
      if (topic =? "")%string then set_pc i Returned s1
      else
        let t := mkTask (length (claims s)) topic in
        let s2 := setActiveTasks Z.succ s1 in
        if isDeepSeekWebMode cfg then set_pc i (AwaitDelay t) s2
        else enter_try cfg i t s2
  end.

Definition completed_article (t : Task) (l : Locals) (content : string)
    (sources : list string) : GeneratedArticle.t :=
  GeneratedArticle.mk (task_topic t) content (Some sources) GeneratedArticle.completed
    (Some (GeneratedArticle.mkStrategy (topicPrimaryKeywords l) (topicNLPKeywords l)
             (length (topicInternalLinks l)) (length (topicExternalLinks l)))).

Definition failed_article (t : Task) (e : JsError.t) : GeneratedArticle.t :=
  GeneratedArticle.mk (task_topic t)
    ("Error generating content: " +:+ JsError.message e)
    None GeneratedArticle.failed None.

Definition is_AbortError (e : JsError.t) : bool := (JsError.name e =? "AbortError")%string.

(** What the awaited service may settle with.  Both article generators
    raise an error named [AbortError] only on behalf of the signal:
    [generateArticle] throws [DOMException('Aborted', 'AbortError')] under
    [signal.aborted] or from the signal's abort listener and rewraps every
    other failure as a plain [Error]; [generateArticleDeepSeek] gets it
    from [fetch] called with the signal.  The keyword calls and the link
    scans may be rejected wherever the worker has a [catch] for it, also
    those that never reject because they catch their own errors (the
    Gemini keyword calls and [scanForInternalLinks]). *)
Definition may_settle (s : State) (pc : WorkerPc) (r : Response) : bool :=
  match pc, r with
  | AwaitDelay _, Resolved_timer => true
  | AwaitPrimaryKeywords _ _ _, (Resolved_keywords _ | Rejected _) => true
  | AwaitNLPKeywords _ _ _, (Resolved_keywords _ | Rejected _) => true
  | AwaitInternalLinks _ _, (Resolved_links _ | Rejected _) => true
  | AwaitExternalLinks _ _, (Resolved_links _ | Rejected _) => true
  | AwaitGenerate _ _, Resolved_article _ _ => true
  | AwaitGenerate _ _, Rejected e => implb (is_AbortError e) (aborted s)
  | _, _ => false
  end.

(** Worker [i], suspended at [pc], is resumed with [r] and runs to its
    next [await] or to its end. *)
Definition worker_resume (cfg : ArticleConfig.t) (i : nat) (pc : WorkerPc) (r : Response)
    (s : State) : State :=
  match pc, r with
  | AwaitDelay t, _ => enter_try cfg i t s
  | AwaitPrimaryKeywords ds t l, Resolved_keywords k =>
      await_call i t (nlp_call ds (task_topic t))
        (AwaitNLPKeywords ds t (with_primary l k)) s
  | AwaitPrimaryKeywords _ t l, _ => link_stage cfg i t l s
  | AwaitNLPKeywords _ t l, Resolved_keywords k => link_stage cfg i t (with_nlp l k) s
  | AwaitNLPKeywords _ t l, _ => link_stage cfg i t l s
  | AwaitInternalLinks t l, Resolved_links ls =>
      external_stage cfg i t (with_internal l (take 3 ls)) s
  | AwaitInternalLinks t l, _ => external_stage cfg i t l s
  | AwaitExternalLinks t l, Resolved_links ls =>
      generation_phase cfg i t (with_external l (take 5 ls)) s
  | AwaitExternalLinks t l, _ => generation_phase cfg i t l s
  | AwaitGenerate t l, Resolved_article content sources =>
      loop_head cfg i
        (finally_block
           (setGeneratedArticles (task_index t) (completed_article t l content sources) s))
  | AwaitGenerate t l, Rejected e =>
      if is_AbortError e then set_pc i Returned (finally_block s)
      else
        loop_head cfg i
          (finally_block (setGeneratedArticles (task_index t) (failed_article t e) s))
  | _, _ => s
  end.

(** ** The handler *)

(** [Array(Math.min(topics.length, CONCURRENCY_LIMIT)).fill(null).map((_, i)
    => worker(i))]: each [worker(i)] call runs to its first [await] before
    the next one is made.  Then the handler awaits [Promise.all]. *)
Definition spawn (cfg : ArticleConfig.t) (s : State) : State :=
  foldl (fun s i => loop_head cfg i s)
    (set_workers (replicate (pool_size cfg) NotStarted) (set_main AwaitWorkers s))
    (seq 0 (pool_size cfg)).

(** [config.queueTopics?.[0] || 'general'] *)
Definition seed_topic (cfg : ArticleConfig.t) : string :=
  match topics cfg with
  | t :: _ => if (t =? "")%string then "general" else t
  | [] => "general"
  end.

(** Internal-link pre-scan. *)
Definition prescan_stage (cfg : ArticleConfig.t) (s : State) : State :=
  if truthy (ArticleConfig.websiteUrl cfg) && ArticleConfig.autoOptimize cfg then
    let url := default "" (ArticleConfig.websiteUrl cfg) in
    if AIProvider.eqb (ArticleConfig.provider cfg) AIProvider.DEEPSEEK
       && is_provider (ArticleConfig.researchProvider cfg) SearchProvider.TAVILY
    then set_main AwaitPrescan
           (issue None None (scanForInternalLinksTavily url (seed_topic cfg)) s)
    else if AIProvider.eqb (ArticleConfig.provider cfg) AIProvider.GEMINI
            || is_provider (ArticleConfig.researchProvider cfg) SearchProvider.GEMINI
    then set_main AwaitPrescan
           (issue None None
              (scanForInternalLinks url (seed_topic cfg)
                 (ArticleConfig.primaryKeywords cfg) (ArticleConfig.deepResearch cfg)) s)
    else spawn cfg s
  else spawn cfg s.

(** Brand-research pre-fetch; its first [await] is the dynamic import of
    the Tavily service. *)
Definition brand_stage (cfg : ArticleConfig.t) (s : State) : State :=
  if ArticleConfig.deepResearch cfg && truthy (ArticleConfig.websiteUrl cfg)
     && AIProvider.eqb (ArticleConfig.provider cfg) AIProvider.DEEPSEEK
  then set_main AwaitImport s
  else prescan_stage cfg s.

(** The state in which the bulk branch is entered: a fresh controller is
    installed, [setIsGenerating(true)], [setError(null)]. *)
Definition entry_state : State :=
  mkState Settled false true [] 0 None [] [] [] (mkProgress 0 0) 0 true None [] [] [].

(** The outer [catch] and [finally] of [handleGenerate]. *)
Definition catch_block (e : JsError.t) (s : State) : State :=
  if is_AbortError e then s
  else
    mkState (main s) (aborted s) (refLive s) (queue s) (completedCount s)
      (cachedBrandResearch s) (cachedInternalLinks s) (workers s)
      (generatedArticles s) (bulkProgress s) (activeTasks s) (isGenerating s)
      (Some (if (JsError.message e =? "")%string
             then "Failed to generate article. Please try again."
             else JsError.message e))
      (calls s) (claims s) (reported s).

Definition outer_finally (s : State) : State :=
  if refLive s then
    mkState Settled (aborted s) false (queue s) (completedCount s)
      (cachedBrandResearch s) (cachedInternalLinks s) (workers s)
      (generatedArticles s) (mkProgress 0 0) 0 false
      (error s) (calls s) (claims s) (reported s)
  else set_main Settled s.

Definition no_topics : JsError.t :=
  JsError.mk "Error" "No topics provided for bulk generation".

(** The [else] branch of the outer [try] up to its first [await]: either
    it throws, or the handler is suspended in the returned state.  The list
    of articles and the active count are React state that a run inherits;
    they are counted here from the empty list and from 0, so that
    [generatedArticles] holds the entries this run has appended and
    [activeTasks] the change this run has made ([bulk_branch_on] below
    starts from what the run finds). *)
Definition bulk_branch (cfg : ArticleConfig.t) : JsError.t + State :=
  match topics cfg with
  | [] => inl no_topics
  | _ :: _ =>
    inr (brand_stage cfg
           (mkState Settled false true (topics cfg) 0 None [] [] []
              (mkProgress 0 (length (topics cfg))) 0 true None [] [] []))
  end.

(** [handleGenerate(config)] for [config.mode = 'bulk'], up to its first
    [await]. *)
Definition handleGenerate (cfg : ArticleConfig.t) : State :=
  match bulk_branch cfg with
  | inl e => outer_finally (catch_block e entry_state)
  | inr s => s
  end.

(** The handler is resumed with [r]. *)
Definition main_resume (cfg : ArticleConfig.t) (r : Response) (s : State) : option State :=
  match main s, r with
  | AwaitImport, Resolved_import true =>
      Some (set_main AwaitBrand
              (issue None None
                 (analyzeBrandWebsite (default "" (ArticleConfig.websiteUrl cfg))) s))
  | AwaitImport, (Resolved_import false | Rejected _) => Some (prescan_stage cfg s)
  | AwaitBrand, Resolved_brand b => Some (prescan_stage cfg (set_cachedBrandResearch b s))
  | AwaitBrand, Rejected _ => Some (prescan_stage cfg s)
  | AwaitPrescan, Resolved_links ls => Some (spawn cfg (set_cachedInternalLinks ls s))
  | AwaitPrescan, Rejected _ => Some (spawn cfg s)
  | _, _ => None
  end.

(** [handleStopGeneration]. *)
Definition handleStopGeneration (s : State) : State :=
  if refLive s then
    mkState (main s) true false (queue s) (completedCount s)
      (cachedBrandResearch s) (cachedInternalLinks s) (workers s)
      (generatedArticles s) (mkProgress 0 0) 0 false
      (error s) (calls s) (claims s) (reported s)
  else s.

(** ** Runs *)

Inductive Event :=
| MainResume (r : Response)
| WorkerResume (i : nat) (r : Response)
| Join
| Stop.

Definition is_Returned (pc : WorkerPc) : bool :=
  match pc with Returned => true | _ => false end.

(** One turn of the event loop.  [Join] is the fulfilment of
    [Promise.all(workers)], possible once every worker has returned; it
    runs the handler's [finally].  [None]: the event cannot occur in [s]. *)
Definition step (cfg : ArticleConfig.t) (s : State) (ev : Event) : option State :=
  match ev with
  | MainResume r => main_resume cfg r s
  | WorkerResume i r =>
      match workers s !! i with
      | Some pc => if may_settle s pc r then Some (worker_resume cfg i pc r s) else None
      | None => None
      end
  | Join =>
      match main s with
      | AwaitWorkers => if forallb is_Returned (workers s) then Some (outer_finally s) else None
      | _ => None
      end
  | Stop => Some (handleStopGeneration s)
  end.

Fixpoint run (cfg : ArticleConfig.t) (s : State) (evs : list Event) : option State :=
  match evs with
  | [] => Some s
  | ev :: evs' =>
      match step cfg s ev with
      | Some s' => run cfg s' evs'
      | None => None
      end
  end.

(** The states a bulk run of [cfg] passes through. *)
Definition reachable (cfg : ArticleConfig.t) (s : State) : Prop :=
  exists evs, run cfg (handleGenerate cfg) evs = Some s.

(** A valid batch: at least one topic and no empty topic (the form trims
    the lines of the bulk input and drops the empty ones). *)
Definition valid (cfg : ArticleConfig.t) : Prop :=
  topics cfg <> [] /\ Forall (fun t => t <> ""%string) (topics cfg).

(** ** Vocabulary of the proofs: tasks held and the shape of a turn *)

(** The task a suspended worker holds. *)
Definition task_of (pc : WorkerPc) : option Task :=
  match pc with
  | AwaitDelay t | AwaitPrimaryKeywords _ t _ | AwaitNLPKeywords _ t _
  | AwaitInternalLinks t _ | AwaitExternalLinks t _ | AwaitGenerate t _ => Some t
  | NotStarted | Returned => None
  end.

Definition held_by (pc : WorkerPc) : option nat := task_index <$> task_of pc.

(** The queue positions currently held by the workers. *)
Definition held (ws : list WorkerPc) : list nat := omap held_by ws.

(** Worker [i] moves on within task [t]: it suspends again, on the timer or
    on a freshly initiated call. *)
Inductive advances (i : nat) (t : Task) (s : State) : State -> Prop :=
| advances_delay : advances i t s (set_pc i (AwaitDelay t) s)
| advances_call c pc' : task_of pc' = Some t -> advances i t s (await_call i t c pc' s).

(** The three things a resumed worker can do: move on within its task,
    report the task and go back to the loop head, or return on an abort. *)
Inductive worker_effect (cfg : ArticleConfig.t) (i : nat) (t : Task) (s : State)
  : State -> Prop :=
| effect_advance s' : advances i t s s' -> worker_effect cfg i t s s'
| effect_report a :
    GeneratedArticle.title a = task_topic t ->
    worker_effect cfg i t s
      (loop_head cfg i (finally_block (setGeneratedArticles (task_index t) a s)))
| effect_abort :
    aborted s = true ->
    worker_effect cfg i t s (set_pc i Returned (finally_block s)).

(** What the loop head does. *)
Inductive loop_effect (cfg : ArticleConfig.t) (i : nat) (s : State) : State -> Prop :=
| loop_exit :
    queue s = [] \/ aborted s = true ->
    loop_effect cfg i s (set_pc i Returned s)
| loop_drop rest :
    queue s = ""%string :: rest -> aborted s = false ->
    loop_effect cfg i s (set_pc i Returned (shift i s))
| loop_claim topic rest s' :
    queue s = topic :: rest -> topic <> ""%string -> aborted s = false ->
    advances i (mkTask (length (claims s)) topic) (setActiveTasks Z.succ (shift i s)) s' ->
    loop_effect cfg i s s'.

(** ** Vocabulary of the proofs: invariants *)

(** What holds of the queue, the claims and the reports in every state of
    every run, cancelled or not. *)
Record core_inv (cfg : ArticleConfig.t) (s : State) : Prop := {
  inv_queue : queue s = drop (length (claims s)) (topics cfg);
  inv_claimed : length (claims s) <= length (topics cfg);
  inv_claims : (claims s).*2 = seq 0 (length (claims s));
  inv_nodup : NoDup (held (workers s) ++ reported s);
  inv_bound : Forall (fun k => k < length (claims s)) (held (workers s) ++ reported s);
  inv_reported : length (reported s) = length (generatedArticles s);
  inv_completed : length (generatedArticles s) <= completedCount s;
  inv_released : completedCount s + length (held (workers s)) <= length (claims s);
  inv_titles :
    Forall2 (fun k a => topics cfg !! k = Some (GeneratedArticle.title a))
      (reported s) (generatedArticles s);
  inv_tasks : forall j pc t,
    workers s !! j = Some pc -> task_of pc = Some t ->
    topics cfg !! task_index t = Some (task_topic t);
  inv_exact : valid cfg -> aborted s = false ->
    completedCount s = length (generatedArticles s) /\
    completedCount s + length (held (workers s)) = length (claims s);
  inv_idle : valid cfg -> aborted s = false ->
    forall j, workers s !! j = Some Returned -> queue s = [];
  inv_balance : valid cfg ->
    completedCount s + length (held (workers s)) = length (claims s)
}.

(** The fields no worker writes. *)
Definition same_control (s s' : State) : Prop :=
  main s' = main s /\ aborted s' = aborted s /\ refLive s' = refLive s /\
  cachedBrandResearch s' = cachedBrandResearch s /\
  cachedInternalLinks s' = cachedInternalLinks s /\
  isGenerating s' = isGenerating s /\ error s' = error s.

Record phase_inv (cfg : ArticleConfig.t) (s : State) : Prop := {
  ph_before : main s <> AwaitWorkers -> main s <> Settled ->
    workers s = [] /\ queue s = topics cfg /\ claims s = [] /\
    completedCount s = 0 /\ generatedArticles s = [] /\ reported s = [] /\
    topics cfg <> [];
  ph_pool : main s = AwaitWorkers \/ main s = Settled ->
    length (workers s) = pool_size cfg /\ Forall (fun pc => pc <> NotStarted) (workers s);
  ph_settled : main s = Settled -> Forall (fun pc => pc = Returned) (workers s);
  ph_error : topics cfg <> [] -> error s = None;
  ph_empty : topics cfg = [] -> main s = Settled /\ refLive s = false
}.

Definition inv (cfg : ArticleConfig.t) (s : State) : Prop :=
  core_inv cfg s /\ phase_inv cfg s.

(** The state of the handler before it spawns the workers. *)
Definition before_spawn (cfg : ArticleConfig.t) (s : State) : Prop :=
  workers s = [] /\ queue s = topics cfg /\ claims s = [] /\
  completedCount s = 0 /\ generatedArticles s = [] /\ reported s = [] /\
  error s = None /\ topics cfg <> [].

(** From [s] to [s']: claims are only added; a queue position held or
    reported in [s'] was already held or reported in [s], or was claimed
    since; and each turn that ends an iteration counts it as completed,
    with or without a report. *)
Definition ledger (s s' : State) : Prop :=
  length (claims s) <= length (claims s') /\
  (forall k, k ∈ held (workers s') ++ reported s' ->
             k ∈ held (workers s) ++ reported s \/ length (claims s) <= k) /\
  completedCount s + length (generatedArticles s')
  <= completedCount s' + length (generatedArticles s) /\
  (aborted s = true -> aborted s' = true /\ claims s' = claims s /\ queue s' = queue s).

(** ** Vocabulary of the proofs: a termination measure *)

(** How many [await]s of the current iteration a worker has at most ahead
    of it. *)
Definition rank (pc : WorkerPc) : nat :=
  match pc with
  | NotStarted | Returned => 0
  | AwaitGenerate _ _ => 1
  | AwaitExternalLinks _ _ => 2
  | AwaitInternalLinks _ _ => 3
  | AwaitNLPKeywords _ _ _ => 4
  | AwaitPrimaryKeywords _ _ _ => 5
  | AwaitDelay _ => 6
  end.

(** A bound on the worker turns left in the run. *)
Definition measure (s : State) : nat :=
  7 * length (queue s) + sum_list (rank <$> workers s).

(** Worker [i] suspends at a point of rank at most [k], the queue
    untouched. *)
Definition suspends (k i : nat) (s s' : State) : Prop :=
  exists pc', rank pc' <= k /\ workers s' = <[i:=pc']> (workers s) /\ queue s' = queue s.

Definition some_response (pc : WorkerPc) : Response :=
  match pc with
  | AwaitDelay _ => Resolved_timer
  | AwaitGenerate _ _ => Resolved_article "" []
  | _ => Rejected (JsError.mk "Error" "")
  end.

(** ** Vocabulary of the proofs: the call log *)

Definition default_internal (cfg : ArticleConfig.t) : list Link.t :=
  default [] (ArticleConfig.internalLinks cfg).





(** What is known of the locals at each suspension point. *)
Definition pc_ok (cfg : ArticleConfig.t) (s : State) (pc : WorkerPc) : Prop :=
  match pc with
  | AwaitPrimaryKeywords _ _ l | AwaitNLPKeywords _ _ l =>
      ArticleConfig.autoOptimize cfg = true /\
      topicInternalLinks l = default_internal cfg
  | AwaitInternalLinks _ l =>
      ArticleConfig.autoOptimize cfg = true /\
      truthy (ArticleConfig.websiteUrl cfg) = true /\
      cachedInternalLinks s = [] /\
      topicInternalLinks l = default_internal cfg
  | AwaitExternalLinks _ l =>
      ArticleConfig.autoOptimize cfg = true /\
      (cachedInternalLinks s <> [] -> truthy (ArticleConfig.websiteUrl cfg) = true ->
       topicInternalLinks l = take 3 (cachedInternalLinks s))
  | AwaitGenerate _ l =>
      ArticleConfig.autoOptimize cfg = true ->
      cachedInternalLinks s <> [] -> truthy (ArticleConfig.websiteUrl cfg) = true ->
      topicInternalLinks l = take 3 (cachedInternalLinks s)
  | _ => True
  end.

(** What is known of a call a worker initiates. *)
Definition wcall_ok (cfg : ArticleConfig.t) (s : State) (c : Call) : Prop :=
  match c with
  | analyzeBrandWebsite _ => False
  | scanForInternalLinksTavily _ _ | scanForInternalLinks _ _ _ _ =>
      cachedInternalLinks s = [] /\ ArticleConfig.autoOptimize cfg = true /\
      truthy (ArticleConfig.websiteUrl cfg) = true
  | generateArticleDeepSeek c' | generateArticle c' =>
      exists t l,
        c' = singleConfig cfg s t l /\
        (ArticleConfig.autoOptimize cfg = true -> cachedInternalLinks s <> [] ->
         truthy (ArticleConfig.websiteUrl cfg) = true ->
         topicInternalLinks l = take 3 (cachedInternalLinks s))
  | _ => True
  end.

(** Worker [i] initiates one call for its task [t] and suspends. *)
Definition emits (cfg : ArticleConfig.t) (i : nat) (t : Task) (s s' : State) : Prop :=
  exists c pc',
    s' = await_call i t c pc' s /\ task_of pc' = Some t /\
    pc_ok cfg s pc' /\ wcall_ok cfg s c.

Definition is_brand_issue (cfg : ArticleConfig.t) (c : Issued) : Prop :=
  by_worker c = None /\ for_task c = None /\
  call c = analyzeBrandWebsite (default "" (ArticleConfig.websiteUrl cfg)).

Definition is_prescan_issue (cfg : ArticleConfig.t) (c : Issued) : Prop :=
  by_worker c = None /\ for_task c = None /\
  (call c = scanForInternalLinksTavily (default "" (ArticleConfig.websiteUrl cfg))
              (seed_topic cfg)
   \/ call c = scanForInternalLinks (default "" (ArticleConfig.websiteUrl cfg))
                 (seed_topic cfg) (ArticleConfig.primaryKeywords cfg)
                 (ArticleConfig.deepResearch cfg)).

Definition worker_issue (cfg : ArticleConfig.t) (s : State) (c : Issued) : Prop :=
  exists i k, by_worker c = Some i /\ for_task c = Some k /\ (i, k) ∈ claims s /\
              wcall_ok cfg s (call c).

(** The log is the handler's pre-fetches [bs] (brand) and [ss] (links)
    followed by the workers' calls [ws]. *)
Record log_inv (cfg : ArticleConfig.t) (s : State) (bs ss ws : list Issued) : Prop := {
  log_split : calls s = bs ++ ss ++ ws;
  log_brand : Forall (is_brand_issue cfg) bs;
  log_prescan : Forall (is_prescan_issue cfg) ss;
  log_workers : Forall (worker_issue cfg s) ws;
  log_brand_once : length bs <= 1;
  log_prescan_once : length ss <= 1;
  log_phase :
    match main s with
    | AwaitImport => bs = [] /\ ss = [] /\ ws = [] /\ cachedInternalLinks s = []
    | AwaitBrand => ss = [] /\ ws = [] /\ cachedInternalLinks s = []
    | AwaitPrescan =>
        length ss = 1 /\ ws = [] /\ cachedInternalLinks s = [] /\
        ArticleConfig.autoOptimize cfg = true /\
        truthy (ArticleConfig.websiteUrl cfg) = true
    | AwaitWorkers | Settled =>
        cachedInternalLinks s <> [] ->
        length ss = 1 /\ ArticleConfig.autoOptimize cfg = true /\
        truthy (ArticleConfig.websiteUrl cfg) = true
    end
}.

Record calls_inv (cfg : ArticleConfig.t) (s : State) : Prop := {
  ci_pc : forall i pc, workers s !! i = Some pc -> pc_ok cfg s pc;
  ci_owner : forall i pc t,
    workers s !! i = Some pc -> task_of pc = Some t -> (i, task_index t) ∈ claims s;
  ci_log : exists bs ss ws, log_inv cfg s bs ss ws
}.

(** How many entries of a log satisfy [f]. *)
Definition count (f : Issued -> bool) (l : list Issued) : nat := length (List.filter f l).



(** ** Concrete batches and runs *)

Definition plain_batch (ts : list string) : ArticleConfig.t :=
  ArticleConfig.mk ArticleConfig.bulk "" (Some ts) false [] [] None false false
    None None false AIProvider.GEMINI None None None None None.

Definition home_link : Link.t := Link.mk "Home" "https://example.com/" None.

(** Auto-SEO on a configured website, one manual internal link. *)
Definition seo_batch (ts : list string) : ArticleConfig.t :=
  ArticleConfig.mk ArticleConfig.bulk "" (Some ts) true [] [] (Some "https://example.com")
    false false (Some [home_link]) None false AIProvider.GEMINI None None None None None.

Definition AbortError : JsError.t := JsError.mk "AbortError" "Aborted".

(** DeepSeek with real-time data: the rate-limit-fragile combination. *)
Definition web_batch (ts : list string) : ArticleConfig.t :=
  ArticleConfig.mk ArticleConfig.bulk "" (Some ts) false [] [] None false true
    None None false AIProvider.DEEPSEEK None None None None None.

(** What [generateArticleDeepSeek] throws when no API key is stored. *)
Definition key_missing : JsError.t :=
  JsError.mk "Error" "DeepSeek API Key is missing. Please add your API Key in the settings.".

(** The state after the events [evs], or the start state if they cannot
    occur. *)
Definition after (cfg : ArticleConfig.t) (evs : list Event) : State :=
  default (handleGenerate cfg) (run cfg (handleGenerate cfg) evs).

(** Two plain topics, both workers started. *)
Definition started_AB : State :=
  Eval vm_compute in after (plain_batch ["A"; "B"]) [].

(** Two plain topics: "B" completes, "A" fails, the run ends. *)
Definition finished_AB : State :=
  Eval vm_compute in
    after (plain_batch ["A"; "B"])
      [WorkerResume 1 (Resolved_article "B article" []);
       WorkerResume 0 (Rejected (JsError.mk "Error" "quota"));
       Join].

(** One plain topic, cancelled while its generation call is in flight. *)
Definition cancelled_A : State :=
  Eval vm_compute in after (plain_batch ["A"]) [Stop].


Definition four_links : list Link.t :=
  [Link.mk "One" "https://example.com/1" None;
   Link.mk "Two" "https://example.com/2" None;
   Link.mk "Three" "https://example.com/3" None;
   Link.mk "Four" "https://example.com/4" None].


(** One topic with Auto-SEO on a website, cancelled while the first
    keyword call is in flight; the worker is then resumed three times. *)
Definition cancelled_in_keywords : State :=
  Eval vm_compute in
    after (seo_batch ["A"])
      [MainResume (Resolved_links []);
       Stop;
       WorkerResume 0 (Resolved_keywords ["k"]);
       WorkerResume 0 (Resolved_keywords ["n"]);
       WorkerResume 0 (Resolved_links [])].

(** Seven plain topics and five workers: "A" completes and its worker
    claims "F", then the user cancels with "G" still queued. *)
Definition cancelled_7 : State :=
  Eval vm_compute in
    after (plain_batch ["A"; "B"; "C"; "D"; "E"; "F"; "G"])
      [WorkerResume 0 (Resolved_article "A article" []); Stop].

(** After the cancellation "B" completes; its worker does not claim "G". *)
Definition cancelled_7_later : State :=
  Eval vm_compute in
    after (plain_batch ["A"; "B"; "C"; "D"; "E"; "F"; "G"])
      [WorkerResume 0 (Resolved_article "A article" []); Stop;
       WorkerResume 1 (Resolved_article "B article" [])].

(** DeepSeek with Tavily research, Auto-SEO on a configured website, one
    manual internal link. *)
Definition tavily_batch (ts : list string) : ArticleConfig.t :=
  ArticleConfig.mk ArticleConfig.bulk "" (Some ts) true [] [] (Some "https://example.com")
    false false (Some [home_link]) None false AIProvider.DEEPSEEK
    (Some SearchProvider.TAVILY) None None None None.



(** ** The link stage: vocabulary *)







(** What [generatePrimaryKeywordsDeepSeek] throws on an HTTP error. *)
Definition overloaded : JsError.t :=
  JsError.mk "Error" "DeepSeek API Error (429): Too Many Requests".

(** One topic, DeepSeek with Auto-SEO: the pre-scan returns four links,
    the first keyword call is rejected, the article is generated, the run
    ends. *)
Definition keywords_failed_A : State :=
  Eval vm_compute in
    after (tavily_batch ["A"])
      [MainResume (Resolved_links four_links);
       WorkerResume 0 (Rejected overloaded);
       WorkerResume 0 (Resolved_article "A article" []);
       Join].



(** * The rest of the application: vocabulary *)

(** ** Budgets and panels of a bulk run *)

(** How many service calls a worker suspended at [pc] may still initiate
    for the topic it holds. *)
Definition calls_ahead (pc : WorkerPc) : nat :=
  match pc with
  | NotStarted | Returned => 0
  | AwaitGenerate _ _ => 0
  | AwaitExternalLinks _ _ => 1
  | AwaitInternalLinks _ _ => 2
  | AwaitNLPKeywords _ _ _ => 3
  | AwaitPrimaryKeywords _ _ _ => 4
  | AwaitDelay _ => 5
  end.

(** How many pre-fetches the handler may still initiate. *)
Definition prefetches_ahead (m : MainPc) : nat :=
  match m with
  | AwaitImport => 2
  | AwaitBrand => 1
  | AwaitPrescan | AwaitWorkers | Settled => 0
  end.

(** The calls made so far plus the calls that may still come. *)
Definition call_budget (s : State) : nat :=
  length (calls s) + prefetches_ahead (main s) + 5 * length (queue s)
  + sum_list (calls_ahead <$> workers s).

(** Worker [i] suspends, having initiated calls so that the calls made and
    the calls ahead grow by at most [k]; queue and handler untouched. *)
Definition spends (k i : nat) (s s' : State) : Prop :=
  exists pc',
    length (calls s') + calls_ahead pc' <= length (calls s) + k /\
    workers s' = <[i:=pc']> (workers s) /\ queue s' = queue s /\ main s' = main s.

Definition generation_config (c : Call) : option ArticleConfig.t :=
  match c with
  | generateArticle c' | generateArticleDeepSeek c' => Some c'
  | _ => None
  end.

(** The queue positions for which the log holds a generation call. *)
Definition generated (cs : list Issued) : list nat :=
  omap (fun c => match generation_config (call c) with
                 | Some _ => for_task c
                 | None => None
                 end) cs.

Definition awaits_generation (pc : WorkerPc) : bool :=
  match pc with AwaitGenerate _ _ => true | _ => false end.

(** Worker [i] moves on within task [t]: to the timer, to a research call
    (keywords, links), or to the generation call for [t]. *)
Inductive issues (cfg : ArticleConfig.t) (i : nat) (t : Task) (s : State) : State -> Prop :=
| issues_delay : issues cfg i t s (set_pc i (AwaitDelay t) s)
| issues_research c pc' :
    task_of pc' = Some t -> generation_config c = None -> awaits_generation pc' = false ->
    issues cfg i t s (await_call i t c pc' s)
| issues_generation l :
    issues cfg i t s
      (await_call i t (generateWithFallback (singleConfig cfg s t l)) (AwaitGenerate t l) s).

Record gen_inv (cfg : ArticleConfig.t) (s : State) : Prop := {
  gi_nodup : NoDup (generated (calls s));
  gi_bound : Forall (fun k => k < length (claims s)) (generated (calls s));
  gi_pending : forall i pc t,
    workers s !! i = Some pc -> task_of pc = Some t -> awaits_generation pc = false ->
    task_index t ∉ generated (calls s);
  gi_inflight : forall i pc t,
    workers s !! i = Some pc -> task_of pc = Some t -> awaits_generation pc = true ->
    task_index t ∈ generated (calls s);
  gi_reported : forall k, k ∈ reported s -> k ∈ generated (calls s);
  gi_config : forall c c',
    c ∈ calls s -> generation_config (call c) = Some c' ->
    exists k, for_task c = Some k /\
              topics cfg !! k = Some (ArticleConfig.topic c') /\
              ArticleConfig.mode c' = ArticleConfig.single
}.

(** What the loading panel shows ([bulkProgress], [activeTasks],
    [isGenerating]) against what has happened. *)
Record display_inv (cfg : ArticleConfig.t) (s : State) : Prop := {
  di_count : aborted s = false -> completedCount s = length (generatedArticles s);
  di_running : aborted s = false -> main s <> Settled ->
    refLive s = true /\ isGenerating s = true /\
    bulkProgress s = mkProgress (completedCount s) (length (topics cfg)) /\
    activeTasks s = Z.of_nat (length (held (workers s)));
  di_done : aborted s = false -> main s = Settled ->
    refLive s = false /\ isGenerating s = false /\
    bulkProgress s = mkProgress 0 0 /\ activeTasks s = 0%Z;
  di_cancelled : aborted s = true ->
    refLive s = false /\ isGenerating s = false /\
    total (bulkProgress s) = 0 /\ (activeTasks s <= 0)%Z
}.

(** The fields of the loading panel and the counters behind them. *)
Definition same_display (s s' : State) : Prop :=
  main s' = main s /\ aborted s' = aborted s /\ refLive s' = refLive s /\
  isGenerating s' = isGenerating s /\ bulkProgress s' = bulkProgress s /\
  completedCount s' = completedCount s /\
  generatedArticles s' = generatedArticles s.

(** How many resumptions the handler itself has ahead of it, the [Join]
    included. *)
Definition handler_turns_ahead (m : MainPc) : nat :=
  match m with
  | AwaitImport => 4
  | AwaitBrand => 3
  | AwaitPrescan => 2
  | AwaitWorkers => 1
  | Settled => 0
  end.

(** A bound on the resumptions left in the run: six per queued topic (the
    pause, two keyword calls, two link scans, the generation call), what
    each worker has ahead in its current iteration, and the handler's
    own. *)
Definition turns_ahead (s : State) : nat :=
  6 * length (queue s) + sum_list (rank <$> workers s) + handler_turns_ahead (main s).

Definition is_Stop (ev : Event) : bool :=
  match ev with Stop => true | _ => false end.

(** The resumptions in a list of events: everything but the clicks on
    "Stop Generating". *)
Definition resumptions (evs : list Event) : nat :=
  length (List.filter (fun ev => negb (is_Stop ev)) evs).

Definition is_generation (c : Call) : bool :=
  match generation_config c with Some _ => true | None => false end.

(** DeepSeek with deep research on a website, Auto-SEO with external
    links, Tavily as research provider: every stage of the pipeline
    runs. *)
Definition research_batch (ts : list string) : ArticleConfig.t :=
  ArticleConfig.mk ArticleConfig.bulk "" (Some ts) true [] [] (Some "https://example.com")
    true false None None true AIProvider.DEEPSEEK
    (Some SearchProvider.TAVILY) None None None None.

Definition example_brand : BrandResearch.t :=
  BrandResearch.mk "Based on site analysis of https://example.com"
    ["https://example.com/"] "## Home".

(** One topic taken through every stage: brand pre-fetch, link pre-scan
    (nothing found), the pause, both keyword calls, both link scans, the
    generation call, the end of the run. *)
Definition research_events : list Event :=
  [MainResume (Resolved_import true); MainResume (Resolved_brand example_brand);
   MainResume (Resolved_links []);
   WorkerResume 0 Resolved_timer;
   WorkerResume 0 (Resolved_keywords ["k"]); WorkerResume 0 (Resolved_keywords ["n"]);
   WorkerResume 0 (Resolved_links []); WorkerResume 0 (Resolved_links []);
   WorkerResume 0 (Resolved_article "A article" []);
   Join].

Definition researched_A : State :=
  Eval vm_compute in after (research_batch ["A"]) research_events.

(** Two plain topics, both done, the run over. *)
Definition done_AB : State :=
  Eval vm_compute in
    after (plain_batch ["A"; "B"])
      [WorkerResume 0 (Resolved_article "A article" []);
       WorkerResume 1 (Resolved_article "B article" []);
       Join].

(** ** A run that finds articles listed *)

(** The list of articles and the active count are React state that
    outlives a run: the list is restored from [localStorage] when the page
    loads, no run clears it, and no run sets the active count when it
    starts.  [bulk_branch] counts both from nothing, so that its
    [generatedArticles] are the entries this run has appended and its
    [activeTasks] the change this run has made.  [bulk_branch_on prev a0]
    is the same code entered with the entries [prev] listed and the active
    count at [a0]. *)
Definition bulk_branch_on (prev : list GeneratedArticle.t) (a0 : Z)
    (cfg : ArticleConfig.t) : JsError.t + State :=
  match topics cfg with
  | [] => inl no_topics
  | _ :: _ =>
    inr (brand_stage cfg
           (mkState Settled false true (topics cfg) 0 None [] [] prev
              (mkProgress 0 (length (topics cfg))) a0 true None [] [] []))
  end.

Definition entry_state_on (prev : list GeneratedArticle.t) (a0 : Z) : State :=
  mkState Settled false true [] 0 None [] [] prev (mkProgress 0 0) a0 true None [] [] [].

Definition handleGenerate_on (prev : list GeneratedArticle.t) (a0 : Z)
    (cfg : ArticleConfig.t) : State :=
  match bulk_branch_on prev a0 cfg with
  | inl e => outer_finally (catch_block e (entry_state_on prev a0))
  | inr s => s
  end.

(** The states of the run of [cfg] that found [prev] listed and the active
    count at [a0]. *)
Definition reachable_on (prev : list GeneratedArticle.t) (a0 : Z)
    (cfg : ArticleConfig.t) (s : State) : Prop :=
  exists evs, run cfg (handleGenerate_on prev a0 cfg) evs = Some s.

(** A state of the run counted from nothing, seen with [prev] listed before
    it and the active count started at [a0]: the count a run has reset
    ([setActiveTasks(0)], which the handler and the Stop button do together
    with dropping the controller) no longer depends on [a0]. *)
Definition restored (prev : list GeneratedArticle.t) (a0 : Z) (s : State) : State :=
  mkState (main s) (aborted s) (refLive s) (queue s) (completedCount s)
    (cachedBrandResearch s) (cachedInternalLinks s) (workers s)
    (prev ++ generatedArticles s) (bulkProgress s)
    (if refLive s then a0 + activeTasks s else activeTasks s)%Z (isGenerating s)
    (error s) (calls s) (claims s) (reported s).

(** An article of an earlier session, restored from [localStorage]. *)
Definition old_article : GeneratedArticle.t :=
  GeneratedArticle.mk "Old" "Old article" (Some []) GeneratedArticle.completed None.

(** The state after the events [evs] of the run that found [prev] listed
    and the active count at [a0], or its start state if they cannot
    occur. *)
Definition after_on (prev : list GeneratedArticle.t) (a0 : Z) (cfg : ArticleConfig.t)
    (evs : list Event) : State :=
  default (handleGenerate_on prev a0 cfg) (run cfg (handleGenerate_on prev a0 cfg) evs).

(** Two plain topics, started with one article listed and the active count
    at -1 (what a cancelled run leaves behind when its generation call
    aborts): "A" is done, "B" is still being generated. *)
Definition running_AB_on : State :=
  Eval vm_compute in
    after_on [old_article] (-1) (plain_batch ["A"; "B"])
      [WorkerResume 0 (Resolved_article "A article" [])].

(** One plain topic, started with one article listed and the active count
    at 3; the user has just stopped the run. *)
Definition stopped_A_on : State :=
  Eval vm_compute in after_on [old_article] 3 (plain_batch ["A"]) [Stop].

(** ... the generation call in flight aborts and the run ends. *)
Definition stopped_A_end_on : State :=
  Eval vm_compute in
    after_on [old_article] 3 (plain_batch ["A"])
      [Stop; WorkerResume 0 (Rejected AbortError); Join].

(** ** [handleGenerate] for a single article *)

(** The branch [config.mode === 'single'] has one [await], that of
    [generateWithFallback(config, controller.signal)]. *)
Module SingleMode.

Inductive Pc := AwaitResult | Done.

(** The React state the branch writes, the controller, and the log of the
    calls made. *)
Record State := mk {
  pc : Pc;
  aborted : bool;
  refLive : bool;
  generatedArticles : list GeneratedArticle.t;
  bulkProgress : Progress;
  activeTasks : Z;
  isGenerating : bool;
  error : option string;
  calls : list Call
}.

(** The entry pushed on success. *)
Definition article (cfg : ArticleConfig.t) (content : string) (sources : list string)
  : GeneratedArticle.t :=
  GeneratedArticle.mk (ArticleConfig.topic cfg) content (Some sources)
    GeneratedArticle.completed None.

(** [handleGenerate(config)] up to its [await]; [prev] are the articles
    already listed. *)
Definition handleGenerate (cfg : ArticleConfig.t) (prev : list GeneratedArticle.t) : State :=
  mk AwaitResult false true prev (mkProgress 0 1) 1 true None [generateWithFallback cfg].

(** The outer [catch]. *)
Definition catch_block (e : JsError.t) (s : State) : State :=
  if is_AbortError e then s
  else
    mk (pc s) (aborted s) (refLive s) (generatedArticles s) (bulkProgress s)
      (activeTasks s) (isGenerating s)
      (Some (if (JsError.message e =? "")%string
             then "Failed to generate article. Please try again."
             else JsError.message e))
      (calls s).

(** The outer [finally]. *)
Definition outer_finally (s : State) : State :=
  if refLive s then
    mk Done (aborted s) false (generatedArticles s) (mkProgress 0 0) 0 false
      (error s) (calls s)
  else
    mk Done (aborted s) (refLive s) (generatedArticles s) (bulkProgress s)
      (activeTasks s) (isGenerating s) (error s) (calls s).

(** The inner [finally]: [setActiveTasks(0)]. *)
Definition inner_finally (s : State) : State :=
  mk (pc s) (aborted s) (refLive s) (generatedArticles s) (bulkProgress s)
    0 (isGenerating s) (error s) (calls s).

(** The handler is resumed with the settlement of the provider's promise. *)
Definition resume (cfg : ArticleConfig.t) (r : Response) (s : State) : option State :=
  match pc s, r with
  | AwaitResult, Resolved_article content sources =>
      let s1 :=
        mk (pc s) (aborted s) (refLive s)
          (generatedArticles s ++ [article cfg content sources])
          (bulkProgress s) (activeTasks s) (isGenerating s) (error s) (calls s) in
      Some (outer_finally (inner_finally s1))
  | AwaitResult, Rejected e =>
      Some (outer_finally (catch_block e (inner_finally s)))
  | _, _ => None
  end.

(** [handleStopGeneration] *)
Definition handleStopGeneration (s : State) : State :=
  if refLive s then
    mk (pc s) true false (generatedArticles s) (mkProgress 0 0) 0 false
      (error s) (calls s)
  else s.

Inductive Event :=
| Settle (r : Response)
| Stop.

Definition step (cfg : ArticleConfig.t) (s : State) (ev : Event) : option State :=
  match ev with
  | Settle r => resume cfg r s
  | Stop => Some (handleStopGeneration s)
  end.

Fixpoint run (cfg : ArticleConfig.t) (s : State) (evs : list Event) : option State :=
  match evs with
  | [] => Some s
  | ev :: evs' =>
      match step cfg s ev with
      | Some s' => run cfg s' evs'
      | None => None
      end
  end.

(** The message shown for a rejection. *)
Definition shown (e : JsError.t) : option string :=
  if is_AbortError e then None
  else Some (if (JsError.message e =? "")%string
             then "Failed to generate article. Please try again."
             else JsError.message e).

(** What holds of every state of a run. *)
Record inv (cfg : ArticleConfig.t) (prev : list GeneratedArticle.t) (s : State) : Prop := {
  inv_calls : calls s = [generateWithFallback cfg];
  inv_ref : refLive s = true -> pc s = AwaitResult /\ aborted s = false;
  inv_waiting : pc s = AwaitResult ->
      generatedArticles s = prev /\ error s = None /\
      (aborted s = false ->
       refLive s = true /\ isGenerating s = true /\
       bulkProgress s = mkProgress 0 1 /\ activeTasks s = 1%Z);
  inv_idle : pc s = Done \/ aborted s = true ->
      isGenerating s = false /\ bulkProgress s = mkProgress 0 0 /\ activeTasks s = 0%Z;
  inv_done : pc s = Done ->
      (exists content sources,
         generatedArticles s = prev ++ [article cfg content sources] /\ error s = None) \/
      (exists e, generatedArticles s = prev /\ error s = shown e)
}.

End SingleMode.

Definition example_single : ArticleConfig.t :=
  ArticleConfig.mk ArticleConfig.single "Solar panels" None false [] [] None false false
    None None false AIProvider.GEMINI None None None None None.

(** The user stops the run; the provider then rejects with the abort. *)
Definition example_single_events : list SingleMode.Event :=
  [SingleMode.Stop; SingleMode.Settle (Rejected (JsError.mk "AbortError" "Aborted"))].

Definition example_single_end : SingleMode.State :=
  Eval vm_compute in
    default (SingleMode.handleGenerate example_single [])
      (SingleMode.run example_single (SingleMode.handleGenerate example_single [])
         example_single_events).

(** What a settlement leaves behind. *)
Definition single_articles (cfg : ArticleConfig.t) (r : Response) : list GeneratedArticle.t :=
  match r with
  | Resolved_article content sources => [SingleMode.article cfg content sources]
  | _ => []
  end.

Definition single_error (r : Response) : option string :=
  match r with
  | Rejected e => SingleMode.shown e
  | _ => None
  end.

(** ** JavaScript strings

    A string is its sequence of code units.  The character type of the
    embedding, [ascii], holds the code units 0 to 255; of these,
    [String.prototype.trim] removes TAB, LF, VT, FF, CR (9 to 13), SPACE
    (32) and NO-BREAK SPACE (160).  The other white-space code units of
    JavaScript lie above 255. *)
Module JsString.

Definition chars (s : string) : list ascii := String.list_ascii_of_string s.
Definition of_chars (l : list ascii) : string := String.string_of_list_ascii l.

Definition isWhiteSpace (c : ascii) : bool :=
  let n := Ascii.nat_of_ascii c in
  (Nat.leb 9 n && Nat.leb n 13) || Nat.eqb n 32 || Nat.eqb n 160.

Fixpoint trimStart_chars (l : list ascii) : list ascii :=
  match l with
  | c :: l' => if isWhiteSpace c then trimStart_chars l' else l
  | [] => []
  end.

Definition trimEnd_chars (l : list ascii) : list ascii :=
  reverse (trimStart_chars (reverse l)).

Definition trim_chars (l : list ascii) : list ascii :=
  trimEnd_chars (trimStart_chars l).

(** [s.trim()] *)
Definition trim (s : string) : string := of_chars (trim_chars (chars s)).

(** [s.split(sep)] for a separator of one code unit: the pieces between
    the occurrences of [sep], at least one piece. *)
Fixpoint split_chars (sep : ascii) (l : list ascii) : list (list ascii) :=
  match l with
  | [] => [[]]
  | c :: l' =>
      if Ascii.eqb c sep then [] :: split_chars sep l'
      else match split_chars sep l' with
           | w :: ws => (c :: w) :: ws
           | [] => [[c]]
           end
  end.

Definition split (sep : ascii) (s : string) : list string :=
  of_chars <$> split_chars sep (chars s).

(** [!!s]: a string is truthy when it is not empty. *)
Definition nonempty (s : string) : bool := negb (s =? "")%string.

Fixpoint startsWith_chars (p l : list ascii) : bool :=
  match p, l with
  | [], _ => true
  | a :: p', b :: l' => Ascii.eqb a b && startsWith_chars p' l'
  | _ :: _, [] => false
  end.

(** [hay.includes(needle)] *)
Fixpoint includes_chars (needle hay : list ascii) : bool :=
  startsWith_chars needle hay
  || match hay with
     | [] => false
     | _ :: hay' => includes_chars needle hay'
     end.

Definition includes (hay needle : string) : bool :=
  includes_chars (chars needle) (chars hay).

End JsString.

Import JsString.

(** ** The article form ([ArticleForm]) *)

(** The state of the form, as far as [handleSubmit] and the handlers
    modelled here read it. *)
Module ArticleForm.
Record t := mk {
  mode : ArticleConfig.Mode;
  provider : AIProvider.t;
  topic : string;
  bulkInput : string;
  autoOptimize : bool;
  websiteUrl : string;
  deepResearch : bool;
  realTimeData : bool;
  researchProvider : SearchProvider.t;
  keywordAnalysisProvider : SearchProvider.t;
  primaryKeywords : list string;
  nlpKeywords : list string;
  foundLinks : list Link.t;
  selectedLinkUrls : gset string;
  includeExternalLinks : bool;
  foundExternalLinks : list Link.t;
  selectedExternalLinkUrls : gset string
}.
End ArticleForm.

(** The line feed that separates the topics of the bulk input. *)
Definition LF : ascii := Ascii.ascii_of_nat 10.

(** [bulkInput.split('\n').map(t => t.trim()).filter(t => t.length > 0)] *)
Definition queueTopics_of (bulkInput : string) : list string :=
  List.filter nonempty (trim <$> split LF bulkInput).

(** The [ArticleConfig] that [handleSubmit] hands to [onGenerate]. *)
Definition handleSubmit (f : ArticleForm.t) : ArticleConfig.t :=
  let internalLinks :=
    filter (fun link => Link.url link ∈ ArticleForm.selectedLinkUrls f)
      (ArticleForm.foundLinks f) in
  let externalLinks :=
    if ArticleForm.includeExternalLinks f
    then filter (fun link => Link.url link ∈ ArticleForm.selectedExternalLinkUrls f)
           (ArticleForm.foundExternalLinks f)
    else [] in
  let queueTopics :=
    match ArticleForm.mode f with
    | ArticleConfig.bulk => queueTopics_of (ArticleForm.bulkInput f)
    | ArticleConfig.single => []
    end in
  ArticleConfig.mk (ArticleForm.mode f) (ArticleForm.topic f) (Some queueTopics)
    (ArticleForm.autoOptimize f)
    (ArticleForm.primaryKeywords f) (ArticleForm.nlpKeywords f)
    (Some (ArticleForm.websiteUrl f))
    (ArticleForm.deepResearch f) (ArticleForm.realTimeData f)
    (Some internalLinks) (Some externalLinks)
    (ArticleForm.includeExternalLinks f)
    (ArticleForm.provider f)
    (Some (ArticleForm.researchProvider f))
    (Some (ArticleForm.keywordAnalysisProvider f))
    None None None.

(** [isFormValid]; the submit button is disabled without it. *)
Definition isFormValid (f : ArticleForm.t) : bool :=
  match ArticleForm.mode f with
  | ArticleConfig.single => nonempty (ArticleForm.topic f)
  | ArticleConfig.bulk => Nat.ltb 0 (String.length (trim (ArticleForm.bulkInput f)))
  end.

(** The number on the submit button and under the bulk input:
    [bulkInput.split('\n').filter(l => l.trim()).length]. *)
Definition topicsQueued (f : ArticleForm.t) : nat :=
  length (List.filter (fun l => nonempty (trim l)) (split LF (ArticleForm.bulkInput f))).

(** Two topics between blank lines and stray white space. *)
Definition example_form : ArticleForm.t :=
  ArticleForm.mk ArticleConfig.bulk AIProvider.GEMINI ""
    (of_chars (chars "  A " ++ [LF; LF] ++ chars " B" ++ [LF]))
    false "" false false SearchProvider.TAVILY SearchProvider.GEMINI [] []
    [] ∅ false [] ∅.

(** The run of the batch submitted from [example_form] with one article
    listed, to its end. *)
Definition example_form_run_on : State :=
  Eval vm_compute in
    after_on [old_article] 0 (handleSubmit example_form)
      [WorkerResume 1 (Resolved_article "B article" []);
       WorkerResume 0 (Resolved_article "A article" []);
       Join].

(** ** Keyword chips of the form *)

(** The keyword input, the list of chips under it, and the call of
    [handleGeneratePrimary] that is awaiting its provider, if any: the
    closure of that call holds the [primaryKeywords] of the render in which
    the button was clicked, and the button is disabled while
    [isGeneratingPrimary]. *)
Module KeywordBox.
Record t := mk {
  primaryKeywordInput : string;
  primaryKeywords : list string;
  generatingPrimary : option (list string)
}.
End KeywordBox.

(** [addPrimaryKeyword]: the trimmed input becomes a chip unless it is
    empty or already there; the input field is cleared when it does. *)
Definition addPrimaryKeyword (b : KeywordBox.t) : KeywordBox.t :=
  let k := trim (KeywordBox.primaryKeywordInput b) in
  if nonempty k && negb (bool_decide (k ∈ KeywordBox.primaryKeywords b))
  then KeywordBox.mk "" (KeywordBox.primaryKeywords b ++ [k]) (KeywordBox.generatingPrimary b)
  else b.

(** [removePrimaryKeyword(kw)] *)
Definition removePrimaryKeyword (kw : string) (b : KeywordBox.t) : KeywordBox.t :=
  KeywordBox.mk (KeywordBox.primaryKeywordInput b)
    (filter (fun k => k <> kw) (KeywordBox.primaryKeywords b))
    (KeywordBox.generatingPrimary b).

(** The click on "generate": [handleGeneratePrimary] up to its await. *)
Definition handleGeneratePrimary_click (b : KeywordBox.t) : KeywordBox.t :=
  match KeywordBox.generatingPrimary b with
  | Some _ => b
  | None =>
      KeywordBox.mk (KeywordBox.primaryKeywordInput b) (KeywordBox.primaryKeywords b)
        (Some (KeywordBox.primaryKeywords b))
  end.

(** [handleGeneratePrimary] after its await: the generated keywords that
    are not among the captured chips are appended to the captured chips; an
    empty answer (also that of a failed call) changes nothing. *)
Definition handleGeneratePrimary_resume (keywords : list string) (b : KeywordBox.t)
  : KeywordBox.t :=
  match KeywordBox.generatingPrimary b with
  | None => b
  | Some captured =>
      match keywords with
      | [] => KeywordBox.mk (KeywordBox.primaryKeywordInput b) (KeywordBox.primaryKeywords b) None
      | _ :: _ =>
          KeywordBox.mk (KeywordBox.primaryKeywordInput b)
            (captured ++ filter (fun k => k ∉ captured) keywords) None
      end
  end.

Inductive KeywordAction :=
| TypeKeyword (text : string)
| AddKeyword
| RemoveKeyword (kw : string)
| ClickGenerate
| Generated (keywords : list string).

Definition keyword_step (b : KeywordBox.t) (a : KeywordAction) : KeywordBox.t :=
  match a with
  | TypeKeyword text =>
      KeywordBox.mk text (KeywordBox.primaryKeywords b) (KeywordBox.generatingPrimary b)
  | AddKeyword => addPrimaryKeyword b
  | RemoveKeyword kw => removePrimaryKeyword kw b
  | ClickGenerate => handleGeneratePrimary_click b
  | Generated keywords => handleGeneratePrimary_resume keywords b
  end.

Definition initial_keywords : KeywordBox.t := KeywordBox.mk "" [] None.

(** The provider's answer has no duplicates of its own. *)
Definition clean_action (a : KeywordAction) : Prop :=
  match a with
  | Generated keywords => NoDup keywords
  | _ => True
  end.

(** Typing, adding and removing. *)
Definition by_hand (a : KeywordAction) : Prop :=
  match a with
  | TypeKeyword _ | AddKeyword | RemoveKeyword _ => True
  | _ => False
  end.

Definition example_keyword_actions : list KeywordAction :=
  [TypeKeyword " solar panels "; AddKeyword; ClickGenerate;
   TypeKeyword "inverter"; AddKeyword;
   Generated ["solar panels"; "home battery"]].

(** ** Link selection in the form *)

(** [toggleLinkSelection(url)] *)
Definition toggleLinkSelection (url : string) (sel : gset string) : gset string :=
  if decide (url ∈ sel) then sel ∖ {[url]} else sel ∪ {[url]}.

(** [toggleExternalLinkSelection(url)]: at most ten external links. *)
Definition toggleExternalLinkSelection (url : string) (sel : gset string) : gset string :=
  if decide (url ∈ sel) then sel ∖ {[url]}
  else if decide (10 <= size sel) then sel
  else sel ∪ {[url]}.

(** [selectMostComplimenting]: the first three links found. *)
Definition selectMostComplimenting (found : list Link.t) : gset string :=
  list_to_set (Link.url <$> take 3 found).

(** [selectAllLinks] *)
Definition selectAllLinks (found : list Link.t) : gset string :=
  list_to_set (Link.url <$> found).

(** What can happen to the selection of external links between a scan,
    which empties it, and the submission. *)
Definition external_selection (clicks : list string) : gset string :=
  foldl (fun sel url => toggleExternalLinkSelection url sel) (∅ : gset string) clicks.

(** The chips and the captured chips are both free of duplicates. *)
Definition keywords_nodup (b : KeywordBox.t) : Prop :=
  NoDup (KeywordBox.primaryKeywords b) /\
  (forall captured, KeywordBox.generatingPrimary b = Some captured -> NoDup captured).

(** ** Links out of the search grounding ([geminiService.ts]) *)

(** [chunk.web], with the two fields the scans read. *)
Record WebRef := mkWebRef { uri : option string; title : option string }.

(** An element of [groundingMetadata.groundingChunks]. *)
Record GroundingChunk := mkChunk { web : option WebRef }.

(** [chunk.web?.uri && chunk.web?.title]: both present and not empty. *)
Definition verified (chunk : GroundingChunk) : option (string * string) :=
  match web chunk with
  | Some w =>
      match uri w, title w with
      | Some u, Some t => if nonempty u && nonempty t then Some (u, t) else None
      | _, _ => None
      end
  | None => None
  end.

(** The loops headed "Remove duplicates": a link is kept when its key has
    not been seen. *)
Definition keep_unseen (key : Link.t -> string) (acc : gset string * list Link.t)
    (link : Link.t) : gset string * list Link.t :=
  if decide (key link ∈ acc.1) then acc
  else (acc.1 ∪ {[key link]}, acc.2 ++ [link]).

Definition uniqueLinks (key : Link.t -> string) (validLinks : list Link.t) : list Link.t :=
  (foldl (keep_unseen key) (∅, []) validLinks).2.

(** The body of [scanForExternalLinks] after the response has arrived. *)
Definition externalLinks_of (excludeDomain : option string) (rawChunks : list GroundingChunk)
  : list Link.t :=
  let validLinks :=
    omap (fun chunk =>
            match verified chunk with
            | Some (u, t) =>
                if truthy excludeDomain && includes u (default "" excludeDomain)
                then None
                else Some (Link.mk t u (Some "Verified External Source"))
            | None => None
            end) rawChunks in
  take 15 (uniqueLinks Link.url validLinks).

(** [s.replace(/\/$/, "")]: one trailing slash is dropped. *)
Definition dropTrailingSlash (s : string) : string :=
  match reverse (chars s) with
  | c :: r => if Ascii.eqb c (Ascii.ascii_of_nat 47) then of_chars (reverse r) else s
  | [] => s
  end.

(** [s.replace(/^www\./, '')] *)
Definition dropWww (s : string) : string :=
  match chars s with
  | w1 :: w2 :: w3 :: dot :: rest =>
      if Ascii.eqb w1 (Ascii.ascii_of_nat 119) && Ascii.eqb w2 (Ascii.ascii_of_nat 119)
         && Ascii.eqb w3 (Ascii.ascii_of_nat 119) && Ascii.eqb dot (Ascii.ascii_of_nat 46)
      then of_chars rest else s
  | _ => s
  end.

Section InternalLinks.

(** [new URL(x).hostname]; [None] when the constructor throws. *)
Variable hostname : string -> option string.

(** The body of [scanForInternalLinks] after the response has arrived, as
    far as the links go; [domain] is the host name of the website, or the
    website URL as given when it does not parse. *)
Definition internalLinks_of (domain : string) (rawChunks : list GroundingChunk)
  : list Link.t :=
  let cleanDomain := dropWww domain in
  let validLinks :=
    omap (fun chunk =>
            match verified chunk with
            | Some (u, t) =>
                match hostname u with
                | Some h =>
                    if includes h cleanDomain
                    then Some (Link.mk t u (Some "Verified via Google Search"))
                    else None
                | None => None
                end
            | None => None
            end) rawChunks in
  uniqueLinks (fun link => dropTrailingSlash (Link.url link)) validLinks.

End InternalLinks.

Definition chunk_of (u t : string) : GroundingChunk := mkChunk (Some (mkWebRef (Some u) (Some t))).

(** Three chunks, the first two for the same page. *)
Definition example_chunks : list GroundingChunk :=
  [chunk_of "https://a.example/report" "Report";
   chunk_of "https://a.example/report" "Report (again)";
   chunk_of "https://b.example/study" "Study";
   mkChunk None].

(** A form whose external links were scanned from [example_chunks] and
    whose first source has been clicked. *)
Definition example_sources_form : ArticleForm.t :=
  ArticleForm.mk ArticleConfig.single AIProvider.GEMINI "Topic" ""
    false "" false false SearchProvider.TAVILY SearchProvider.GEMINI [] []
    [] ∅ true (externalLinks_of None example_chunks)
    (external_selection ["https://a.example/report"]).

(** The code units before the first slash. *)
Fixpoint upto_slash (l : list ascii) : list ascii :=
  match l with
  | [] => []
  | c :: rest => if Ascii.eqb c (Ascii.ascii_of_nat 47) then [] else c :: upto_slash rest
  end.

(** A stand-in for [new URL(x).hostname] on the URLs of the examples: what
    lies between "https://" and the next slash. *)
Definition example_hostname (u : string) : option string :=
  match chars u with
  | h :: t1 :: t2 :: p :: s :: c :: s1 :: s2 :: rest =>
      if (of_chars [h; t1; t2; p; s; c; s1; s2] =? "https://")%string
      then Some (of_chars (upto_slash rest))
      else None
  | _ => None
  end.

(** A form whose internal links were scanned from [example_chunks] for the
    site "www.a.example", after "select most complimenting". *)
Definition example_links_form : ArticleForm.t :=
  let found := internalLinks_of example_hostname "www.a.example" example_chunks in
  ArticleForm.mk ArticleConfig.single AIProvider.GEMINI "Topic" ""
    false "https://www.a.example" false false SearchProvider.TAVILY SearchProvider.GEMINI
    [] [] found (selectMostComplimenting found) false [] ∅.

(** ** API keys: the settings dialog and the services that read them *)

(** [localStorage] is a map from names to strings, [gmap string string]. *)

(** The names under which the services look their keys up. *)
Module GeminiService.
Definition LOCAL_STORAGE_KEY_KEY : string := "user_gemini_api_key".

(** [getGeminiApiKey]: the user's key, trimmed, when it is not blank, else
    the key of the build environment, else the empty string. *)
Definition getGeminiApiKey (storage : gmap string string) (env_API_KEY : option string) : string :=
  match storage !! LOCAL_STORAGE_KEY_KEY with
  | Some customKey =>
      if nonempty customKey && nonempty (trim customKey) then trim customKey
      else default ""%string env_API_KEY
  | None => default ""%string env_API_KEY
  end.
End GeminiService.

Module DeepSeekService.
Definition LOCAL_STORAGE_KEY_KEY : string := "user_deepseek_api_key".

(** [getApiKey] *)
Definition getApiKey (storage : gmap string string) : string :=
  match storage !! LOCAL_STORAGE_KEY_KEY with
  | Some customKey =>
      if nonempty customKey && nonempty (trim customKey) then trim customKey else ""%string
  | None => ""%string
  end.
End DeepSeekService.

Module TavilyService.
Definition LOCAL_STORAGE_KEY : string := "user_tavily_api_key".

(** [getTavilyApiKey] *)
Definition getTavilyApiKey (storage : gmap string string) : string :=
  match storage !! LOCAL_STORAGE_KEY with
  | Some key => if nonempty key && nonempty (trim key) then trim key else ""%string
  | None => ""%string
  end.
End TavilyService.

Module SerpstackService.
Definition LOCAL_STORAGE_KEY : string := "user_serpstack_api_key".

(** [getSERPStackApiKey] *)
Definition getSERPStackApiKey (storage : gmap string string) : string :=
  match storage !! LOCAL_STORAGE_KEY with
  | Some key => if nonempty key && nonempty (trim key) then trim key else ""%string
  | None => ""%string
  end.
End SerpstackService.

(** The state of [Layout]: the browser's storage and the component's own
    state. *)
Module KeyModal.
Record t := mk {
  storage : gmap string string;
  showKeyModal : bool;
  geminiKey : string;
  deepSeekKey : string;
  tavilyKey : string;
  hasGeminiKey : bool;
  hasDeepSeekKey : bool;
  hasTavilyKey : bool;
  saved : bool                (* saveStatus === 'saved' *)
}.
End KeyModal.

(** The effect that runs when [Layout] mounts. *)
Definition Layout_mount (storage : gmap string string) : KeyModal.t :=
  let field (name : string) :=
    match storage !! name with
    | Some k => if nonempty k then (true, k) else (false, ""%string)
    | None => (false, ""%string)
    end in
  let g := field "user_gemini_api_key" in
  let d := field "user_deepseek_api_key" in
  let t := field "user_tavily_api_key" in
  KeyModal.mk storage false g.2 d.2 t.2 g.1 d.1 t.1 false.

(** [handleSaveKeys]: each field that is not blank is stored, trimmed. *)
Definition handleSaveKeys (s : KeyModal.t) : KeyModal.t :=
  let g := nonempty (trim (KeyModal.geminiKey s)) in
  let d := nonempty (trim (KeyModal.deepSeekKey s)) in
  let t := nonempty (trim (KeyModal.tavilyKey s)) in
  let st1 := if g then <["user_gemini_api_key" := trim (KeyModal.geminiKey s)]> (KeyModal.storage s)
             else KeyModal.storage s in
  let st2 := if d then <["user_deepseek_api_key" := trim (KeyModal.deepSeekKey s)]> st1 else st1 in
  let st3 := if t then <["user_tavily_api_key" := trim (KeyModal.tavilyKey s)]> st2 else st2 in
  KeyModal.mk st3 (KeyModal.showKeyModal s)
    (KeyModal.geminiKey s) (KeyModal.deepSeekKey s) (KeyModal.tavilyKey s)
    (if g then true else KeyModal.hasGeminiKey s)
    (if d then true else KeyModal.hasDeepSeekKey s)
    (if t then true else KeyModal.hasTavilyKey s)
    (if g || d || t then true else KeyModal.saved s).

(** [clearGemini], [clearDeepSeek], [clearTavily] *)
Definition clearGemini (s : KeyModal.t) : KeyModal.t :=
  KeyModal.mk (delete "user_gemini_api_key" (KeyModal.storage s)) (KeyModal.showKeyModal s)
    "" (KeyModal.deepSeekKey s) (KeyModal.tavilyKey s)
    false (KeyModal.hasDeepSeekKey s) (KeyModal.hasTavilyKey s) (KeyModal.saved s).

Definition clearDeepSeek (s : KeyModal.t) : KeyModal.t :=
  KeyModal.mk (delete "user_deepseek_api_key" (KeyModal.storage s)) (KeyModal.showKeyModal s)
    (KeyModal.geminiKey s) "" (KeyModal.tavilyKey s)
    (KeyModal.hasGeminiKey s) false (KeyModal.hasTavilyKey s) (KeyModal.saved s).

Definition clearTavily (s : KeyModal.t) : KeyModal.t :=
  KeyModal.mk (delete "user_tavily_api_key" (KeyModal.storage s)) (KeyModal.showKeyModal s)
    (KeyModal.geminiKey s) (KeyModal.deepSeekKey s) ""
    (KeyModal.hasGeminiKey s) (KeyModal.hasDeepSeekKey s) false (KeyModal.saved s).

(** What the user and the timer of [handleSaveKeys] can do to the dialog. *)
Inductive KeyAction :=
| OpenKeyModal
| CloseKeyModal
| SetGeminiKey (text : string)
| SetDeepSeekKey (text : string)
| SetTavilyKey (text : string)
| SaveKeys
| SaveTimer
| ClearGemini
| ClearDeepSeek
| ClearTavily.

Definition with_modal (b : bool) (s : KeyModal.t) : KeyModal.t :=
  KeyModal.mk (KeyModal.storage s) b
    (KeyModal.geminiKey s) (KeyModal.deepSeekKey s) (KeyModal.tavilyKey s)
    (KeyModal.hasGeminiKey s) (KeyModal.hasDeepSeekKey s) (KeyModal.hasTavilyKey s)
    (KeyModal.saved s).

Definition with_fields (g d t : string) (s : KeyModal.t) : KeyModal.t :=
  KeyModal.mk (KeyModal.storage s) (KeyModal.showKeyModal s) g d t
    (KeyModal.hasGeminiKey s) (KeyModal.hasDeepSeekKey s) (KeyModal.hasTavilyKey s)
    (KeyModal.saved s).

Definition key_step (s : KeyModal.t) (a : KeyAction) : KeyModal.t :=
  match a with
  | OpenKeyModal => with_modal true s
  | CloseKeyModal => with_modal false s
  | SetGeminiKey text => with_fields text (KeyModal.deepSeekKey s) (KeyModal.tavilyKey s) s
  | SetDeepSeekKey text => with_fields (KeyModal.geminiKey s) text (KeyModal.tavilyKey s) s
  | SetTavilyKey text => with_fields (KeyModal.geminiKey s) (KeyModal.deepSeekKey s) text s
  | SaveKeys => handleSaveKeys s
  | SaveTimer =>
      KeyModal.mk (KeyModal.storage s) false
        (KeyModal.geminiKey s) (KeyModal.deepSeekKey s) (KeyModal.tavilyKey s)
        (KeyModal.hasGeminiKey s) (KeyModal.hasDeepSeekKey s) (KeyModal.hasTavilyKey s)
        false
  | ClearGemini => clearGemini s
  | ClearDeepSeek => clearDeepSeek s
  | ClearTavily => clearTavily s
  end.

(** The dialog after [actions], mounted on [storage]. *)
Definition key_session (storage : gmap string string) (actions : list KeyAction) : KeyModal.t :=
  foldl key_step (Layout_mount storage) actions.

(** The badge of a key is lit exactly when a non-empty string is stored
    under its name. *)
Record badges_inv (s : KeyModal.t) : Prop := {
  bi_gemini : KeyModal.hasGeminiKey s = true <->
              exists k, KeyModal.storage s !! "user_gemini_api_key" = Some k /\ k <> ""%string;
  bi_deepseek : KeyModal.hasDeepSeekKey s = true <->
              exists k, KeyModal.storage s !! "user_deepseek_api_key" = Some k /\ k <> ""%string;
  bi_tavily : KeyModal.hasTavilyKey s = true <->
              exists k, KeyModal.storage s !! "user_tavily_api_key" = Some k /\ k <> ""%string
}.

(** No stored key is blank without being empty. *)
Definition no_blank_keys (storage : gmap string string) : Prop :=
  forall name k, storage !! name = Some k -> k <> ""%string -> trim k <> ""%string.

(** A DeepSeek key has been typed with blanks around it. *)
Definition example_key_state : KeyModal.t :=
  with_fields "" " sk-123 " ""
    (KeyModal.mk ∅ true "" "" "" false false false false).

(** A DeepSeek key is typed with blanks around it and saved. *)
Definition example_key_actions : list KeyAction :=
  [OpenKeyModal; SetDeepSeekKey " sk-123 "; SaveKeys; SaveTimer].

(** ** Requests to Gemini with retries *)

Local Open Scope Z_scope.

(** A rejection of the Gemini client, as far as [generateContentWithRetry]
    inspects it: its [status], when that is a number, and the text
    [toString()] gives, when the value has that method. *)
Module ApiError.
Record t := mk { status : option Z; toString : option string }.
End ApiError.

(** What the client answers to a request. *)
Inductive Attempt (A : Type) :=
| Fulfilled (response : A)
| RejectedWith (error : ApiError.t).

Arguments Fulfilled {A} response.

Arguments RejectedWith {A} error.

(** What a call does to the outside: a request to the model (numbered by
    the loop counter), a timer. *)
Inductive RetryEffect :=
| Request (i : Z)
| Timeout (ms : Z).

(** How a call ends.  [ThrowLast] is the [throw lastError] after the loop,
    where [lastError] may still be undefined. *)
Inductive Completion (A : Type) :=
| Return (value : A)
| Throw (error : ApiError.t)
| ThrowLast (lastError : option ApiError.t).

Arguments Return {A} value.

Arguments Throw {A} error.

Arguments ThrowLast {A} lastError.

Definition isQuotaOrServer (error : ApiError.t) : bool :=
  bool_decide (ApiError.status error = Some 429)
  || bool_decide (ApiError.status error = Some 503)
  || match ApiError.toString error with
     | Some text =>
         includes text "429" || includes text "503" || includes text "RESOURCE_EXHAUSTED"
     | None => false
     end.

(** The error of [getGenAI] when no key is found. *)
Definition noKeyError : ApiError.t :=
  ApiError.mk None
    (Some "Error: No Gemini API Key found. Please add your key in the API Settings (key icon in header).").

Definition requests (trace : list RetryEffect) : list Z :=
  omap (fun e => match e with Request i => Some i | Timeout _ => None end) trace.

Definition waited (trace : list RetryEffect) : Z :=
  foldr Z.add 0 (omap (fun e => match e with Timeout ms => Some ms | Request _ => None end) trace).

Section Retry.
Context {A : Type}.
(** The answer of the client to the request of each round. *)
Variable generateContent : Z -> Attempt A.

(** The loop of [generateContentWithRetry], from round [i] on. *)
Fixpoint retry_loop (fuel : nat) (retries i : Z) (lastError : option ApiError.t)
  : option (Completion A * list RetryEffect) :=
  match fuel with
  | O => None
  | S fuel =>
      if i <=? retries then
        match generateContent i with
        | Fulfilled response => Some (Return response, [Request i])
        | RejectedWith error =>
            if isQuotaOrServer error && (i <? retries) then
              let delay := 1000 * 2 ^ i in
              match retry_loop fuel retries (i + 1) (Some error) with
              | Some (c, trace) => Some (c, Request i :: Timeout delay :: trace)
              | None => None
              end
            else Some (Throw error, [Request i])
        end
      else Some (ThrowLast lastError, [])
  end.

(** [generateContentWithRetry(model, params, retries)], with the key that
    [getGenAI] finds. *)
Definition generateContentWithRetry (storage : gmap string string)
    (env_API_KEY : option string) (retries : Z)
  : option (Completion A * list RetryEffect) :=
  if nonempty (GeminiService.getGeminiApiKey storage env_API_KEY)
  then retry_loop (Z.to_nat (retries + 2)) retries 0 None
  else Some (Throw noKeyError, []).

End Retry.

(** [generatePrimaryKeywords]: the text of the response is parsed and its
    [keywords] returned; whatever is thrown on the way is caught and
    answered with the empty array.  The function is declared to return
    [string[]], but what it returns is [data.keywords || []] as parsed:
    nothing checks that it is an array. *)
Module GeminiKeywords.
Section Keywords.
(** The numbers of JavaScript, with the test for [0] and [-0]
    ([JSON.parse] yields no [NaN]). *)
Variable Number : Type.
Variable isZero : Number -> bool.

(** The values [JSON.parse] yields. *)
#[local] Unset Elimination Schemes.
Inductive JsonValue :=
| JsonNull
| JsonBool (b : bool)
| JsonNumber (x : Number)
| JsonString (s : string)
| JsonArray (items : list JsonValue)
| JsonObject (members : list (string * JsonValue)).
#[local] Set Elimination Schemes.

(** [JSON.parse(text)]: [None] when it throws its [SyntaxError]. *)
Variable JSON_parse : string -> option JsonValue.
Variable generateContent : Z -> Attempt (option string).

(** The value of the member [key] of a parsed object, [None] for
    [undefined]; where the text repeats a key the last value stands. *)
Fixpoint member (key : string) (members : list (string * JsonValue)) : option JsonValue :=
  match members with
  | [] => None
  | (k, v) :: rest =>
      match member key rest with
      | Some v' => Some v'
      | None => if (k =? key)%string then Some v else None
      end
  end.

(** [data.keywords]: a [TypeError] on [null] (the outer [None]),
    [undefined] (the inner [None]) on a boolean, a number, a string, an
    array and an object without that member. *)
Definition get_keywords (data : JsonValue) : option (option JsonValue) :=
  match data with
  | JsonNull => None
  | JsonObject members => Some (member "keywords" members)
  | _ => Some None
  end.

(** The truthiness that [||] tests. *)
Definition ToBoolean (v : JsonValue) : bool :=
  match v with
  | JsonNull => false
  | JsonBool b => b
  | JsonNumber x => negb (isZero x)
  | JsonString s => nonempty s
  | JsonArray _ | JsonObject _ => true
  end.

(** [v || []] *)
Definition or_empty (v : option JsonValue) : JsonValue :=
  match v with
  | Some v => if ToBoolean v then v else JsonArray []
  | None => JsonArray []
  end.

(** From [response.text] to the [return] of the [try] block. *)
Definition keywords_of_response (text : option string) : Completion JsonValue :=
  match text with
  | None => Return (JsonArray [])
  | Some text =>
      if nonempty text then
        match JSON_parse text with
        | Some data =>
            match get_keywords data with
            | Some keywords => Return (or_empty keywords)
            | None => Throw (ApiError.mk None (Some "TypeError"))
            end
        | None => Throw (ApiError.mk None (Some "SyntaxError"))
        end
      else Return (JsonArray [])
  end.

Definition generatePrimaryKeywords (storage : gmap string string)
    (env_API_KEY : option string)
  : option (Completion JsonValue * list RetryEffect) :=
  match generateContentWithRetry generateContent storage env_API_KEY 3 with
  | None => None
  | Some (c, trace) =>
      let try_block :=
        match c with
        | Return response => keywords_of_response response
        | Throw error => Throw error
        | ThrowLast lastError => ThrowLast lastError
        end in
      Some (match try_block with
            | Return keywords => Return keywords
            | Throw _ | ThrowLast _ => Return (JsonArray [])
            end, trace)
  end.

(** [generateNLPKeywords] differs in its prompt only. *)
Definition generateNLPKeywords := generatePrimaryKeywords.

End Keywords.

Arguments JsonNull {Number}.
Arguments JsonBool {Number} b.
Arguments JsonNumber {Number} x.
Arguments JsonString {Number} s.
Arguments JsonArray {Number} items.
Arguments JsonObject {Number} members.
Arguments member {Number} key members.
Arguments get_keywords {Number} data.
Arguments ToBoolean {Number} isZero v.
Arguments or_empty {Number} isZero v.
Arguments keywords_of_response {Number} isZero JSON_parse text.
Arguments generatePrimaryKeywords {Number} isZero JSON_parse generateContent storage env_API_KEY.
Arguments generateNLPKeywords {Number} isZero JSON_parse generateContent storage env_API_KEY.
End GeminiKeywords.

(** A client that is busy twice and then answers. *)
Definition busy_twice (i : Z) : Attempt (option string) :=
  if i <? 2 then RejectedWith (ApiError.mk (Some 503) (Some "Error: overloaded"))
  else Fulfilled (Some "{}").

Definition example_storage : gmap string string :=
  {[ "user_gemini_api_key" := " key-1 "%string ]}.

(** A parser for the examples, with integers for numbers: one text is
    an object whose [keywords] is an array of two strings, one an object
    whose [keywords] is a string, one the number 7, every other text an
    empty object. *)
Definition example_JSON_parse (text : string) : option (GeminiKeywords.JsonValue Z) :=
  if (text =? "{keywords}")%string then
    Some (GeminiKeywords.JsonObject
            [("keywords"%string,
              GeminiKeywords.JsonArray
                [GeminiKeywords.JsonString "solar"; GeminiKeywords.JsonString "panels"])])
  else if (text =? "{keywords: solar}")%string then
    Some (GeminiKeywords.JsonObject [("keywords"%string, GeminiKeywords.JsonString "solar")])
  else if (text =? "7")%string then Some (GeminiKeywords.JsonNumber 7)
  else Some (GeminiKeywords.JsonObject []).

(** A client that is out of quota once and then answers with keywords. *)
Definition quota_once (i : Z) : Attempt (option string) :=
  if i <? 1 then RejectedWith (ApiError.mk (Some 429) None)
  else Fulfilled (Some "{keywords}"%string).

(** A client whose answer holds a string where the array should be. *)
Definition keywords_as_string (i : Z) : Attempt (option string) :=
  Fulfilled (Some "{keywords: solar}"%string).

Local Close Scope Z_scope.

(** ** Cleaning the JSON that DeepSeek answers *)

(** Canonicalisation of a code unit for a match that ignores case: among
    the code units 0 to 255 only the letters a to z change. *)
Definition toUpperCase_char (c : ascii) : ascii :=
  let n := Ascii.nat_of_ascii c in
  if Nat.leb 97 n && Nat.leb n 122 then Ascii.ascii_of_nat (n - 32) else c.

Definition eq_ignoreCase (a b : ascii) : bool :=
  Ascii.eqb (toUpperCase_char a) (toUpperCase_char b).

(** Does the literal pattern [p] match at the head of [l]? *)
Fixpoint matchesAt (eqc : ascii -> ascii -> bool) (p l : list ascii) : bool :=
  match p, l with
  | [], _ => true
  | a :: p', b :: l' => eqc a b && matchesAt eqc p' l'
  | _ :: _, [] => false
  end.

(** [l.replace(/p/g, '')] for a literal pattern: the matches are looked
    for from left to right, each after the end of the one before; [skip]
    counts the code units of the current match still to be dropped. *)
Fixpoint remove_from (eqc : ascii -> ascii -> bool) (p : list ascii) (skip : nat)
    (l : list ascii) : list ascii :=
  match l with
  | [] => []
  | c :: rest =>
      match skip with
      | S k => remove_from eqc p k rest
      | O =>
          if matchesAt eqc p l then remove_from eqc p (length p - 1) rest
          else c :: remove_from eqc p 0 rest
      end
  end.

Definition removeAll (eqc : ascii -> ascii -> bool) (p l : list ascii) : list ascii :=
  remove_from eqc p 0 l.

(** [l.indexOf(c)] and [l.lastIndexOf(c)]; [None] is -1. *)
Fixpoint indexOf_char (c : ascii) (l : list ascii) : option nat :=
  match l with
  | [] => None
  | x :: rest => if Ascii.eqb x c then Some 0 else S <$> indexOf_char c rest
  end.

Definition lastIndexOf_char (c : ascii) (l : list ascii) : option nat :=
  (fun i => length l - 1 - i) <$> indexOf_char c (reverse l).

(** [l.substring(from, to)] for [from <= to]. *)
Definition substring_chars (from to : nat) (l : list ascii) : list ascii :=
  take (to - from) (drop from l).

Definition fence : list ascii := chars "```".

Definition fence_json : list ascii := chars "```json".

(** [cleanJsonOutput(text)] *)
Definition cleanJsonOutput (text : string) : string :=
  let clean := trim_chars (chars text) in
  let clean := removeAll Ascii.eqb fence (removeAll eq_ignoreCase fence_json clean) in
  let firstBrace := indexOf_char "{"%char clean in
  let lastBrace := lastIndexOf_char "}"%char clean in
  let clean :=
    match firstBrace, lastBrace with
    | Some f, Some l => if Nat.ltb f l then substring_chars f (l + 1) clean else clean
    | _, _ => clean
    end in
  of_chars (trim_chars clean).

(** A pattern none of whose code units matches [c]. *)
Definition inert (eqc : ascii -> ascii -> bool) (p : list ascii) (c : ascii) : Prop :=
  Forall (fun q => eqc q c = false) p.

Definition quote : ascii := Ascii.ascii_of_nat 34.

(** An answer with prose and a fence around the object. *)
Definition example_pre : list ascii := chars "Here you go: ```JSON ".

Definition example_body : list ascii :=
  quote :: chars "keywords" ++ quote :: chars ": [1, 2]".

Definition example_post : list ascii := chars " ``` Enjoy!".

(** The text holds an opening brace before a closing brace. *)
Definition braces_in_order (l : list ascii) : Prop :=
  exists a m z, l = a ++ "{"%char :: m ++ "}"%char :: z.

(** * The bulk-generation orchestrator: proofs *)

(** ** Reasoning about runs *)

Lemma run_snoc cfg s evs ev s' :
  run cfg s (evs ++ [ev]) = Some s' <->
  exists s1, run cfg s evs = Some s1 /\ step cfg s1 ev = Some s'.
Proof.
  revert s. induction evs as [|e evs IH]; intros s; simpl.
  - split.
    + intros H. exists s. split; [done|]. by destruct (step cfg s ev).
    + intros (s1 & [= <-] & H). by rewrite H.
  - destruct (step cfg s e) as [s1|]; [apply IH|].
    split; [done|]. by intros (s2 & ? & _).
Qed.

Lemma run_app cfg s evs1 evs2 s1 :
  run cfg s evs1 = Some s1 -> run cfg s (evs1 ++ evs2) = run cfg s1 evs2.
Proof.
  revert s. induction evs1 as [|e evs IH]; intros s; simpl.
  - by intros [= ->].
  - destruct (step cfg s e); [apply IH|done].
Qed.

Lemma reachable_start cfg : reachable cfg (handleGenerate cfg).
Proof. by exists []. Qed.

Lemma reachable_step cfg s ev s' :
  reachable cfg s -> step cfg s ev = Some s' -> reachable cfg s'.
Proof.
  intros [evs H] Hs. exists (evs ++ [ev]). apply run_snoc. eauto.
Qed.

Lemma reachable_run cfg s evs s' :
  reachable cfg s -> run cfg s evs = Some s' -> reachable cfg s'.
Proof.
  intros [evs0 H] Hs. exists (evs0 ++ evs). by rewrite (run_app _ _ _ _ _ H).
Qed.

(** Induction over the states of a run. *)
Lemma reachable_ind (cfg : ArticleConfig.t) (P : State -> Prop) :
  P (handleGenerate cfg) ->
  (forall s ev s', reachable cfg s -> P s -> step cfg s ev = Some s' -> P s') ->
  forall s, reachable cfg s -> P s.
Proof.
  intros H0 Hstep s [evs Hrun]. revert s Hrun.
  induction evs as [|ev evs IH] using rev_ind; intros s Hrun.
  - simpl in Hrun. by injection Hrun as <-.
  - apply run_snoc in Hrun as (s1 & Hrun & Hs).
    eapply Hstep; [by exists evs | by apply IH | done].
Qed.

Lemma held_insert ws i pc :
  ws !! i = Some pc ->
  exists rest,
    held ws ≡ₚ option_list (held_by pc) ++ rest /\
    forall pc', held (<[i:=pc']> ws) ≡ₚ option_list (held_by pc') ++ rest.
Proof.
  intros Hi. exists (held (take i ws) ++ held (drop (S i) ws)).
  assert (Hlt : i < length ws) by (by eapply lookup_lt_Some).
  split.
  - rewrite <- (take_drop_middle ws i pc Hi) at 1.
    unfold held. rewrite omap_app. simpl.
    destruct (held_by pc); simpl; [|done].
    by rewrite Permutation_middle.
  - intros pc'. rewrite insert_take_drop by done.
    unfold held. rewrite omap_app. simpl.
    destruct (held_by pc'); simpl; [|done].
    by rewrite Permutation_middle.
Qed.

(** ** The shape of a worker's turn *)

Lemma generation_phase_advances cfg i t l s : advances i t s (generation_phase cfg i t l s).
Proof. by constructor. Qed.

Lemma external_stage_advances cfg i t l s : advances i t s (external_stage cfg i t l s).
Proof.
  unfold external_stage. destruct (ArticleConfig.enableExternalLinks cfg).
  - by constructor.
  - apply generation_phase_advances.
Qed.

Lemma link_stage_advances cfg i t l s : advances i t s (link_stage cfg i t l s).
Proof.
  unfold link_stage.
  destruct (truthy _); [|apply external_stage_advances].
  destruct (cachedInternalLinks s); [|apply external_stage_advances].
  destruct (_ && _); [by constructor|].
  destruct (_ || _); [by constructor|apply external_stage_advances].
Qed.

Lemma enter_try_advances cfg i t s : advances i t s (enter_try cfg i t s).
Proof.
  unfold enter_try. destruct (ArticleConfig.autoOptimize cfg).
  - by constructor.
  - apply generation_phase_advances.
Qed.

Lemma worker_resume_effect cfg i pc r s :
  may_settle s pc r = true ->
  exists t, task_of pc = Some t /\ worker_effect cfg i t s (worker_resume cfg i pc r s).
Proof.
  intros Hok.
  destruct pc as [|t|ds t l|ds t l|t l|t l|t l|]; try done; exists t; (split; [done|]).
  - apply effect_advance, enter_try_advances.
  - apply effect_advance. destruct r; simpl;
      first [apply link_stage_advances | by constructor].
  - apply effect_advance. destruct r; simpl; apply link_stage_advances.
  - apply effect_advance. destruct r; simpl; apply external_stage_advances.
  - apply effect_advance. destruct r; simpl; apply generation_phase_advances.
  - destruct r as [| | | | |content sources|e]; try done; simpl.
    + by apply effect_report.
    + simpl in Hok. destruct (is_AbortError e); simpl in Hok.
      * by apply effect_abort.
      * by apply effect_report.
Qed.

Lemma loop_head_effect cfg i s : loop_effect cfg i s (loop_head cfg i s).
Proof.
  unfold loop_head. destruct (queue s) as [|topic rest] eqn:Hq.
  { apply loop_exit. by left. }
  destruct (aborted s) eqn:Ha.
  { apply loop_exit. by right. }
  destruct (String.eqb_spec topic "") as [->|Hne].
  { by eapply loop_drop. }
  eapply loop_claim; [done..|].
  destruct (isDeepSeekWebMode cfg); [constructor|apply enter_try_advances].
Qed.

(** The loop head overwrites the worker's own slot whatever it held. *)
Lemma loop_head_set_pc cfg i pc s : loop_head cfg i (set_pc i pc s) = loop_head cfg i s.
Proof.
  unfold loop_head, enter_try, generation_phase, await_call, set_pc, set_workers,
    shift, setActiveTasks, issue; simpl.
  destruct (queue s); simpl; [by rewrite list_insert_insert_eq|].
  destruct (aborted s); simpl; [by rewrite list_insert_insert_eq|].
  repeat match goal with |- context [if ?b then _ else _] => destruct b end;
    simpl; by rewrite list_insert_insert_eq.
Qed.

(** ** The queue invariant *)

Lemma advances_workers i t s s' :
  advances i t s s' ->
  exists pc', task_of pc' = Some t /\ workers s' = <[i:=pc']> (workers s).
Proof.
  intros [|c pc' H].
  - by exists (AwaitDelay t).
  - by exists pc'.
Qed.

Lemma advances_frame i t s s' :
  advances i t s s' ->
  main s' = main s /\ aborted s' = aborted s /\ refLive s' = refLive s /\
  queue s' = queue s /\ completedCount s' = completedCount s /\
  cachedBrandResearch s' = cachedBrandResearch s /\
  cachedInternalLinks s' = cachedInternalLinks s /\
  generatedArticles s' = generatedArticles s /\ bulkProgress s' = bulkProgress s /\
  activeTasks s' = activeTasks s /\ isGenerating s' = isGenerating s /\
  error s' = error s /\ claims s' = claims s /\ reported s' = reported s.
Proof. intros [|c pc' H]; simpl; tauto. Qed.

Ltac frame H :=
  let Hf := fresh "Hf" in
  pose proof (advances_frame _ _ _ _ H) as Hf; simpl in Hf;
  destruct Hf as (Hfmain & Hfab & Hfref & Hfq & Hfcc & Hfbrand & Hflinks & Hfga &
                  Hfbp & Hfat & Hfgen & Hferr & Hfcl & Hfrep).

Lemma lookup_insert_cases (ws : list WorkerPc) i j pc pc' :
  <[i:=pc']> ws !! j = Some pc -> pc = pc' \/ ws !! j = Some pc.
Proof.
  intros H. apply list_lookup_insert_Some in H as [(_ & -> & _)|(_ & H)]; auto.
Qed.

(** A worker that moves on within its task keeps the invariant. *)
Lemma core_advance cfg i pc t s s' :
  core_inv cfg s -> workers s !! i = Some pc -> task_of pc = Some t ->
  advances i t s s' -> core_inv cfg s'.
Proof.
  intros [] Hi Ht Hadv. frame Hadv.
  destruct (advances_workers _ _ _ _ Hadv) as (pc' & Ht' & Hw).
  destruct (held_insert _ _ _ Hi) as (rest & Hh & Hh').
  assert (Heq : held (workers s') ≡ₚ held (workers s)).
  { rewrite Hw, Hh, Hh'. unfold held_by. by rewrite Ht, Ht'. }
  constructor; rewrite ?Heq, ?Hfq, ?Hfcc, ?Hfga, ?Hfcl, ?Hfrep; try done.
  - intros j pc0 t0 Hj Ht0. rewrite Hw in Hj.
    apply lookup_insert_cases in Hj as [->|Hj]; [|by eauto].
    assert (t0 = t) as -> by congruence. eauto.
  - rewrite Hfab. auto.
  - rewrite Hfab. intros Hv Ha j Hj. rewrite Hw in Hj.
    apply lookup_insert_cases in Hj as [<-|Hj]; [done|by eauto].
Qed.

(** Reporting a task and releasing it (the slot is about to be overwritten
    by the loop head). *)
Lemma core_report cfg i pc t a s :
  core_inv cfg s -> workers s !! i = Some pc -> task_of pc = Some t ->
  GeneratedArticle.title a = task_topic t ->
  core_inv cfg (set_pc i NotStarted (finally_block (setGeneratedArticles (task_index t) a s))).
Proof.
  intros [] Hi Ht Ha.
  destruct (held_insert _ _ _ Hi) as (rest & Hh & Hh').
  unfold held_by in Hh. rewrite Ht in Hh. simpl in Hh.
  constructor; simpl; rewrite ?Hh'; simpl; try done.
  - rewrite Hh in inv_nodup0. simpl in inv_nodup0.
    by rewrite app_assoc, <- Permutation_cons_append.
  - rewrite Hh in inv_bound0. simpl in inv_bound0.
    by rewrite app_assoc, <- Permutation_cons_append.
  - rewrite !length_app. simpl. lia.
  - rewrite length_app. simpl. lia.
  - rewrite Hh in inv_released0. simpl in inv_released0. lia.
  - apply Forall2_app; [done|]. constructor; [|done]. rewrite Ha. eauto.
  - intros j pc0 t0 Hj Ht0.
    apply lookup_insert_cases in Hj as [->|Hj]; [done|by eauto].
  - intros Hv Hab. destruct (inv_exact0 Hv Hab) as [H1 H2].
    rewrite Hh in H2. simpl in H2. rewrite length_app. simpl. lia.
  - intros Hv Hab j Hj.
    apply lookup_insert_cases in Hj as [?|Hj]; [done|by eauto].
  - intros Hv. specialize (inv_balance0 Hv).
    rewrite Hh in inv_balance0. simpl in inv_balance0. lia.
Qed.

(** Returning on an abort: the task is released without a report. *)
Lemma core_abort cfg i pc t s :
  core_inv cfg s -> workers s !! i = Some pc -> task_of pc = Some t ->
  aborted s = true ->
  core_inv cfg (set_pc i Returned (finally_block s)).
Proof.
  intros [] Hi Ht Hab.
  destruct (held_insert _ _ _ Hi) as (rest & Hh & Hh').
  unfold held_by in Hh. rewrite Ht in Hh. simpl in Hh.
  constructor; simpl; rewrite ?Hh'; simpl; try done; try congruence.
  - rewrite Hh in inv_nodup0. simpl in inv_nodup0. by apply NoDup_cons in inv_nodup0 as [_ ?].
  - rewrite Hh in inv_bound0. simpl in inv_bound0. by apply Forall_cons in inv_bound0 as [_ ?].
  - lia.
  - rewrite Hh in inv_released0. simpl in inv_released0. lia.
  - intros j pc0 t0 Hj Ht0.
    apply lookup_insert_cases in Hj as [->|Hj]; [done|by eauto].
  - intros Hv. specialize (inv_balance0 Hv).
    rewrite Hh in inv_balance0. simpl in inv_balance0. lia.
Qed.

Lemma drop_cons_inv {A} (l : list A) n x rest :
  drop n l = x :: rest -> l !! n = Some x /\ drop (S n) l = rest /\ n < length l.
Proof.
  revert n. induction l as [|y l IH]; intros [|n]; simpl; try done.
  - intros [= -> ->]. split; [done|]. split; [by rewrite drop_0|lia].
  - intros H. destruct (IH _ H) as (? & ? & ?). split; [done|]. split; [done|lia].
Qed.

Lemma valid_queue cfg s rest :
  valid cfg -> queue s = drop (length (claims s)) (topics cfg) ->
  queue s <> ""%string :: rest.
Proof.
  intros [_ Hv] Hq Hd. rewrite Hq in Hd.
  apply drop_cons_inv in Hd as (Hl & _).
  rewrite Forall_lookup in Hv. by apply Hv in Hl.
Qed.

(** The loop head, run by a worker that holds no task. *)
Lemma core_loop_head cfg i pc s :
  core_inv cfg s -> workers s !! i = Some pc -> task_of pc = None ->
  core_inv cfg (loop_head cfg i s).
Proof.
  intros Hinv Hi Ht.
  destruct (held_insert _ _ _ Hi) as (rest & Hh & Hh').
  unfold held_by in Hh. rewrite Ht in Hh. simpl in Hh.
  destruct (loop_head_effect cfg i s) as [Hex|tl Hq Ha|topic tl s' Hq Hne Ha Hadv].
  - destruct Hinv. constructor; simpl; rewrite ?Hh', <- ?Hh; simpl; try done.
    + intros j pc0 t0 Hj Ht0.
      apply lookup_insert_cases in Hj as [->|Hj]; [done|by eauto].
    + intros Hv Hab j Hj.
      apply lookup_insert_cases in Hj as [_|Hj]; [|by eauto].
      destruct Hex; congruence.
  - destruct Hinv. pose proof Hq as Hq'. rewrite inv_queue0 in Hq'.
    apply drop_cons_inv in Hq' as (Hl & Hd & Hlt).
    constructor; simpl; rewrite ?Hh', <- ?Hh, ?length_app; simpl;
      rewrite ?Nat.add_1_r; try done.
    + by rewrite Hq.
    + rewrite fmap_app, seq_S, inv_claims0. done.
    + eapply Forall_impl; [done|]. simpl. lia.
    + lia.
    + intros j pc0 t0 Hj Ht0.
      apply lookup_insert_cases in Hj as [->|Hj]; [done|by eauto].
    + intros Hv. by destruct (valid_queue cfg s tl Hv).
    + intros Hv. by destruct (valid_queue cfg s tl Hv).
    + intros Hv. by destruct (valid_queue cfg s tl Hv).
  - destruct Hinv. pose proof Hq as Hq'. rewrite inv_queue0 in Hq'.
    apply drop_cons_inv in Hq' as (Hl & Hd & Hlt).
    frame Hadv.
    destruct (advances_workers _ _ _ _ Hadv) as (pc' & Ht' & Hw). simpl in Hw.
    assert (Heq : held (workers s') ≡ₚ length (claims s) :: held (workers s)).
    { rewrite Hw, Hh, Hh'. unfold held_by. by rewrite Ht'. }
    constructor; rewrite ?Heq, ?Hfq, ?Hfcc, ?Hfga, ?Hfcl, ?Hfrep, ?Hfab, ?length_app; simpl;
      rewrite ?Nat.add_1_r; try done.
    + by rewrite Hq.
    + rewrite fmap_app, seq_S, inv_claims0. done.
    + apply NoDup_cons. split; [|done].
      intros Hin. rewrite Forall_forall in inv_bound0.
      apply inv_bound0 in Hin. lia.
    + constructor; [lia|]. eapply Forall_impl; [done|]. simpl. lia.
    + lia.
    + intros j pc0 t0 Hj Ht0. rewrite Hw in Hj.
      apply lookup_insert_cases in Hj as [->|Hj]; [|by eauto].
      assert (t0 = mkTask (length (claims s)) topic) as -> by congruence. done.
    + intros Hv Hab. destruct (inv_exact0 Hv Hab). lia.
    + intros Hv Hab j Hj. rewrite Hw in Hj.
      apply lookup_insert_cases in Hj as [<-|Hj]; [done|].
      specialize (inv_idle0 Hv Hab j Hj). congruence.
    + intros Hv. specialize (inv_balance0 Hv). lia.
Qed.

(** Changes that leave the queue, the claims, the workers and the reports
    alone keep the invariant. *)
Lemma core_inv_same cfg s s' :
  queue s' = queue s -> claims s' = claims s -> workers s' = workers s ->
  reported s' = reported s -> generatedArticles s' = generatedArticles s ->
  completedCount s' = completedCount s ->
  (aborted s' = false -> aborted s = false) ->
  core_inv cfg s -> core_inv cfg s'.
Proof.
  intros Hq Hc Hw Hr Hg Hcc Hab [].
  constructor; rewrite ?Hq, ?Hc, ?Hw, ?Hr, ?Hg, ?Hcc; eauto.
Qed.

Lemma loop_head_workers cfg i s :
  exists pc', workers (loop_head cfg i s) = <[i:=pc']> (workers s).
Proof.
  destruct (loop_head_effect cfg i s) as [?|? ? ?|? ? s' ? ? ? Hadv]; simpl; eauto.
  destruct (advances_workers _ _ _ _ Hadv) as (pc' & _ & Hw). eauto.
Qed.

Lemma foldl_loop_head cfg (Q : nat -> State -> Prop) (p : nat) :
  (forall s' k, k < p -> Q k s' -> workers s' !! k = Some NotStarted ->
                Q (S k) (loop_head cfg k s')) ->
  forall n k s0,
    k + n = p -> Q k s0 ->
    (forall j, k <= j < p -> workers s0 !! j = Some NotStarted) ->
    Q p (foldl (fun s i => loop_head cfg i s) s0 (seq k n)).
Proof.
  intros Hstep. induction n as [|n IH]; intros k s0 Hk H0 Hall; simpl.
  - by replace p with k by lia.
  - apply IH.
    + lia.
    + apply Hstep; [lia|done|]. apply Hall. lia.
    + intros j Hj. destruct (loop_head_workers cfg k s0) as (pc' & ->).
      rewrite list_lookup_insert_ne by lia. apply Hall. lia.
Qed.

(** Induction over the spawning of the workers: [Q k] holds once the first
    [k] workers have run to their first [await]. *)
Lemma spawn_ind_indexed cfg (Q : nat -> State -> Prop) s :
  Q 0 (set_workers (replicate (pool_size cfg) NotStarted) (set_main AwaitWorkers s)) ->
  (forall s' k, k < pool_size cfg -> Q k s' -> workers s' !! k = Some NotStarted ->
                Q (S k) (loop_head cfg k s')) ->
  Q (pool_size cfg) (spawn cfg s).
Proof.
  intros H0 Hstep. unfold spawn.
  apply (foldl_loop_head cfg Q (pool_size cfg) Hstep); [done|done|].
  intros j Hj. simpl. apply lookup_replicate. split; [done|lia].
Qed.

Lemma spawn_ind cfg (Q : State -> Prop) s :
  Q (set_workers (replicate (pool_size cfg) NotStarted) (set_main AwaitWorkers s)) ->
  (forall s' i, Q s' -> workers s' !! i = Some NotStarted -> Q (loop_head cfg i s')) ->
  Q (spawn cfg s).
Proof.
  intros H0 Hstep. apply (spawn_ind_indexed cfg (fun _ => Q)); eauto.
Qed.

Lemma core_spawn cfg s :
  core_inv cfg s -> workers s = [] -> core_inv cfg (spawn cfg s).
Proof.
  intros Hinv Hw. apply spawn_ind.
  - destruct Hinv. rewrite Hw in *. simpl in *.
    assert (Hh : forall n, held (replicate n NotStarted) = []).
    { induction n; [done|]. simpl. done. }
    constructor; simpl; rewrite ?Hh; simpl; try done.
    + intros j pc t Hj. apply lookup_replicate in Hj as [-> _]. done.
    + intros Hv Hab j Hj. apply lookup_replicate in Hj as [? _]. done.
  - intros s' i H Hi. by eapply core_loop_head.
Qed.

(** ** What a worker's turn leaves alone *)

Lemma same_control_refl s : same_control s s.
Proof. by repeat split. Qed.

Lemma same_control_trans s1 s2 s3 :
  same_control s1 s2 -> same_control s2 s3 -> same_control s1 s3.
Proof. unfold same_control. intros (?&?&?&?&?&?&?) (?&?&?&?&?&?&?). repeat split; congruence. Qed.

Lemma advances_control i t s s' : advances i t s s' -> same_control s s'.
Proof. intros H. frame H. by repeat split. Qed.

Lemma loop_head_frame cfg i s :
  same_control s (loop_head cfg i s) /\
  exists pc', pc' <> NotStarted /\ workers (loop_head cfg i s) = <[i:=pc']> (workers s).
Proof.
  destruct (loop_head_effect cfg i s) as [?|? ? ?|? ? s' ? ? ? Hadv].
  - split; [by repeat split|]. by exists Returned.
  - split; [by repeat split|]. by exists Returned.
  - split.
    + pose proof (advances_control _ _ _ _ Hadv) as Hc.
      unfold same_control in *. simpl in Hc. done.
    + destruct (advances_workers _ _ _ _ Hadv) as (pc' & Ht & Hw).
      exists pc'. split; [|done]. by intros ->.
Qed.

Lemma worker_effect_frame cfg i t s s' :
  worker_effect cfg i t s s' ->
  same_control s s' /\
  exists pc', pc' <> NotStarted /\ workers s' = <[i:=pc']> (workers s).
Proof.
  intros [s1 Hadv|a Ha|Hab].
  - split; [by eapply advances_control|].
    destruct (advances_workers _ _ _ _ Hadv) as (pc' & Ht & Hw).
    exists pc'. split; [|done]. by intros ->.
  - set (s1 := finally_block _).
    destruct (loop_head_frame cfg i s1) as (Hc & pc' & Hne & Hw).
    split; [|by exists pc'].
    eapply same_control_trans; [|done]. by repeat split.
  - split; [by repeat split|]. by exists Returned.
Qed.

(** ** The phases of the handler *)

Lemma phase_spawn cfg s :
  topics cfg <> [] -> error s = None -> phase_inv cfg (spawn cfg s).
Proof.
  intros Hne He.
  pose (Q := fun (k : nat) (s' : State) =>
    main s' = AwaitWorkers /\ error s' = None /\
    length (workers s') = pool_size cfg /\
    forall j pc, j < k -> workers s' !! j = Some pc -> pc <> NotStarted).
  assert (HQ : Q (pool_size cfg) (spawn cfg s)).
  { apply spawn_ind_indexed.
    - repeat split; simpl; [done|by rewrite length_replicate|]. intros; lia.
    - intros s' k Hk (Hm & Her & Hl & Hst) Hi.
      destruct (loop_head_frame cfg k s') as ((Hm' & _ & _ & _ & _ & _ & He') & pc' & Hpc & Hw).
      repeat split; [congruence|congruence|by rewrite Hw, length_insert|].
      intros j pc Hj Hjl. rewrite Hw in Hjl.
      apply list_lookup_insert_Some in Hjl as [(_ & -> & _)|(Hjk & Hjl)]; [done|].
      apply (Hst j); [lia|done]. }
  destruct HQ as (Hm & Her & Hl & Hst).
  constructor; try congruence.
  - intros _. split; [done|]. apply Forall_lookup. intros j pc Hj.
    apply (Hst j pc); [|done]. rewrite <- Hl. by eapply lookup_lt_Some.
Qed.

(** ** The invariant of a run *)

Lemma before_spawn_core cfg s : before_spawn cfg s -> core_inv cfg s.
Proof.
  intros (Hw & Hq & Hc & Hcc & Hg & Hr & He & Hne).
  constructor; rewrite ?Hw, ?Hq, ?Hc, ?Hcc, ?Hg, ?Hr; simpl; try done; try lia.
  constructor.
Qed.

Lemma before_spawn_phase cfg s :
  before_spawn cfg s -> main s <> AwaitWorkers -> main s <> Settled -> phase_inv cfg s.
Proof.
  intros (Hw & Hq & Hc & Hcc & Hg & Hr & He & Hne) H1 H2.
  constructor; try done. by intros [|].
Qed.

Lemma inv_spawn cfg s : before_spawn cfg s -> inv cfg (spawn cfg s).
Proof.
  intros Hb. split.
  - apply core_spawn; [by apply before_spawn_core|apply Hb].
  - apply phase_spawn; apply Hb.
Qed.

Lemma inv_prescan_stage cfg s : before_spawn cfg s -> inv cfg (prescan_stage cfg s).
Proof.
  intros Hb. unfold prescan_stage.
  destruct (_ && _); [|by apply inv_spawn].
  destruct (_ && _).
  { split; [by apply before_spawn_core|by apply before_spawn_phase]. }
  destruct (_ || _); [|by apply inv_spawn].
  split; [by apply before_spawn_core|by apply before_spawn_phase].
Qed.

Lemma inv_start cfg : inv cfg (handleGenerate cfg).
Proof.
  unfold handleGenerate, bulk_branch.
  destruct (topics cfg) as [|t ts] eqn:Ht.
  - split.
    + constructor; simpl; rewrite ?Ht; try done. constructor.
    + constructor; simpl; try done.
      intros _. unfold pool_size. by rewrite Ht.
  - set (s0 := mkState _ _ _ _ _ _ _ _ _ _ _ _ _ _ _ _).
    assert (Hb : before_spawn cfg s0) by (repeat split; simpl; by rewrite ?Ht).
    unfold brand_stage. destruct (_ && _).
    + split; [by apply before_spawn_core|by apply before_spawn_phase].
    + by apply inv_prescan_stage.
Qed.

Lemma inv_main_resume cfg r s s' :
  inv cfg s -> main_resume cfg r s = Some s' -> inv cfg s'.
Proof.
  intros [Hc Hp] Hs. unfold main_resume in Hs.
  assert (Hb : main s <> AwaitWorkers -> main s <> Settled -> before_spawn cfg s).
  { intros H1 H2. destruct (ph_before _ _ Hp H1 H2) as (?&?&?&?&?&?&?).
    repeat split; try done. by apply (ph_error _ _ Hp). }
  destruct (main s) eqn:Hm; try done;
    (specialize (Hb ltac:(done) ltac:(done)));
    destruct r as [|[]| | | | |]; try done; injection Hs as <-.
  - split; [by apply before_spawn_core|by apply before_spawn_phase].
  - by apply inv_prescan_stage.
  - by apply inv_prescan_stage.
  - by apply inv_prescan_stage.
  - by apply inv_prescan_stage.
  - by apply inv_spawn.
  - by apply inv_spawn.
Qed.

Lemma inv_worker_resume cfg i pc r s :
  inv cfg s -> workers s !! i = Some pc -> may_settle s pc r = true ->
  inv cfg (worker_resume cfg i pc r s).
Proof.
  intros [Hc Hp] Hi Hok.
  destruct (worker_resume_effect cfg i pc r s Hok) as (t & Ht & Heff).
  split.
  - destruct Heff as [s1 Hadv|a Ha|Hab].
    + by eapply core_advance.
    + rewrite <- (loop_head_set_pc cfg i NotStarted).
      eapply (core_loop_head _ _ NotStarted); [by eapply core_report| |done].
      simpl. apply list_lookup_insert_eq. by eapply lookup_lt_Some.
    + by eapply core_abort.
  - destruct (worker_effect_frame _ _ _ _ _ Heff)
      as ((Hm & Hab & Hr & _ & _ & _ & He) & pc' & Hne & Hw).
    destruct Hp. constructor; rewrite ?Hm, ?Hab, ?Hr, ?He, ?Hw; try done.
    + intros H1 H2. destruct (ph_before0 H1 H2) as (Hnil & _).
      by rewrite Hnil in Hi.
    + intros H. destruct (ph_pool0 H) as [Hl Hf]. split.
      * by rewrite length_insert.
      * by apply Forall_insert.
    + intros H. specialize (ph_settled0 H).
      rewrite Forall_lookup in ph_settled0. apply ph_settled0 in Hi as ->.
      by destruct r.
Qed.

Lemma inv_step cfg s ev s' : inv cfg s -> step cfg s ev = Some s' -> inv cfg s'.
Proof.
  intros Hinv Hs. destruct ev as [r|i r| |]; simpl in Hs.
  - by eapply inv_main_resume.
  - destruct (workers s !! i) as [pc|] eqn:Hi; [|done].
    destruct (may_settle s pc r) eqn:Hok; [|done].
    injection Hs as <-. by apply inv_worker_resume.
  - destruct (main s) eqn:Hm; try done.
    destruct (forallb is_Returned (workers s)) eqn:Hall; [|done].
    injection Hs as <-. destruct Hinv as [Hc Hp]. split.
    + eapply core_inv_same; [..|exact Hc]; unfold outer_finally;
        by destruct (refLive s).
    + destruct Hp. unfold outer_finally.
      assert (Hret : Forall (fun pc => pc = Returned) (workers s)).
      { rewrite forallb_forall in Hall. apply Forall_forall. intros x Hx.
        apply list_elem_of_In, Hall in Hx. by destruct x. }
      destruct (refLive s) eqn:Hr; constructor; simpl; auto.
  - injection Hs as <-. destruct Hinv as [Hc Hp]. split.
    + eapply core_inv_same; [..|exact Hc]; unfold handleStopGeneration;
        destruct (refLive s); try done.
    + unfold handleStopGeneration.
      destruct (refLive s) eqn:Hr; [|done].
      destruct Hp. constructor; simpl; auto.
      intros H. destruct (ph_empty0 H). congruence.
Qed.

(** The invariant holds throughout every run. *)
Lemma reachable_inv cfg s : reachable cfg s -> inv cfg s.
Proof.
  apply reachable_ind; [apply inv_start|].
  intros s1 ev s2 _ H Hs. by eapply inv_step.
Qed.

(** ** How claims and reports evolve *)

Lemma ledger_refl s : ledger s s.
Proof. repeat split; auto. Qed.

Lemma ledger_trans s1 s2 s3 : ledger s1 s2 -> ledger s2 s3 -> ledger s1 s3.
Proof.
  intros (H1 & H2 & H3 & H4) (H1' & H2' & H3' & H4'). repeat split.
  - lia.
  - intros k Hk. destruct (H2' k Hk) as [Hk'|]; [|right; lia].
    destruct (H2 k Hk'); [by left|by right].
  - lia.
  - by destruct (H4 H) as (Ha & _); destruct (H4' Ha).
  - destruct (H4 H) as (Ha & Hc & Hq). destruct (H4' Ha) as (_ & Hc' & _). congruence.
  - destruct (H4 H) as (Ha & Hc & Hq). destruct (H4' Ha) as (_ & _ & Hq'). congruence.
Qed.

Lemma ledger_same s s' :
  claims s' = claims s -> workers s' = workers s -> reported s' = reported s ->
  generatedArticles s' = generatedArticles s -> completedCount s' = completedCount s ->
  queue s' = queue s -> (aborted s = true -> aborted s' = true) ->
  ledger s s'.
Proof.
  intros Hc Hw Hr Hg Hcc Hq Ha. unfold ledger. rewrite Hc, Hw, Hr, Hg, Hcc, Hq.
  repeat split; auto.
Qed.

Lemma ledger_advance i pc t s s' :
  workers s !! i = Some pc -> task_of pc = Some t -> advances i t s s' -> ledger s s'.
Proof.
  intros Hi Ht Hadv. frame Hadv.
  destruct (advances_workers _ _ _ _ Hadv) as (pc' & Ht' & Hw).
  destruct (held_insert _ _ _ Hi) as (rest & Hh & Hh').
  assert (Heq : held (workers s') ≡ₚ held (workers s)).
  { rewrite Hw, Hh, Hh'. unfold held_by. by rewrite Ht, Ht'. }
  unfold ledger. rewrite ?Hfcl, ?Hfrep, ?Hfga, ?Hfcc, ?Hfab, ?Hfq. repeat split; auto.
  intros k Hk. rewrite Heq in Hk. by left.
Qed.

Lemma ledger_report i pc t a s :
  workers s !! i = Some pc -> task_of pc = Some t ->
  ledger s (set_pc i NotStarted (finally_block (setGeneratedArticles (task_index t) a s))).
Proof.
  intros Hi Ht.
  destruct (held_insert _ _ _ Hi) as (rest & Hh & Hh').
  unfold held_by in Hh. rewrite Ht in Hh. simpl in Hh.
  unfold ledger. simpl. repeat split; auto.
  - intros k Hk. left. rewrite Hh' in Hk. rewrite Hh. simpl in *.
    rewrite !elem_of_app in Hk. rewrite elem_of_cons, elem_of_app.
    rewrite elem_of_cons, elem_of_nil in Hk. tauto.
  - rewrite length_app. simpl. lia.
Qed.

Lemma ledger_abort i pc t s :
  workers s !! i = Some pc -> task_of pc = Some t ->
  ledger s (set_pc i Returned (finally_block s)).
Proof.
  intros Hi Ht.
  destruct (held_insert _ _ _ Hi) as (rest & Hh & Hh').
  unfold held_by in Hh. rewrite Ht in Hh. simpl in Hh.
  unfold ledger. simpl. repeat split; auto; try lia.
  intros k Hk. left. rewrite Hh' in Hk. rewrite Hh. simpl in *.
  by apply elem_of_cons; right.
Qed.

Lemma ledger_loop_head cfg i pc s :
  workers s !! i = Some pc -> task_of pc = None -> ledger s (loop_head cfg i s).
Proof.
  intros Hi Ht.
  destruct (held_insert _ _ _ Hi) as (rest & Hh & Hh').
  unfold held_by in Hh. rewrite Ht in Hh. simpl in Hh.
  destruct (loop_head_effect cfg i s) as [Hex|tl Hq Ha|topic tl s' Hq Hne Ha Hadv].
  - unfold ledger. simpl. repeat split; auto.
    intros k Hk. left. rewrite Hh' in Hk. by rewrite Hh.
  - unfold ledger. simpl. rewrite length_app. simpl.
    repeat split; auto; try lia; try congruence.
    intros k Hk. left. rewrite Hh' in Hk. by rewrite Hh.
  - frame Hadv.
    destruct (advances_workers _ _ _ _ Hadv) as (pc' & Ht' & Hw). simpl in Hw.
    unfold ledger. rewrite ?Hfcl, ?Hfrep, ?Hfga, ?Hfcc, ?Hfab, ?Hfq, ?length_app.
    simpl. repeat split; auto; try lia; try congruence.
    intros k Hk. rewrite Hw, Hh' in Hk. unfold held_by in Hk. rewrite Ht' in Hk.
    simpl in Hk. apply elem_of_cons in Hk as [->|Hk]; [right; lia|left; by rewrite Hh].
Qed.

Lemma ledger_spawn cfg s : workers s = [] -> ledger s (spawn cfg s).
Proof.
  intros Hw. apply (spawn_ind cfg (ledger s)).
  - unfold ledger. simpl. rewrite Hw.
    assert (Hh : forall n, held (replicate n NotStarted) = []) by (by induction n).
    repeat split; auto. intros k Hk. rewrite Hh in Hk. by left.
  - intros s' i Hl Hi. eapply ledger_trans; [done|]. by eapply ledger_loop_head.
Qed.

Lemma ledger_step cfg s ev s' : inv cfg s -> step cfg s ev = Some s' -> ledger s s'.
Proof.
  intros [Hc Hp] Hs. destruct ev as [r|i r| |]; simpl in Hs.
  - unfold main_resume in Hs.
    assert (Hw : main s <> AwaitWorkers -> main s <> Settled -> workers s = []).
    { intros H1 H2. by destruct (ph_before _ _ Hp H1 H2) as (?&_). }
    assert (Hpre : forall s0, workers s0 = [] -> ledger s0 (prescan_stage cfg s0)).
    { intros s0 H0. unfold prescan_stage.
      repeat (match goal with |- context [if ?b then _ else _] => destruct b end);
        first [by apply ledger_spawn | by apply ledger_same]. }
    destruct (main s) eqn:Hm; try done;
      (specialize (Hw ltac:(done) ltac:(done)));
      destruct r as [|[]| | | | |]; try done; injection Hs as <-.
    + by apply ledger_same.
    + by apply Hpre.
    + by apply Hpre.
    + eapply ledger_trans; [|by apply Hpre]. by apply ledger_same.
    + by apply Hpre.
    + eapply ledger_trans; [|by apply ledger_spawn]. by apply ledger_same.
    + by apply ledger_spawn.
  - destruct (workers s !! i) as [pc|] eqn:Hi; [|done].
    destruct (may_settle s pc r) eqn:Hok; [|done].
    injection Hs as <-.
    destruct (worker_resume_effect cfg i pc r s Hok) as (t & Ht & Heff).
    destruct Heff as [s1 Hadv|a Ha|Hab].
    + by eapply ledger_advance.
    + rewrite <- (loop_head_set_pc cfg i NotStarted).
      eapply ledger_trans; [by eapply ledger_report|].
      eapply (ledger_loop_head _ _ NotStarted); [|done].
      simpl. apply list_lookup_insert_eq. by eapply lookup_lt_Some.
    + by eapply ledger_abort.
  - destruct (main s); try done. destruct (forallb _ _); [|done].
    injection Hs as <-. unfold outer_finally.
    destruct (refLive s); by apply ledger_same.
  - injection Hs as <-. unfold handleStopGeneration.
    destruct (refLive s); by apply ledger_same.
Qed.

Lemma ledger_run cfg s evs s' :
  reachable cfg s -> run cfg s evs = Some s' -> ledger s s'.
Proof.
  revert s. induction evs as [|ev evs IH]; intros s Hr Hrun; simpl in Hrun.
  - injection Hrun as <-. apply ledger_refl.
  - destruct (step cfg s ev) as [s1|] eqn:Hs; [|done].
    eapply ledger_trans.
    + eapply ledger_step; [by apply reachable_inv|done].
    + apply IH; [by eapply reachable_step|done].
Qed.

(** ** Every run can be brought to its end *)

Lemma sum_rank_insert (ws : list WorkerPc) i pc pc' :
  ws !! i = Some pc ->
  sum_list (rank <$> <[i:=pc']> ws) + rank pc = sum_list (rank <$> ws) + rank pc'.
Proof.
  revert i. induction ws as [|w ws IH]; intros [|i] Hi; simpl in *; try done.
  - injection Hi as ->. lia.
  - specialize (IH i Hi). unfold fmap in *. lia.
Qed.

Lemma suspends_le k k' i s s' : k <= k' -> suspends k i s s' -> suspends k' i s s'.
Proof. intros Hk (pc' & H & ?). exists pc'. split; [lia|done]. Qed.

Lemma generation_phase_rank cfg i t l s : suspends 1 i s (generation_phase cfg i t l s).
Proof. by exists (AwaitGenerate t l). Qed.

Lemma external_stage_rank cfg i t l s : suspends 2 i s (external_stage cfg i t l s).
Proof.
  unfold external_stage. destruct (ArticleConfig.enableExternalLinks cfg).
  - by exists (AwaitExternalLinks t l).
  - eapply suspends_le; [|apply generation_phase_rank]. lia.
Qed.

Lemma link_stage_rank cfg i t l s : suspends 3 i s (link_stage cfg i t l s).
Proof.
  assert (He : forall l', suspends 3 i s (external_stage cfg i t l' s)).
  { intros l'. eapply suspends_le; [|apply external_stage_rank]. lia. }
  unfold link_stage.
  destruct (truthy _); [|done].
  destruct (cachedInternalLinks s); [|done].
  destruct (_ && _); [by exists (AwaitInternalLinks t l)|].
  destruct (_ || _); [by exists (AwaitInternalLinks t l)|done].
Qed.

Lemma enter_try_rank cfg i t s : suspends 5 i s (enter_try cfg i t s).
Proof.
  unfold enter_try. destruct (ArticleConfig.autoOptimize cfg).
  - by eexists (AwaitPrimaryKeywords _ t _).
  - eapply suspends_le; [|apply generation_phase_rank]. lia.
Qed.

Lemma suspends_measure k i pc s s' :
  workers s !! i = Some pc -> suspends k i s s' -> measure s' + rank pc <= measure s + k.
Proof.
  intros Hi (pc' & Hk & Hw & Hq). unfold measure. rewrite Hw, Hq.
  pose proof (sum_rank_insert _ _ _ pc' Hi). lia.
Qed.

Lemma loop_head_measure cfg i pc s :
  workers s !! i = Some pc -> measure (loop_head cfg i s) + rank pc <= measure s.
Proof.
  intros Hi. unfold loop_head.
  destruct (queue s) as [|topic rest] eqn:Hq.
  { unfold measure. simpl. rewrite Hq.
    pose proof (sum_rank_insert _ _ _ Returned Hi). simpl in *. lia. }
  destruct (aborted s).
  { unfold measure. simpl. rewrite Hq.
    pose proof (sum_rank_insert _ _ _ Returned Hi). simpl in *. lia. }
  destruct (_ =? _)%string.
  { unfold measure. simpl. rewrite Hq.
    pose proof (sum_rank_insert _ _ _ Returned Hi). simpl in *. lia. }
  set (t := mkTask _ _). set (s2 := setActiveTasks _ _).
  assert (Hi2 : workers s2 !! i = Some pc) by done.
  assert (Hm : measure s2 + 7 = measure s).
  { unfold measure. simpl. rewrite Hq. simpl. lia. }
  destruct (isDeepSeekWebMode cfg).
  - assert (Hs : suspends 6 i s2 (set_pc i (AwaitDelay t) s2)) by (by exists (AwaitDelay t)).
    pose proof (suspends_measure _ _ _ _ _ Hi2 Hs). lia.
  - pose proof (suspends_measure _ _ _ _ _ Hi2 (enter_try_rank cfg i t s2)). lia.
Qed.

(** Every turn of a worker brings the end of the run closer. *)
Lemma worker_turn_decreases cfg i r s s' :
  step cfg s (WorkerResume i r) = Some s' -> measure s' < measure s.
Proof.
  simpl. destruct (workers s !! i) as [pc|] eqn:Hi; [|done].
  destruct (may_settle s pc r) eqn:Hok; [|done]. intros [= <-].
  assert (Hfin : forall s1, workers s1 = workers s -> queue s1 = queue s ->
                 rank pc = 1 -> measure (loop_head cfg i s1) < measure s).
  { intros s1 Hw Hq Hr. 
    assert (Hi1 : workers s1 !! i = Some pc) by (by rewrite Hw).
    pose proof (loop_head_measure cfg i pc s1 Hi1) as H.
    assert (measure s1 = measure s) by (unfold measure; by rewrite Hw, Hq).
    lia. }
  destruct pc as [|t|ds t l|ds t l|t l|t l|t l|]; try done.
  - pose proof (suspends_measure _ _ _ _ _ Hi (enter_try_rank cfg i t s)).
    simpl in *. destruct r; simpl in *; lia.
  - destruct r; try done; simpl.
    + assert (Hs : suspends 4 i s
        (await_call i t (nlp_call ds (task_topic t)) (AwaitNLPKeywords ds t (with_primary l kws)) s))
        by (by eexists (AwaitNLPKeywords _ _ _)).
      pose proof (suspends_measure _ _ _ _ _ Hi Hs). simpl in *. lia.
    + pose proof (suspends_measure _ _ _ _ _ Hi (link_stage_rank cfg i t l s)).
      simpl in *. lia.
  - destruct r; try done; simpl.
    + pose proof (suspends_measure _ _ _ _ _ Hi (link_stage_rank cfg i t (with_nlp l kws) s)).
      simpl in *. lia.
    + pose proof (suspends_measure _ _ _ _ _ Hi (link_stage_rank cfg i t l s)).
      simpl in *. lia.
  - destruct r; try done; simpl.
    + pose proof (suspends_measure _ _ _ _ _ Hi
                    (external_stage_rank cfg i t (with_internal l (take 3 links)) s)).
      simpl in *. lia.
    + pose proof (suspends_measure _ _ _ _ _ Hi (external_stage_rank cfg i t l s)).
      simpl in *. lia.
  - destruct r; try done; simpl.
    + pose proof (suspends_measure _ _ _ _ _ Hi
                    (generation_phase_rank cfg i t (with_external l (take 5 links)) s)).
      simpl in *. lia.
    + pose proof (suspends_measure _ _ _ _ _ Hi (generation_phase_rank cfg i t l s)).
      simpl in *. lia.
  - destruct r; try done; simpl.
    + by apply Hfin.
    + destruct (is_AbortError e).
      * unfold measure. simpl.
        pose proof (sum_rank_insert _ _ _ Returned Hi). simpl in *. lia.
      * by apply Hfin.
Qed.

Lemma forallb_false_lookup {A} (f : A -> bool) (l : list A) :
  forallb f l = false -> exists i x, l !! i = Some x /\ f x = false.
Proof.
  induction l as [|y l IH]; simpl; [done|].
  destruct (f y) eqn:Hy; simpl.
  - intros H. destruct (IH H) as (i & x & Hi & Hx). by exists (S i), x.
  - intros _. by exists 0, y.
Qed.

Lemma spawn_control cfg s :
  main (spawn cfg s) = AwaitWorkers /\ aborted (spawn cfg s) = aborted s.
Proof.
  apply (spawn_ind cfg (fun s' => main s' = AwaitWorkers /\ aborted s' = aborted s)).
  - done.
  - intros s' i [Hm Ha] _.
    destruct (loop_head_frame cfg i s') as ((Hm' & Ha' & _) & _). split; congruence.
Qed.

(** Once the workers run, answering each pending call brings the run to
    its end. *)
Lemma workers_can_settle cfg n : forall s,
  measure s <= n -> reachable cfg s -> main s = AwaitWorkers ->
  exists evs s', run cfg s evs = Some s' /\ main s' = Settled /\ aborted s' = aborted s.
Proof.
  induction n as [n IH] using lt_wf_ind. intros s Hn Hr Hm.
  destruct (forallb is_Returned (workers s)) eqn:Hall.
  - exists [Join], (outer_finally s). simpl. rewrite Hm, Hall. split; [done|].
    unfold outer_finally. by destruct (refLive s).
  - apply forallb_false_lookup in Hall as (i & pc & Hi & Hpc).
    destruct (reachable_inv _ _ Hr) as [_ Hp].
    destruct (ph_pool _ _ Hp (or_introl Hm)) as [_ Hns].
    rewrite Forall_lookup in Hns. specialize (Hns _ _ Hi).
    assert (Hok : may_settle s pc (some_response pc) = true) by (by destruct pc).
    assert (Hs : step cfg s (WorkerResume i (some_response pc))
                 = Some (worker_resume cfg i pc (some_response pc) s)).
    { simpl. by rewrite Hi, Hok. }
    set (s1 := worker_resume _ _ _ _ _) in *.
    pose proof (worker_turn_decreases _ _ _ _ _ Hs) as Hlt.
    destruct (worker_resume_effect cfg i pc _ s Hok) as (t & _ & Heff).
    destruct (worker_effect_frame _ _ _ _ _ Heff) as ((Hm1 & Ha1 & _) & _).
    destruct (IH (measure s1) ltac:(lia) s1 ltac:(lia)) as (evs & s' & Hrun & Hm' & Ha').
    + by eapply reachable_step.
    + fold s1 in Hm1. congruence.
    + exists (WorkerResume i (some_response pc) :: evs), s'.
      split; [|split; [done|]].
      * change (run cfg s (?e :: ?es)) with
          (match step cfg s e with Some s' => run cfg s' es | None => None end).
        by rewrite Hs.
      * fold s1 in Ha1. congruence.
Qed.

(** From every state of a run there is a way to the end of the run that
    involves no cancellation. *)
Lemma run_can_settle cfg s :
  reachable cfg s ->
  exists evs s', run cfg s evs = Some s' /\ main s' = Settled /\ aborted s' = aborted s.
Proof.
  intros Hr.
  assert (Hw : forall s0, reachable cfg s0 -> main s0 = AwaitWorkers ->
    exists evs s', run cfg s0 evs = Some s' /\ main s' = Settled /\ aborted s' = aborted s0).
  { intros s0 H0 Hm. by apply (workers_can_settle cfg (measure s0)). }
  assert (Hcons : forall s0 ev s1, reachable cfg s0 -> step cfg s0 ev = Some s1 ->
    aborted s1 = aborted s0 ->
    (exists evs s', run cfg s1 evs = Some s' /\ main s' = Settled /\ aborted s' = aborted s1) ->
    exists evs s', run cfg s0 evs = Some s' /\ main s' = Settled /\ aborted s' = aborted s0).
  { intros s0 ev s1 H0 Hs Ha (evs & s' & Hrun & Hm & Ha').
    exists (ev :: evs), s'. simpl. rewrite Hs. split; [done|]. split; [done|congruence]. }
  assert (Hsp : forall s0 ev s1, reachable cfg s0 -> step cfg s0 ev = Some s1 ->
    s1 = spawn cfg s0 ->
    exists evs s', run cfg s0 evs = Some s' /\ main s' = Settled /\ aborted s' = aborted s0).
  { intros s0 ev s1 H0 Hs ->. destruct (spawn_control cfg s0) as [Hm Ha].
    eapply Hcons; [done..|]. apply Hw; [by eapply reachable_step|done]. }
  assert (Hps : forall s0, reachable cfg s0 -> main s0 = AwaitPrescan ->
    exists evs s', run cfg s0 evs = Some s' /\ main s' = Settled /\ aborted s' = aborted s0).
  { intros s0 H0 Hm. apply (Hsp s0 (MainResume (Rejected (JsError.mk "Error" "")))
                              (spawn cfg s0)); [done| |done].
    simpl. unfold main_resume. by rewrite Hm. }
  assert (Hpre : forall s0 ev, reachable cfg s0 ->
    step cfg s0 ev = Some (prescan_stage cfg s0) ->
    exists evs s', run cfg s0 evs = Some s' /\ main s' = Settled /\ aborted s' = aborted s0).
  { intros s0 ev H0 Hs.
    pose proof (reachable_step _ _ _ _ H0 Hs) as H1.
    revert Hs H1. unfold prescan_stage.
    destruct (spawn_control cfg s0) as [Hm Ha].
    repeat (match goal with |- context [if ?b then _ else _] => destruct b end);
      intros Hs H1;
      first [ by eapply Hsp
            | eapply Hcons; [done..|]; by apply Hps ]. }
  destruct (main s) eqn:Hm.
  - apply (Hpre s (MainResume (Resolved_import false))); [done|].
    simpl. unfold main_resume. by rewrite Hm.
  - apply (Hpre s (MainResume (Rejected (JsError.mk "Error" "")))); [done|].
    simpl. unfold main_resume. by rewrite Hm.
  - by apply Hps.
  - by apply Hw.
  - by exists [], s.
Qed.

(** ** What the call log may contain *)

Lemma generation_phase_emits cfg i t l s :
  pc_ok cfg s (AwaitGenerate t l) -> emits cfg i t s (generation_phase cfg i t l s).
Proof.
  intros Hl. eexists _, (AwaitGenerate t l). split; [done|]. split; [done|]. split; [done|].
  unfold generateWithFallback. destruct (AIProvider.eqb _ _); simpl; eauto.
Qed.

Lemma external_stage_emits cfg i t l s :
  pc_ok cfg s (AwaitExternalLinks t l) -> emits cfg i t s (external_stage cfg i t l s).
Proof.
  intros [Ha Hl]. unfold external_stage.
  destruct (ArticleConfig.enableExternalLinks cfg).
  - eexists _, (AwaitExternalLinks t l). split; [done|]. split; [done|]. split; [done|].
    by destruct (_ && _).
  - apply generation_phase_emits. simpl. auto.
Qed.

Lemma link_stage_emits cfg i t l s :
  ArticleConfig.autoOptimize cfg = true -> topicInternalLinks l = default_internal cfg ->
  emits cfg i t s (link_stage cfg i t l s).
Proof.
  intros Ha Hl. unfold link_stage.
  destruct (truthy _) eqn:Hu.
  2:{ apply external_stage_emits. simpl. split; [done|congruence]. }
  destruct (cachedInternalLinks s) as [|x xs] eqn:Hc.
  - destruct (_ && _).
    { eexists _, (AwaitInternalLinks t l). by repeat split. }
    destruct (_ || _).
    { eexists _, (AwaitInternalLinks t l). by repeat split. }
    apply external_stage_emits. simpl. by rewrite Hc.
  - apply external_stage_emits. simpl. by rewrite Hc.
Qed.

Lemma enter_try_emits cfg i t s : emits cfg i t s (enter_try cfg i t s).
Proof.
  unfold enter_try. destruct (ArticleConfig.autoOptimize cfg) eqn:Ha.
  - eexists _, (AwaitPrimaryKeywords _ t _). split; [done|]. split; [done|].
    split; [done|]. unfold primary_call. by destruct (deepSeekKeywords cfg).
  - apply generation_phase_emits. simpl. by rewrite Ha.
Qed.

(** A turn that does not end the iteration initiates one call of the
    kinds above. *)
Lemma worker_resume_emits cfg i pc r s :
  pc_ok cfg s pc -> may_settle s pc r = true ->
  (forall t l, pc <> AwaitGenerate t l) ->
  exists t, task_of pc = Some t /\ emits cfg i t s (worker_resume cfg i pc r s).
Proof.
  intros Hpc Hok Hng.
  destruct pc as [|t|ds t l|ds t l|t l|t l|t l|]; try done; exists t; (split; [done|]).
  - apply enter_try_emits.
  - destruct Hpc as [Ha Hl]. destruct r; try done; simpl.
    + eexists _, (AwaitNLPKeywords ds t _). split; [done|]. split; [done|].
      split; [done|]. unfold nlp_call. by destruct ds.
    + by apply link_stage_emits.
  - destruct Hpc as [Ha Hl]. destruct r; try done; simpl; by apply link_stage_emits.
  - destruct Hpc as (Ha & Hu & Hc & Hl).
    destruct r; try done; simpl; apply external_stage_emits; simpl; by rewrite Hc.
  - destruct Hpc as (Ha & Hl).
    destruct r; try done; simpl; apply generation_phase_emits; simpl; auto.
  - by destruct (Hng t l).
Qed.

Lemma pc_ok_ext cfg s s' pc :
  cachedInternalLinks s' = cachedInternalLinks s -> pc_ok cfg s pc -> pc_ok cfg s' pc.
Proof. intros Hc. destruct pc; simpl; by rewrite ?Hc. Qed.

Lemma wcall_ok_ext cfg s s' c :
  cachedInternalLinks s' = cachedInternalLinks s ->
  cachedBrandResearch s' = cachedBrandResearch s ->
  wcall_ok cfg s c -> wcall_ok cfg s' c.
Proof.
  intros Hc Hb. unfold wcall_ok, singleConfig. by rewrite ?Hc, ?Hb.
Qed.

Lemma worker_issue_ext cfg s s' c :
  cachedInternalLinks s' = cachedInternalLinks s ->
  cachedBrandResearch s' = cachedBrandResearch s ->
  (forall x, x ∈ claims s -> x ∈ claims s') ->
  worker_issue cfg s c -> worker_issue cfg s' c.
Proof.
  intros Hc Hb Hcl (i & k & H1 & H2 & H3 & H4).
  exists i, k. repeat split; auto. by eapply wcall_ok_ext.
Qed.

(** One worker changes its slot, possibly after new claims and with new
    calls of its own. *)
Lemma calls_inv_update cfg s s' i pc' new :
  calls_inv cfg s -> main s = AwaitWorkers -> main s' = AwaitWorkers ->
  cachedInternalLinks s' = cachedInternalLinks s ->
  cachedBrandResearch s' = cachedBrandResearch s ->
  (forall x, x ∈ claims s -> x ∈ claims s') ->
  workers s' = <[i:=pc']> (workers s) ->
  pc_ok cfg s pc' ->
  (forall t, task_of pc' = Some t -> (i, task_index t) ∈ claims s') ->
  calls s' = calls s ++ new ->
  Forall (worker_issue cfg s') new ->
  calls_inv cfg s'.
Proof.
  intros [Hpc Hown (bs & ss & ws & Hlog)] Hm Hm' Hc Hb Hcl Hw Hok Ht Hcalls Hnew.
  constructor.
  - intros j pc Hj. rewrite Hw in Hj.
    apply lookup_insert_cases in Hj as [->|Hj]; eapply pc_ok_ext; eauto.
  - intros j pc t Hj Htk. rewrite Hw in Hj.
    apply list_lookup_insert_Some in Hj as [(-> & -> & _)|(_ & Hj)]; eauto.
  - exists bs, ss, (ws ++ new). destruct Hlog. constructor; try done.
    + by rewrite Hcalls, log_split0, <- !app_assoc.
    + apply Forall_app. split; [|done].
      eapply Forall_impl; [done|]. intros c. by apply worker_issue_ext.
    + rewrite Hm', Hc. by rewrite Hm in log_phase0.
Qed.

Lemma calls_inv_emits cfg s s' i pc t :
  calls_inv cfg s -> main s = AwaitWorkers ->
  workers s !! i = Some pc -> (i, task_index t) ∈ claims s ->
  emits cfg i t s s' -> calls_inv cfg s'.
Proof.
  intros Hinv Hm Hi Hcl (c & pc' & -> & Ht & Hpc & Hc).
  eapply (calls_inv_update cfg s _ i pc' [_]); try done.
  - intros t0 Ht0. simpl. by assert (t0 = t) as -> by congruence.
  - constructor; [|done]. exists i, (task_index t). by repeat split.
Qed.

Lemma calls_inv_loop_head cfg s i pc :
  calls_inv cfg s -> main s = AwaitWorkers -> workers s !! i = Some pc ->
  calls_inv cfg (loop_head cfg i s).
Proof.
  intros Hinv Hm Hi. unfold loop_head.
  assert (Hquiet : forall s', main s' = AwaitWorkers ->
            cachedInternalLinks s' = cachedInternalLinks s ->
            cachedBrandResearch s' = cachedBrandResearch s ->
            (forall x, x ∈ claims s -> x ∈ claims s') ->
            workers s' = <[i:=Returned]> (workers s) -> calls s' = calls s ->
            calls_inv cfg s').
  { intros s' ? ? ? ? ? Hcs.
    eapply (calls_inv_update cfg s s' i Returned []); try done.
    by rewrite app_nil_r. }
  destruct (queue s) as [|topic rest] eqn:Hq; [by apply Hquiet|].
  destruct (aborted s); [by apply Hquiet|].
  destruct (_ =? _)%string.
  { apply Hquiet; try done. simpl. intros x Hx. apply elem_of_app. by left. }
  set (t := mkTask _ _). set (s2 := setActiveTasks _ _).
  assert (Hcl : (i, task_index t) ∈ claims s2).
  { simpl. apply elem_of_app. right. by apply list_elem_of_singleton. }
  assert (H2 : calls_inv cfg s2).
  { eapply (calls_inv_update cfg s s2 i pc []); try done.
    - simpl. intros x Hx. apply elem_of_app. by left.
    - simpl. by rewrite list_insert_id.
    - destruct Hinv. eauto.
    - intros t0 Ht0. simpl. apply elem_of_app. left. destruct Hinv. eauto.
    - by rewrite app_nil_r. }
  destruct (isDeepSeekWebMode cfg).
  - eapply (calls_inv_update cfg s2 _ i (AwaitDelay t) []); try done.
    + simpl. intros t0 [= <-]. done.
    + simpl. by rewrite app_nil_r.
  - eapply calls_inv_emits; [done|done|done|done|apply enter_try_emits].
Qed.

Lemma calls_inv_spawn cfg s bs ss :
  calls s = bs ++ ss ->
  Forall (is_brand_issue cfg) bs -> Forall (is_prescan_issue cfg) ss ->
  length bs <= 1 -> length ss <= 1 ->
  (cachedInternalLinks s <> [] ->
   length ss = 1 /\ ArticleConfig.autoOptimize cfg = true /\
   truthy (ArticleConfig.websiteUrl cfg) = true) ->
  calls_inv cfg (spawn cfg s).
Proof.
  intros Hcalls Hbs Hss Hlb Hls Hcache.
  apply (spawn_ind cfg (fun s' => calls_inv cfg s' /\ main s' = AwaitWorkers)).
  - split; [|done]. constructor; simpl.
    + intros i pc Hi. by apply lookup_replicate in Hi as [-> _].
    + intros i pc t Hi. by apply lookup_replicate in Hi as [-> _].
    + exists bs, ss, []. constructor; simpl; try done. by rewrite app_nil_r.
  - intros s' i [Hinv Hm] Hi. split.
    + by eapply calls_inv_loop_head.
    + destruct (loop_head_frame cfg i s') as ((Hm' & _) & _). congruence.
Qed.

Lemma calls_inv_prescan_stage cfg s bs :
  calls s = bs -> Forall (is_brand_issue cfg) bs -> length bs <= 1 ->
  cachedInternalLinks s = [] -> workers s = [] ->
  calls_inv cfg (prescan_stage cfg s).
Proof.
  intros Hcalls Hbs Hlb Hc Hw. unfold prescan_stage.
  assert (Hsp : calls_inv cfg (spawn cfg s)).
  { apply (calls_inv_spawn cfg s bs []); try done; [by rewrite app_nil_r|simpl; lia]. }
  assert (Hscan : forall c,
    is_prescan_issue cfg (mkIssued None None (aborted s) c) ->
    truthy (ArticleConfig.websiteUrl cfg) && ArticleConfig.autoOptimize cfg = true ->
    calls_inv cfg (set_main AwaitPrescan (issue None None c s))).
  { intros c Hissue Hcond. apply andb_prop in Hcond as [Hu Ha]. constructor; simpl.
    - intros i pc Hi. by rewrite Hw in Hi.
    - intros i pc t Hi. by rewrite Hw in Hi.
    - exists bs, [mkIssued None None (aborted s) c], [].
      constructor; simpl; try done.
      + by rewrite Hcalls.
      + by constructor. }
  destruct (truthy _ && _) eqn:Hcond; [|done].
  destruct (AIProvider.eqb _ _ && is_provider _ _).
  { apply Hscan; [|done]. repeat split. by left. }
  destruct (AIProvider.eqb _ _ || is_provider _ _); [|done].
  apply Hscan; [|done]. repeat split. by right.
Qed.

Lemma calls_inv_start cfg : calls_inv cfg (handleGenerate cfg).
Proof.
  unfold handleGenerate, bulk_branch.
  destruct (topics cfg) as [|t ts] eqn:Ht.
  - constructor; simpl; try done.
    exists [], [], []. constructor; simpl; try done; lia.
  - set (s0 := mkState _ _ _ _ _ _ _ _ _ _ _ _ _ _ _ _).
    unfold brand_stage. destruct (_ && _).
    + constructor; simpl; try done.
      exists [], [], []. constructor; simpl; try done; lia.
    + apply (calls_inv_prescan_stage cfg s0 []); try done. simpl. lia.
Qed.

Lemma calls_inv_same cfg s s' :
  main s' = main s \/ (main s = AwaitWorkers /\ main s' = Settled) ->
  workers s' = workers s -> calls s' = calls s -> claims s' = claims s ->
  cachedInternalLinks s' = cachedInternalLinks s ->
  cachedBrandResearch s' = cachedBrandResearch s ->
  calls_inv cfg s -> calls_inv cfg s'.
Proof.
  intros Hm Hw Hcalls Hcl Hc Hb [Hpc Hown (bs & ss & ws & Hlog)]. constructor.
  - intros i pc Hi. rewrite Hw in Hi. eapply pc_ok_ext; eauto.
  - intros i pc t Hi Ht. rewrite Hw in Hi. rewrite Hcl. eauto.
  - exists bs, ss, ws. destruct Hlog. constructor; try done.
    + congruence.
    + eapply Forall_impl; [done|]. intros c. apply worker_issue_ext; try done.
      intros x. by rewrite Hcl.
    + rewrite Hc. destruct Hm as [->|[Hm ->]]; [done|]. by rewrite Hm in log_phase0.
Qed.

Lemma worker_turn_phase cfg s i pc r :
  inv cfg s -> workers s !! i = Some pc -> may_settle s pc r = true ->
  main s = AwaitWorkers.
Proof.
  intros [_ Hp] Hi Hok. destruct (main s) eqn:Hm; try done.
  - destruct (ph_before _ _ Hp) as (Hw & _); [congruence..|]. by rewrite Hw in Hi.
  - destruct (ph_before _ _ Hp) as (Hw & _); [congruence..|]. by rewrite Hw in Hi.
  - destruct (ph_before _ _ Hp) as (Hw & _); [congruence..|]. by rewrite Hw in Hi.
  - pose proof (ph_settled _ _ Hp Hm) as Hall.
    rewrite Forall_lookup in Hall. apply Hall in Hi as ->. by destruct r.
Qed.

Lemma calls_inv_step cfg s ev s' :
  inv cfg s -> calls_inv cfg s -> step cfg s ev = Some s' -> calls_inv cfg s'.
Proof.
  intros Hinv Hci Hs. destruct ev as [r|i r| |]; simpl in Hs.
  - unfold main_resume in Hs. destruct Hinv as [_ Hp].
    assert (Hw : main s <> AwaitWorkers -> main s <> Settled -> workers s = []).
    { intros H1 H2. by destruct (ph_before _ _ Hp H1 H2) as (?&_). }
    destruct Hci as [_ _ (bs & ss & ws & Hlog)]. destruct Hlog.
    destruct (main s) eqn:Hm; try done;
      (specialize (Hw ltac:(done) ltac:(done)));
      destruct r as [|[]| | | | |]; try done; injection Hs as <-.
    + destruct log_phase0 as (-> & -> & -> & Hc). constructor; simpl.
      * intros i pc Hi. by rewrite Hw in Hi.
      * intros i pc t Hi. by rewrite Hw in Hi.
      * eexists [_], [], []. constructor; simpl; try done.
        -- by rewrite log_split0.
        -- by repeat constructor.
    + destruct log_phase0 as (-> & -> & -> & Hc).
      by apply (calls_inv_prescan_stage cfg s []).
    + destruct log_phase0 as (-> & -> & -> & Hc).
      by apply (calls_inv_prescan_stage cfg s []).
    + destruct log_phase0 as (-> & -> & Hc).
      apply (calls_inv_prescan_stage cfg _ bs); try done.
      simpl. by rewrite log_split0, !app_nil_r.
    + destruct log_phase0 as (-> & -> & Hc).
      apply (calls_inv_prescan_stage cfg _ bs); try done.
      by rewrite log_split0, !app_nil_r.
    + destruct log_phase0 as (Hl & -> & Hc & Ha & Hu).
      apply (calls_inv_spawn cfg _ bs ss); try done.
      simpl. by rewrite log_split0, !app_nil_r.
    + destruct log_phase0 as (Hl & -> & Hc & Ha & Hu).
      apply (calls_inv_spawn cfg _ bs ss); try done.
      by rewrite log_split0, !app_nil_r.
  - destruct (workers s !! i) as [pc|] eqn:Hi; [|done].
    destruct (may_settle s pc r) eqn:Hok; [|done].
    injection Hs as <-.
    pose proof (worker_turn_phase _ _ _ _ _ Hinv Hi Hok) as Hm.
    assert (Hrep : forall a t, task_of pc = Some t ->
      calls_inv cfg (loop_head cfg i (finally_block (setGeneratedArticles (task_index t) a s)))).
    { intros a t Ht. eapply (calls_inv_loop_head _ _ _ pc); [|done|done].
      eapply calls_inv_same; [..|exact Hci]; try done. by left. }
    destruct pc as [|t|ds t l|ds t l|t l|t l|t l|] eqn:Hpc; try done.
    1-5: edestruct (worker_resume_emits cfg i pc r s) as (t' & Ht' & Hem);
      [subst pc; by eapply (ci_pc _ _ Hci)|by subst pc|by subst pc|];
      subst pc; injection Ht' as <-;
      (eapply calls_inv_emits; [done|done|done| |done]);
      by eapply (ci_owner _ _ Hci).
    destruct r as [| | | | |content sources|e]; try done; simpl.
    + by apply Hrep.
    + destruct (is_AbortError e); [|by apply Hrep].
      eapply (calls_inv_update cfg s _ i Returned []); try done.
      simpl. by rewrite app_nil_r.
  - destruct (main s) eqn:Hm; try done. destruct (forallb _ _); [|done].
    injection Hs as <-. eapply calls_inv_same; [..|exact Hci];
      unfold outer_finally; destruct (refLive s); simpl; auto.
  - injection Hs as <-. eapply calls_inv_same; [..|exact Hci];
      unfold handleStopGeneration; destruct (refLive s); simpl; auto.
Qed.

(** The description of the log holds throughout every run. *)
Lemma reachable_calls_inv cfg s : reachable cfg s -> calls_inv cfg s.
Proof.
  apply reachable_ind; [apply calls_inv_start|].
  intros s1 ev s2 Hr H Hs. eapply calls_inv_step; [by apply reachable_inv|done..].
Qed.

(** ** Consequences for finished runs *)

Lemma held_all_returned ws : Forall (fun pc => pc = Returned) ws -> held ws = [].
Proof. induction 1 as [|pc ws -> _ IH]; [done|]. simpl. done. Qed.

Lemma valid_pool_size cfg : valid cfg -> 0 < pool_size cfg.
Proof.
  intros [Hne _]. unfold pool_size, CONCURRENCY_LIMIT.
  destruct (topics cfg); [done|]. destruct (isDeepSeekWebMode cfg); simpl; lia.
Qed.

(** A run that ends without cancellation has claimed and reported every
    topic. *)
Lemma exact_entries cfg s :
  valid cfg -> reachable cfg s -> main s = Settled -> aborted s = false ->
  length (generatedArticles s) = length (topics cfg) /\
  reported s ≡ₚ seq 0 (length (topics cfg)).
Proof.
  intros Hv Hr Hm Hab. destruct (reachable_inv _ _ Hr) as [Hc Hp].
  pose proof (ph_settled _ _ Hp Hm) as Hall.
  destruct (ph_pool _ _ Hp (or_intror Hm)) as [Hlen _].
  pose proof (valid_pool_size _ Hv) as Hpos.
  destruct (workers s) as [|pc ws] eqn:Hw; [simpl in Hlen; lia|].
  assert (pc = Returned) as -> by (by apply Forall_cons in Hall as [? _]).
  assert (Hq : queue s = []).
  { apply (inv_idle _ _ Hc Hv Hab 0). by rewrite Hw. }
  destruct Hc. rewrite Hw in *.
  rewrite (held_all_returned _ Hall) in *. simpl in *.
  rewrite Hq in inv_queue0. symmetry in inv_queue0. apply drop_nil_inv in inv_queue0.
  destruct (inv_exact0 Hv Hab) as [H1 H2].
  assert (Hn : length (generatedArticles s) = length (topics cfg)) by lia.
  split; [done|].
  apply submseteq_length_Permutation.
  - apply NoDup_submseteq; [done|]. intros k Hk. apply elem_of_seq.
    rewrite Forall_forall in inv_bound0. apply inv_bound0 in Hk. lia.
  - rewrite length_seq. lia.
Qed.

Lemma at_most_entries cfg s :
  reachable cfg s -> length (generatedArticles s) <= length (claims s) /\
                     length (claims s) <= length (topics cfg).
Proof.
  intros Hr. destruct (reachable_inv _ _ Hr) as [[] _]. lia.
Qed.

Lemma start_not_aborted cfg : aborted (handleGenerate cfg) = false.
Proof.
  unfold handleGenerate, bulk_branch. destruct (topics cfg); [done|].
  set (s0 := mkState _ _ _ _ _ _ _ _ _ _ _ _ _ _ _ _).
  assert (Hp : aborted (prescan_stage cfg s0) = false).
  { unfold prescan_stage.
    repeat (match goal with |- context [if ?b then _ else _] => destruct b end);
      try done; by destruct (spawn_control cfg s0) as [_ ->]. }
  unfold brand_stage. by destruct (_ && _).
Qed.

(** A position that was claimed and is neither held nor reported stays
    unreported for the rest of the run. *)
Lemma released_never_reported cfg s evs s' k :
  reachable cfg s -> run cfg s evs = Some s' ->
  k < length (claims s) -> k ∉ held (workers s) -> k ∉ reported s ->
  k ∉ reported s'.
Proof.
  intros Hr Hrun Hk Hh Hrep Hin.
  destruct (ledger_run _ _ _ _ Hr Hrun) as (_ & Hl & _).
  destruct (Hl k) as [H|H].
  - apply elem_of_app. by right.
  - apply elem_of_app in H as [?|?]; done.
  - lia.
Qed.

Lemma abort_releases cfg s i pc t :
  inv cfg s -> workers s !! i = Some pc -> task_of pc = Some t ->
  task_index t < length (claims s) /\
  (task_index t ∉ held (<[i:=Returned]> (workers s))) /\
  (task_index t ∉ reported s).
Proof.
  intros [[] _] Hi Ht.
  destruct (held_insert _ _ _ Hi) as (rest & Hh & Hh').
  unfold held_by in Hh. rewrite Ht in Hh. simpl in Hh.
  rewrite Hh in inv_nodup0, inv_bound0. simpl in *.
  apply NoDup_cons in inv_nodup0 as [Hnin _].
  apply Forall_cons in inv_bound0 as [Hlt _].
  split; [done|]. rewrite Hh'. simpl. split; intros Hin; apply Hnin, elem_of_app; auto.
Qed.

(** ** A valid concrete batch *)

Lemma valid_plain_AB : valid (plain_batch ["A"; "B"]).
Proof. split; [done|]. by repeat constructor. Qed.


(** * The claims *)

(** ** C6 *)

(** C6.  The worker-pool limit is fixed by the configuration's provider
    and research flags alone: it is 1 exactly for DeepSeek with deep
    research or real-time data and 5 otherwise.  From the moment the
    handler has spawned them to the end of the run the pool holds
    [min(#topics, limit)] workers, and each of them has been started:
    none is left at [NotStarted]. *)
Theorem concurrency_policy (cfg : ArticleConfig.t) :
  (CONCURRENCY_LIMIT cfg = 1 <->
   ArticleConfig.provider cfg = AIProvider.DEEPSEEK /\
   (ArticleConfig.deepResearch cfg = true \/ ArticleConfig.realTimeData cfg = true)) /\
  (CONCURRENCY_LIMIT cfg = 1 \/ CONCURRENCY_LIMIT cfg = 5) /\
  (forall s, reachable cfg s -> main s = AwaitWorkers \/ main s = Settled ->
             length (workers s) = Nat.min (length (topics cfg)) (CONCURRENCY_LIMIT cfg) /\
             Forall (fun pc => pc <> NotStarted) (workers s)).
Proof.
  split; [|split].
  - unfold CONCURRENCY_LIMIT, isDeepSeekWebMode.
    destruct (ArticleConfig.provider cfg), (ArticleConfig.deepResearch cfg),
      (ArticleConfig.realTimeData cfg); simpl; intuition congruence.
  - unfold CONCURRENCY_LIMIT. destruct (isDeepSeekWebMode cfg); auto.
  - intros s Hr Hm. destruct (reachable_inv _ _ Hr) as [_ Hp].
    exact (ph_pool _ _ Hp Hm).
Qed.

Lemma concurrency_policy_witness :
  reachable (plain_batch ["A"; "B"]) started_AB /\
  (main started_AB = AwaitWorkers \/ main started_AB = Settled) /\
  workers started_AB
  = [AwaitGenerate (mkTask 0 "A") (initial_locals (plain_batch ["A"; "B"]));
     AwaitGenerate (mkTask 1 "B") (initial_locals (plain_batch ["A"; "B"]))] /\
  length (workers started_AB) = 2 /\
  Forall (fun pc => pc <> NotStarted) (workers started_AB).
Proof.
  assert (Hr : reachable (plain_batch ["A"; "B"]) started_AB)
    by (exists []; vm_compute; reflexivity).
  split; [exact Hr|]. split; [left; reflexivity|]. split; [reflexivity|].
  exact (proj2 (proj2 (concurrency_policy (plain_batch ["A"; "B"]))) _ Hr
           (or_introl eq_refl)).
Defined.

(** ** C1 *)

(** C1, as stated, fails.  DeepSeek with real-time data (one worker, a
    two-second pause before each topic) and no API key, so that
    [generateArticleDeepSeek] throws its "API Key is missing" error before
    any request: "A" fails, the user cancels during the pause before "B",
    the worker carries on and "B" fails as well; the cancelled run has all
    two entries. *)
Lemma cancelled_run_keeps_all_entries :
  let cfg := web_batch ["A"; "B"] in
  let evs := [WorkerResume 0 Resolved_timer; WorkerResume 0 (Rejected key_missing);
              Stop;
              WorkerResume 0 Resolved_timer; WorkerResume 0 (Rejected key_missing);
              Join] in
  valid cfg /\
  exists s, run cfg (handleGenerate cfg) evs = Some s /\
            main s = Settled /\ aborted s = true /\
            ~ length (generatedArticles s) < length (topics cfg).
Proof.
  split; [split; [done|by repeat constructor]|].
  eexists. split; [vm_compute; reflexivity|]. simpl. repeat split; lia.
Qed.

(** C1, amended.  A valid batch of N topics whose run ends without
    cancellation has exactly N entries, and such a run exists.  A run
    never has more than N entries, and a cancelled run has fewer than N
    exactly when a topic was left in the queue or an iteration ended
    without a report (its generation call aborted). *)
Theorem bulk_run_entries (cfg : ArticleConfig.t) (s : State) :
  valid cfg -> reachable cfg s -> main s = Settled ->
  (aborted s = false -> length (generatedArticles s) = length (topics cfg)) /\
  length (generatedArticles s) <= length (topics cfg) /\
  (aborted s = true ->
   (length (generatedArticles s) < length (topics cfg) <->
    queue s <> [] \/ length (generatedArticles s) < completedCount s)) /\
  (exists evs s', run cfg (handleGenerate cfg) evs = Some s' /\
                  main s' = Settled /\ aborted s' = false).
Proof.
  intros Hv Hr Hm. split; [|split; [|split]].
  - intros Hab. by destruct (exact_entries cfg s).
  - destruct (at_most_entries cfg s Hr). lia.
  - intros Hab. destruct (reachable_inv _ _ Hr) as [[] Hp]. split.
    + intros Hlt. destruct (queue s) as [|q qs] eqn:Hq; [|by left]. right.
      symmetry in inv_queue0. apply drop_nil_inv in inv_queue0.
      specialize (inv_balance0 Hv).
      rewrite (held_all_returned _ (ph_settled _ _ Hp Hm)) in inv_balance0.
      simpl in inv_balance0. lia.
    + intros [Hq|Hlt]; [|lia].
      assert (length (claims s) < length (topics cfg)); [|lia].
      destruct (decide (length (claims s) < length (topics cfg))) as [|Hge]; [done|].
      destruct Hq. rewrite inv_queue0. apply drop_ge. lia.
  - destruct (run_can_settle cfg _ (reachable_start cfg)) as (evs & s' & H1 & H2 & H3).
    exists evs, s'. rewrite start_not_aborted in H3. done.
Qed.

Lemma bulk_run_entries_witness :
  valid (plain_batch ["A"; "B"]) /\ reachable (plain_batch ["A"; "B"]) finished_AB /\
  main finished_AB = Settled /\
  length (generatedArticles finished_AB) = 2.
Proof.
  assert (Hr : reachable (plain_batch ["A"; "B"]) finished_AB).
  { exists [WorkerResume 1 (Resolved_article "B article" []);
            WorkerResume 0 (Rejected (JsError.mk "Error" "quota")); Join].
    vm_compute. reflexivity. }
  split; [apply valid_plain_AB|]. split; [exact Hr|]. split; [reflexivity|].
  exact (proj1 (bulk_run_entries _ finished_AB valid_plain_AB Hr eq_refl) eq_refl).
Defined.

(** ** C2 *)

(** C2, as stated, fails for cancelled runs: the only topic is claimed by
    worker 0, the user cancels, the generation call aborts, and the run
    ends with the topic claimed and no entry for it. *)
Lemma claimed_topic_without_entry :
  let cfg := plain_batch ["A"] in
  exists s, run cfg (handleGenerate cfg) [Stop; WorkerResume 0 (Rejected AbortError); Join]
            = Some s /\
            main s = Settled /\ claims s = [(0, 0)] /\ generatedArticles s = [].
Proof. eexists. split; [vm_compute; reflexivity|]. done. Qed.

(** C2, amended.  No queue position is claimed twice, no two workers hold
    the same position, every call a worker makes is for a position that
    worker claimed, and the entries are for distinct claimed positions and
    carry the topic of their position: at most one entry per claimed
    topic.  When a valid batch ends without cancellation the entries are
    for exactly the N positions. *)
Theorem atomic_pop (cfg : ArticleConfig.t) (s : State) :
  reachable cfg s ->
  (claims s).*2 = seq 0 (length (claims s)) /\
  NoDup (claims s).*2 /\
  NoDup (held (workers s)) /\
  (forall c i, c ∈ calls s -> by_worker c = Some i ->
               exists k, for_task c = Some k /\ (i, k) ∈ claims s) /\
  NoDup (reported s) /\
  (forall k, k ∈ reported s -> k < length (claims s)) /\
  Forall2 (fun k a => topics cfg !! k = Some (GeneratedArticle.title a))
    (reported s) (generatedArticles s) /\
  pool_size cfg <= length (topics cfg) /\
  (valid cfg -> main s = Settled -> aborted s = false ->
   reported s ≡ₚ seq 0 (length (topics cfg))).
Proof.
  intros Hr. destruct (reachable_inv _ _ Hr) as [Hc Hp].
  pose proof (reachable_calls_inv _ _ Hr) as [_ _ (bs & ss & ws & Hlog)].
  destruct Hc. apply NoDup_app in inv_nodup0 as (Hh & _ & Hrep).
  apply Forall_app in inv_bound0 as [_ Hb].
  repeat split; try done.
  - rewrite inv_claims0. apply NoDup_seq.
  - intros c i Hin Hw. destruct Hlog. rewrite log_split0 in Hin.
    rewrite !elem_of_app in Hin. destruct Hin as [Hin|[Hin|Hin]].
    + rewrite Forall_forall in log_brand0. destruct (log_brand0 _ Hin). congruence.
    + rewrite Forall_forall in log_prescan0. destruct (log_prescan0 _ Hin). congruence.
    + rewrite Forall_forall in log_workers0.
      destruct (log_workers0 _ Hin) as (i' & k & H1 & H2 & H3 & _).
      exists k. split; [done|]. congruence.
  - by rewrite Forall_forall in Hb.
  - unfold pool_size. lia.
  - intros Hv Hm Hab. by destruct (exact_entries cfg s).
Qed.

Lemma atomic_pop_witness :
  reachable (plain_batch ["A"; "B"]) finished_AB /\ valid (plain_batch ["A"; "B"]) /\
  main finished_AB = Settled /\ aborted finished_AB = false /\
  reported finished_AB ≡ₚ [0; 1].
Proof.
  assert (Hr : reachable (plain_batch ["A"; "B"]) finished_AB).
  { exists [WorkerResume 1 (Resolved_article "B article" []);
            WorkerResume 0 (Rejected (JsError.mk "Error" "quota")); Join].
    vm_compute. reflexivity. }
  split; [exact Hr|]. split; [apply valid_plain_AB|]. split; [reflexivity|].
  split; [reflexivity|].
  destruct (atomic_pop _ finished_AB Hr) as (_ & _ & _ & _ & _ & _ & _ & _ & H).
  exact (H valid_plain_AB eq_refl eq_refl).
Defined.

(** ** C3 *)

Lemma worker_turn_siblings cfg s i pc r :
  workers s !! i = Some pc -> may_settle s pc r = true ->
  let s' := worker_resume cfg i pc r s in
  main s' = main s /\ error s' = error s /\ aborted s' = aborted s /\
  (forall j, j <> i -> workers s' !! j = workers s !! j).
Proof.
  intros Hi Hok s'.
  destruct (worker_resume_effect cfg i pc r s Hok) as (t & _ & Heff).
  destruct (worker_effect_frame _ _ _ _ _ Heff)
    as ((Hm & Hab & _ & _ & _ & _ & He) & pc' & _ & Hw).
  repeat split; try done. intros j Hj. subst s'. rewrite Hw.
  by apply list_lookup_insert_ne.
Qed.

(** C3, as stated, fails in three places.  A provider error in the keyword
    stage is swallowed: the first keyword call of "A" is rejected, the
    article is generated all the same, and the run ends with one
    ['completed'] entry and no ['failed'] one.  The content of a
    ['failed'] entry is not the error message but the message behind a
    prefix.  And the error for an empty topic list, thrown in the bulk
    branch, does not leave [handleGenerate]: the handler's own [catch]
    turns it into the error state and the handler settles. *)
Lemma provider_error_without_failed_entry :
  (valid (tavily_batch ["A"]) /\
   run (tavily_batch ["A"]) (handleGenerate (tavily_batch ["A"]))
     [MainResume (Resolved_links four_links);
      WorkerResume 0 (Rejected overloaded);
      WorkerResume 0 (Resolved_article "A article" []);
      Join]
   = Some keywords_failed_A /\
   main keywords_failed_A = Settled /\ aborted keywords_failed_A = false /\
   GeneratedArticle.status <$> generatedArticles keywords_failed_A
   = [GeneratedArticle.completed]) /\
  (exists s' a,
     step (plain_batch ["A"; "B"]) started_AB
       (WorkerResume 0 (Rejected (JsError.mk "Error" "quota"))) = Some s' /\
     generatedArticles s' = [a] /\
     GeneratedArticle.status a = GeneratedArticle.failed /\
     GeneratedArticle.content a <> JsError.message (JsError.mk "Error" "quota")) /\
  (bulk_branch (plain_batch []) = inl no_topics /\
   main (handleGenerate (plain_batch [])) = Settled /\
   isGenerating (handleGenerate (plain_batch [])) = false /\
   error (handleGenerate (plain_batch []))
   = Some "No topics provided for bulk generation").
Proof.
  split; [|split].
  - split; [split; [done|by repeat constructor]|].
    split; [vm_compute; reflexivity|]. done.
  - eexists _, _. split; [vm_compute; reflexivity|]. done.
  - done.
Qed.

(** C3, amended.  The bulk branch throws only for an empty topic list, and
    the handler's own [catch] turns that error into the message it shows:
    the handler settles with the loading state off, having called nothing
    and appended nothing.  With topics, no state of the run carries an
    error.  A generation call that rejects with anything but an abort
    appends a ['failed'] entry whose content is the error message behind
    the prefix ["Error generating content: "], leaves the other workers
    where they are, and the worker goes on to claim the next queued topic.
    A rejection in the keyword or link stage is swallowed: it appends
    nothing and keeps the worker on its topic.  Whatever fails, a valid
    batch that ends without cancellation has an entry for every topic. *)
Theorem error_policy (cfg : ArticleConfig.t) :
  (forall e, bulk_branch cfg = inl e <-> topics cfg = [] /\ e = no_topics) /\
  (topics cfg = [] ->
   handleGenerate cfg
   = mkState Settled false false [] 0 None [] [] [] (mkProgress 0 0) 0 false
       (Some "No topics provided for bulk generation") [] [] []) /\
  (topics cfg <> [] -> forall s, reachable cfg s -> error s = None) /\
  (forall s i t l e,
     reachable cfg s -> workers s !! i = Some (AwaitGenerate t l) ->
     is_AbortError e = false ->
     exists s',
       step cfg s (WorkerResume i (Rejected e)) = Some s' /\
       generatedArticles s' =
         generatedArticles s ++
         [GeneratedArticle.mk (task_topic t)
            ("Error generating content: " +:+ JsError.message e)
            None GeneratedArticle.failed None] /\
       main s' = main s /\ error s' = error s /\
       (forall j, j <> i -> workers s' !! j = workers s !! j) /\
       (forall topic rest,
          queue s = topic :: rest -> topic <> ""%string -> aborted s = false ->
          exists pc', workers s' !! i = Some pc' /\
                      task_of pc' = Some (mkTask (length (claims s)) topic))) /\
  (forall s i pc e,
     reachable cfg s -> workers s !! i = Some pc ->
     (forall t l, pc <> AwaitGenerate t l) -> may_settle s pc (Rejected e) = true ->
     exists s' t pc',
       step cfg s (WorkerResume i (Rejected e)) = Some s' /\
       generatedArticles s' = generatedArticles s /\ error s' = error s /\
       task_of pc = Some t /\ workers s' !! i = Some pc' /\ task_of pc' = Some t) /\
  (valid cfg -> forall s,
     reachable cfg s -> main s = Settled -> aborted s = false ->
     length (generatedArticles s) = length (topics cfg)).
Proof.
  repeat apply conj.
  - intros e. unfold bulk_branch. destruct (topics cfg); split; try done.
    + by intros [= <-].
    + by intros [_ ->].
    + by intros [? _].
  - intros Ht. unfold handleGenerate, bulk_branch. by rewrite Ht.
  - intros Hne s Hr. destruct (reachable_inv _ _ Hr) as [_ Hp]. by apply (ph_error _ _ Hp).
  - intros s i t l e Hr Hi He.
    assert (Hok : may_settle s (AwaitGenerate t l) (Rejected e) = true)
      by (simpl; by rewrite He).
    destruct (worker_turn_siblings cfg s i _ _ Hi Hok) as (Hm & Her & _ & Hsib).
    eexists. split; [simpl; by rewrite Hi, Hok|].
    simpl in *. rewrite He in *.
    set (s1 := finally_block _) in *.
    destruct (loop_head_effect cfg i s1) as [Hex|tl Hq Ha|topic tl s' Hq Hne Ha Hadv].
    + repeat split; try done. intros topic rest Hq Hne Ha.
      destruct Hex as [Hex|Hex]; simpl in Hex; congruence.
    + repeat split; try done. intros topic rest Hq' Hne Ha'.
      simpl in Hq. congruence.
    + frame Hadv. repeat split; try done.
      intros topic' rest Hq' Hne' Ha'. simpl in Hq.
      assert (topic' = topic) as -> by congruence.
      destruct (advances_workers _ _ _ _ Hadv) as (pc' & Ht' & Hw).
      exists pc'. split; [|done]. rewrite Hw. simpl.
      apply list_lookup_insert_eq. by eapply lookup_lt_Some.
  - intros s i pc e Hr Hi Hng Hok.
    destruct (worker_turn_siblings cfg s i _ _ Hi Hok) as (_ & Her & _ & _).
    pose proof (reachable_calls_inv _ _ Hr) as Hci.
    destruct (worker_resume_emits cfg i pc (Rejected e) s (ci_pc _ _ Hci _ _ Hi) Hok Hng)
      as (t & Ht & c & pc' & Heq & Ht' & _).
    exists (worker_resume cfg i pc (Rejected e) s), t, pc'.
    split; [simpl; by rewrite Hi, Hok|].
    rewrite Heq in *. repeat split; try done.
    simpl. apply list_lookup_insert_eq. by eapply lookup_lt_Some.
  - intros Hv s Hr Hm Hab. by destruct (exact_entries cfg s).
Qed.

Lemma error_policy_witness :
  reachable (plain_batch ["A"; "B"]) started_AB /\
  workers started_AB !! 0 =
    Some (AwaitGenerate (mkTask 0 "A") (initial_locals (plain_batch ["A"; "B"]))) /\
  is_AbortError (JsError.mk "Error" "quota") = false /\
  exists s',
    step (plain_batch ["A"; "B"]) started_AB
      (WorkerResume 0 (Rejected (JsError.mk "Error" "quota"))) = Some s' /\
    generatedArticles s' =
      [GeneratedArticle.mk "A" "Error generating content: quota" None
         GeneratedArticle.failed None].
Proof.
  assert (Hr : reachable (plain_batch ["A"; "B"]) started_AB)
    by (exists []; vm_compute; reflexivity).
  split; [exact Hr|]. split; [reflexivity|]. split; [reflexivity|].
  destruct (error_policy (plain_batch ["A"; "B"])) as (_ & _ & _ & H & _).
  destruct (H started_AB 0 (mkTask 0 "A") (initial_locals (plain_batch ["A"; "B"]))
              (JsError.mk "Error" "quota") Hr eq_refl eq_refl)
    as (s' & Hs & Hg & _).
  exists s'. split; [exact Hs|exact Hg].
Defined.

(** ** C4 *)

(** C4.  When the run is cancelled and a generation call in flight rejects
    with an [AbortError], the worker's turn appends no entry, and no later
    turn of the run reports the topic's queue position: the topic has no
    entry, ['failed'] or other.  ([reported] lists the queue positions of
    the entries, in order.) *)
Theorem aborted_generation_not_reported
    (cfg : ArticleConfig.t) (s : State) (i : nat) (t : Task) (l : Locals) (e : JsError.t) :
  reachable cfg s -> workers s !! i = Some (AwaitGenerate t l) ->
  aborted s = true -> is_AbortError e = true ->
  exists s1,
    step cfg s (WorkerResume i (Rejected e)) = Some s1 /\
    generatedArticles s1 = generatedArticles s /\
    forall evs s2,
      run cfg s1 evs = Some s2 ->
      (task_index t ∉ reported s2) /\
      Forall2 (fun k a => topics cfg !! k = Some (GeneratedArticle.title a))
        (reported s2) (generatedArticles s2).
Proof.
  intros Hr Hi Hab He.
  assert (Hs : step cfg s (WorkerResume i (Rejected e))
               = Some (set_pc i Returned (finally_block s))).
  { simpl. rewrite Hi. simpl. by rewrite He, Hab. }
  exists (set_pc i Returned (finally_block s)). split; [done|]. split; [done|].
  intros evs s2 Hrun.
  pose proof (reachable_step _ _ _ _ Hr Hs) as Hr1.
  destruct (abort_releases cfg s i _ t (reachable_inv _ _ Hr) Hi eq_refl)
    as (Hlt & Hh & Hrep).
  split.
  - by eapply (released_never_reported cfg _ evs s2).
  - by destruct (reachable_inv _ _ (reachable_run _ _ _ _ Hr1 Hrun)) as [[] _].
Qed.

Lemma aborted_generation_not_reported_witness :
  reachable (plain_batch ["A"]) cancelled_A /\
  workers cancelled_A !! 0 =
    Some (AwaitGenerate (mkTask 0 "A") (initial_locals (plain_batch ["A"]))) /\
  aborted cancelled_A = true /\ is_AbortError AbortError = true /\
  exists s1,
    step (plain_batch ["A"]) cancelled_A (WorkerResume 0 (Rejected AbortError)) = Some s1 /\
    generatedArticles s1 = [].
Proof.
  assert (Hr : reachable (plain_batch ["A"]) cancelled_A)
    by (exists [Stop]; vm_compute; reflexivity).
  split; [exact Hr|]. split; [reflexivity|]. split; [reflexivity|]. split; [reflexivity|].
  destruct (aborted_generation_not_reported (plain_batch ["A"]) cancelled_A 0
              (mkTask 0 "A") (initial_locals (plain_batch ["A"])) AbortError
              Hr eq_refl eq_refl eq_refl) as (s1 & Hs & Hg & _).
  exists s1. split; [exact Hs|exact Hg].
Defined.

(** ** C10 *)

(** C10.  The turn in which a worker returns on an aborted generation call
    appends no entry but runs the [finally]: the completed count goes up
    by one and is written to the progress, the active-worker count goes
    down by one, and the worker has returned.  From then on until the end
    of the run the completed count exceeds the number of entries. *)
Theorem abort_still_counts
    (cfg : ArticleConfig.t) (s : State) (i : nat) (t : Task) (l : Locals) (e : JsError.t) :
  reachable cfg s -> workers s !! i = Some (AwaitGenerate t l) ->
  aborted s = true -> is_AbortError e = true ->
  exists s1,
    step cfg s (WorkerResume i (Rejected e)) = Some s1 /\
    generatedArticles s1 = generatedArticles s /\
    completedCount s1 = S (completedCount s) /\
    completed (bulkProgress s1) = S (completedCount s) /\
    activeTasks s1 = (activeTasks s - 1)%Z /\
    workers s1 !! i = Some Returned /\
    forall evs s2,
      run cfg s1 evs = Some s2 ->
      length (generatedArticles s2) < completedCount s2.
Proof.
  intros Hr Hi Hab He.
  assert (Hs : step cfg s (WorkerResume i (Rejected e))
               = Some (set_pc i Returned (finally_block s))).
  { simpl. rewrite Hi. simpl. by rewrite He, Hab. }
  exists (set_pc i Returned (finally_block s)). split; [done|].
  repeat split; try done.
  - simpl. apply list_lookup_insert_eq. by eapply lookup_lt_Some.
  - intros evs s2 Hrun.
    pose proof (reachable_step _ _ _ _ Hr Hs) as Hr1.
    destruct (ledger_run _ _ _ _ Hr1 Hrun) as (_ & _ & Hgap & _).
    destruct (reachable_inv _ _ Hr) as [[] _]. simpl in Hgap. lia.
Qed.

Lemma abort_still_counts_witness :
  reachable (plain_batch ["A"]) cancelled_A /\
  workers cancelled_A !! 0 =
    Some (AwaitGenerate (mkTask 0 "A") (initial_locals (plain_batch ["A"]))) /\
  aborted cancelled_A = true /\ is_AbortError AbortError = true /\
  exists s1,
    step (plain_batch ["A"]) cancelled_A (WorkerResume 0 (Rejected AbortError)) = Some s1 /\
    generatedArticles s1 = [] /\ completedCount s1 = 1.
Proof.
  assert (Hr : reachable (plain_batch ["A"]) cancelled_A)
    by (exists [Stop]; vm_compute; reflexivity).
  split; [exact Hr|]. split; [reflexivity|]. split; [reflexivity|]. split; [reflexivity|].
  destruct (abort_still_counts (plain_batch ["A"]) cancelled_A 0
              (mkTask 0 "A") (initial_locals (plain_batch ["A"])) AbortError
              Hr eq_refl eq_refl eq_refl) as (s1 & Hs & Hg & Hc & _).
  exists s1. split; [exact Hs|]. split; [exact Hg|exact Hc].
Defined.

(** ** Counting calls *)










(** ** The link cache *)











(** ** The link stage, turn by turn *)








(** ** C5 *)





(** ** C7 *)

(** C7, as stated, fails: after the cancellation the worker still
    initiates, for its current topic, the second keyword call, the link
    scan and the generation call. *)
Lemma calls_initiated_after_cancellation :
  run (seo_batch ["A"]) (handleGenerate (seo_batch ["A"]))
    [MainResume (Resolved_links []);
     Stop;
     WorkerResume 0 (Resolved_keywords ["k"]);
     WorkerResume 0 (Resolved_keywords ["n"]);
     WorkerResume 0 (Resolved_links [])]
  = Some cancelled_in_keywords /\
  aborted cancelled_in_keywords = true /\
  exists c,
    List.filter after_abort (calls cancelled_in_keywords) =
      [mkIssued (Some 0) (Some 0) true (generateNLPKeywords "A");
       mkIssued (Some 0) (Some 0) true
         (scanForInternalLinks "https://example.com" "A" ["k"] false);
       mkIssued (Some 0) (Some 0) true (generateArticle c)].
Proof.
  split; [vm_compute; reflexivity|]. split; [reflexivity|].
  eexists. vm_compute. reflexivity.
Qed.

(** C7, amended.  The loop head is the only place where the worker looks
    at the cancellation flag.  Once the flag is set it stays set and no
    topic is popped or claimed any more, so every call a worker makes from
    then to the end of the run is for a topic it had claimed before the
    cancellation; no call is made for a later topic. *)
Theorem cancellation_stops_claims
    (cfg : ArticleConfig.t) (s : State) (evs : list Event) (s' : State) :
  reachable cfg s -> aborted s = true -> run cfg s evs = Some s' ->
  aborted s' = true /\ queue s' = queue s /\ claims s' = claims s /\
  (forall c i, c ∈ calls s' -> by_worker c = Some i ->
               exists k, for_task c = Some k /\ (i, k) ∈ claims s).
Proof.
  intros Hr Hab Hrun.
  destruct (ledger_run _ _ _ _ Hr Hrun) as (_ & _ & _ & Hstay).
  destruct (Hstay Hab) as (Hab' & Hcl & Hq).
  repeat split; try done.
  intros c i Hc Hi.
  pose proof (reachable_calls_inv _ _ (reachable_run _ _ _ _ Hr Hrun))
    as [_ _ (bs & ss & ws & Hlog)].
  destruct Hlog. rewrite log_split0 in Hc.
  rewrite !elem_of_app in Hc. destruct Hc as [Hc|[Hc|Hc]].
  - rewrite Forall_forall in log_brand0. destruct (log_brand0 _ Hc). congruence.
  - rewrite Forall_forall in log_prescan0. destruct (log_prescan0 _ Hc). congruence.
  - rewrite Forall_forall in log_workers0.
    destruct (log_workers0 _ Hc) as (i' & k & H1 & H2 & H3 & _).
    exists k. split; [done|]. rewrite <- Hcl. congruence.
Qed.

Lemma cancellation_stops_claims_witness :
  reachable (plain_batch ["A"; "B"; "C"; "D"; "E"; "F"; "G"]) cancelled_7 /\
  aborted cancelled_7 = true /\
  run (plain_batch ["A"; "B"; "C"; "D"; "E"; "F"; "G"]) cancelled_7
    [WorkerResume 1 (Resolved_article "B article" [])] = Some cancelled_7_later /\
  queue cancelled_7_later = ["G"] /\
  claims cancelled_7_later = [(0, 0); (1, 1); (2, 2); (3, 3); (4, 4); (0, 5)].
Proof.
  assert (Hr : reachable (plain_batch ["A"; "B"; "C"; "D"; "E"; "F"; "G"]) cancelled_7).
  { exists [WorkerResume 0 (Resolved_article "A article" []); Stop].
    vm_compute. reflexivity. }
  assert (Hrun : run (plain_batch ["A"; "B"; "C"; "D"; "E"; "F"; "G"]) cancelled_7
                   [WorkerResume 1 (Resolved_article "B article" [])]
                 = Some cancelled_7_later) by (vm_compute; reflexivity).
  split; [exact Hr|]. split; [reflexivity|]. split; [exact Hrun|].
  destruct (cancellation_stops_claims _ cancelled_7 _ cancelled_7_later
              Hr eq_refl Hrun) as (_ & Hq & Hc & _).
  split; [exact Hq|exact Hc].
Defined.

(** ** C9 *)



(** * The rest of the application: properties *)

Lemma sum_list_insert (f : WorkerPc -> nat) (ws : list WorkerPc) i pc pc' :
  ws !! i = Some pc ->
  sum_list (f <$> <[i:=pc']> ws) + f pc = sum_list (f <$> ws) + f pc'.
Proof.
  revert i. induction ws as [|w ws IH]; intros [|i] Hi; simpl in *; try done.
  - injection Hi as ->. lia.
  - specialize (IH i Hi). unfold fmap in *. lia.
Qed.

Lemma spends_le k k' i s s' : k <= k' -> spends k i s s' -> spends k' i s s'.
Proof. intros Hk (pc' & H & ?). exists pc'. split; [lia|done]. Qed.

Lemma generation_phase_spends cfg i t l s : spends 1 i s (generation_phase cfg i t l s).
Proof. exists (AwaitGenerate t l). simpl. rewrite length_app. simpl. split; [lia|done]. Qed.

Lemma external_stage_spends cfg i t l s : spends 2 i s (external_stage cfg i t l s).
Proof.
  unfold external_stage. destruct (ArticleConfig.enableExternalLinks cfg).
  - exists (AwaitExternalLinks t l). simpl. rewrite length_app. simpl. split; [lia|done].
  - eapply spends_le; [|apply generation_phase_spends]. lia.
Qed.

Lemma link_stage_spends cfg i t l s : spends 3 i s (link_stage cfg i t l s).
Proof.
  assert (He : forall l', spends 3 i s (external_stage cfg i t l' s)).
  { intros l'. eapply spends_le; [|apply external_stage_spends]. lia. }
  unfold link_stage.
  destruct (truthy _); [|done].
  destruct (cachedInternalLinks s); [|done].
  destruct (_ && _).
  { exists (AwaitInternalLinks t l). simpl. rewrite length_app. simpl. split; [lia|done]. }
  destruct (_ || _); [|done].
  exists (AwaitInternalLinks t l). simpl. rewrite length_app. simpl. split; [lia|done].
Qed.

Lemma enter_try_spends cfg i t s : spends 5 i s (enter_try cfg i t s).
Proof.
  unfold enter_try. destruct (ArticleConfig.autoOptimize cfg).
  - eexists (AwaitPrimaryKeywords _ t _). simpl. rewrite length_app. simpl.
    split; [lia|done].
  - eapply spends_le; [|apply generation_phase_spends]. lia.
Qed.

Lemma spends_budget k i pc s s' :
  workers s !! i = Some pc -> spends k i s s' ->
  call_budget s' + calls_ahead pc <= call_budget s + k.
Proof.
  intros Hi (pc' & Hk & Hw & Hq & Hm). unfold call_budget. rewrite Hw, Hq, Hm.
  pose proof (sum_list_insert calls_ahead _ _ _ pc' Hi). lia.
Qed.

Lemma loop_head_budget cfg i pc s :
  workers s !! i = Some pc -> call_budget (loop_head cfg i s) + calls_ahead pc <= call_budget s.
Proof.
  intros Hi. unfold loop_head.
  destruct (queue s) as [|topic rest] eqn:Hq.
  { unfold call_budget. simpl. rewrite Hq.
    pose proof (sum_list_insert calls_ahead _ _ _ Returned Hi). simpl in *. lia. }
  destruct (aborted s).
  { unfold call_budget. simpl. rewrite Hq.
    pose proof (sum_list_insert calls_ahead _ _ _ Returned Hi). simpl in *. lia. }
  destruct (_ =? _)%string.
  { unfold call_budget. simpl. rewrite Hq.
    pose proof (sum_list_insert calls_ahead _ _ _ Returned Hi). simpl in *. lia. }
  set (t := mkTask _ _). set (s2 := setActiveTasks _ _).
  assert (Hi2 : workers s2 !! i = Some pc) by done.
  assert (Hm : call_budget s2 + 5 = call_budget s).
  { unfold call_budget. simpl. rewrite Hq. simpl. lia. }
  destruct (isDeepSeekWebMode cfg).
  - assert (Hs : spends 5 i s2 (set_pc i (AwaitDelay t) s2)).
    { exists (AwaitDelay t). simpl. split; [lia|done]. }
    pose proof (spends_budget _ _ _ _ _ Hi2 Hs). lia.
  - pose proof (spends_budget _ _ _ _ _ Hi2 (enter_try_spends cfg i t s2)). lia.
Qed.

Lemma worker_turn_budget cfg i r s s' :
  step cfg s (WorkerResume i r) = Some s' -> call_budget s' <= call_budget s.
Proof.
  simpl. destruct (workers s !! i) as [pc|] eqn:Hi; [|done].
  destruct (may_settle s pc r) eqn:Hok; [|done]. intros [= <-].
  assert (Hfin : forall s1, workers s1 = workers s -> queue s1 = queue s ->
                 calls s1 = calls s -> main s1 = main s ->
                 call_budget (loop_head cfg i s1) <= call_budget s).
  { intros s1 Hw Hq Hc Hm.
    assert (Hi1 : workers s1 !! i = Some pc) by (by rewrite Hw).
    pose proof (loop_head_budget cfg i pc s1 Hi1) as H.
    assert (call_budget s1 = call_budget s) by (unfold call_budget; by rewrite Hw, Hq, Hc, Hm).
    lia. }
  destruct pc as [|t|ds t l|ds t l|t l|t l|t l|]; try done.
  - pose proof (spends_budget _ _ _ _ _ Hi (enter_try_spends cfg i t s)).
    simpl in *. destruct r; simpl in *; lia.
  - destruct r; try done; simpl.
    + assert (Hs : spends 4 i s
        (await_call i t (nlp_call ds (task_topic t)) (AwaitNLPKeywords ds t (with_primary l kws)) s)).
      { eexists (AwaitNLPKeywords _ _ _). simpl. rewrite length_app. simpl. split; [lia|done]. }
      pose proof (spends_budget _ _ _ _ _ Hi Hs). simpl in *. lia.
    + pose proof (spends_budget _ _ _ _ _ Hi (link_stage_spends cfg i t l s)).
      simpl in *. lia.
  - destruct r; try done; simpl.
    + pose proof (spends_budget _ _ _ _ _ Hi (link_stage_spends cfg i t (with_nlp l kws) s)).
      simpl in *. lia.
    + pose proof (spends_budget _ _ _ _ _ Hi (link_stage_spends cfg i t l s)).
      simpl in *. lia.
  - destruct r; try done; simpl.
    + pose proof (spends_budget _ _ _ _ _ Hi
                    (external_stage_spends cfg i t (with_internal l (take 3 links)) s)).
      simpl in *. lia.
    + pose proof (spends_budget _ _ _ _ _ Hi (external_stage_spends cfg i t l s)).
      simpl in *. lia.
  - destruct r; try done; simpl.
    + pose proof (spends_budget _ _ _ _ _ Hi
                    (generation_phase_spends cfg i t (with_external l (take 5 links)) s)).
      simpl in *. lia.
    + pose proof (spends_budget _ _ _ _ _ Hi (generation_phase_spends cfg i t l s)).
      simpl in *. lia.
  - destruct r; try done; simpl.
    + by apply Hfin.
    + destruct (is_AbortError e).
      * unfold call_budget. simpl.
        pose proof (sum_list_insert calls_ahead _ _ _ Returned Hi). simpl in *. lia.
      * by apply Hfin.
Qed.

Lemma spawn_budget cfg s :
  workers s = [] -> call_budget (spawn cfg s) + prefetches_ahead (main s) <= call_budget s.
Proof.
  intros Hw.
  apply (spawn_ind cfg (fun s' => call_budget s' + prefetches_ahead (main s) <= call_budget s)).
  - unfold call_budget. simpl. rewrite Hw. simpl.
    assert (Hz : forall n, sum_list (calls_ahead <$> replicate n NotStarted) = 0).
    { induction n; [done|]. simpl. done. }
    rewrite Hz. lia.
  - intros s' i H Hi. pose proof (loop_head_budget cfg i _ s' Hi). simpl in *. lia.
Qed.

Lemma prescan_stage_budget cfg s :
  workers s = [] -> 1 <= prefetches_ahead (main s) \/ main s = Settled ->
  call_budget (prescan_stage cfg s) <= call_budget s + 1 - prefetches_ahead (main s).
Proof.
  intros Hw Hm. unfold prescan_stage.
  pose proof (spawn_budget cfg s Hw) as Hsp.
  assert (Hscan : forall c,
    call_budget (set_main AwaitPrescan (issue None None c s))
    <= call_budget s + 1 - prefetches_ahead (main s)).
  { intros c. unfold call_budget. simpl. rewrite length_app. simpl. lia. }
  destruct (truthy _ && _); [|lia].
  destruct (AIProvider.eqb _ _ && is_provider _ _); [apply Hscan|].
  destruct (AIProvider.eqb _ _ || is_provider _ _); [apply Hscan|lia].
Qed.

Lemma start_budget cfg : call_budget (handleGenerate cfg) <= 5 * length (topics cfg) + 2.
Proof.
  unfold handleGenerate, bulk_branch.
  destruct (topics cfg) as [|t ts] eqn:Ht; [simpl; unfold call_budget; simpl; lia|].
  set (s0 := mkState _ _ _ _ _ _ _ _ _ _ _ _ _ _ _ _).
  unfold brand_stage. destruct (_ && _).
  - unfold call_budget. simpl. lia.
  - pose proof (prescan_stage_budget cfg s0 eq_refl (or_intror eq_refl)) as H.
    simpl in *. lia.
Qed.

Lemma step_budget cfg s ev s' :
  inv cfg s -> step cfg s ev = Some s' -> call_budget s' <= call_budget s.
Proof.
  intros [_ Hp] Hs. destruct ev as [r|i r| |].
  - simpl in Hs. unfold main_resume in Hs.
    assert (Hw : main s <> AwaitWorkers -> main s <> Settled -> workers s = []).
    { intros H1 H2. by destruct (ph_before _ _ Hp H1 H2) as (?&_). }
    destruct (main s) eqn:Hm; try done;
      (specialize (Hw ltac:(done) ltac:(done)));
      destruct r as [|[]| | | | |]; try done; injection Hs as <-.
    + unfold call_budget. simpl. rewrite Hm, length_app. simpl. lia.
    + pose proof (prescan_stage_budget cfg s Hw) as H. rewrite Hm in H. simpl in H.
      specialize (H ltac:(left; lia)). lia.
    + pose proof (prescan_stage_budget cfg s Hw) as H. rewrite Hm in H. simpl in H.
      specialize (H ltac:(left; lia)). lia.
    + pose proof (prescan_stage_budget cfg (set_cachedBrandResearch b s) Hw) as H.
      simpl in H. rewrite Hm in H. simpl in H. specialize (H ltac:(left; lia)).
      assert (call_budget (set_cachedBrandResearch b s) = call_budget s) by done. lia.
    + pose proof (prescan_stage_budget cfg s Hw) as H. rewrite Hm in H. simpl in H.
      specialize (H ltac:(left; lia)). lia.
    + pose proof (spawn_budget cfg (set_cachedInternalLinks links s) Hw) as H.
      assert (call_budget (set_cachedInternalLinks links s) = call_budget s) by done. lia.
    + pose proof (spawn_budget cfg s Hw). lia.
  - by eapply worker_turn_budget.
  - simpl in Hs. destruct (main s) eqn:Hm; try done. destruct (forallb _ _); [|done].
    injection Hs as <-. unfold outer_finally, call_budget.
    destruct (refLive s); simpl; rewrite ?Hm; simpl; lia.
  - simpl in Hs. injection Hs as <-. unfold handleStopGeneration, call_budget.
    destruct (refLive s); simpl; lia.
Qed.

Lemma reachable_budget cfg s :
  reachable cfg s -> call_budget s <= 5 * length (topics cfg) + 2.
Proof.
  revert s.
  apply (reachable_ind cfg (fun s => call_budget s <= 5 * length (topics cfg) + 2));
    [apply start_budget|].
  intros s1 ev s2 Hr H Hs.
  pose proof (step_budget _ _ _ _ (reachable_inv _ _ Hr) Hs). lia.
Qed.

Lemma generated_app cs1 cs2 : generated (cs1 ++ cs2) = generated cs1 ++ generated cs2.
Proof. unfold generated. by rewrite omap_app. Qed.

Lemma generation_phase_issues cfg i t l s : issues cfg i t s (generation_phase cfg i t l s).
Proof. apply issues_generation. Qed.

Lemma external_stage_issues cfg i t l s : issues cfg i t s (external_stage cfg i t l s).
Proof.
  unfold external_stage. destruct (ArticleConfig.enableExternalLinks cfg).
  - apply issues_research; [done| |done]. by destruct (_ && _).
  - apply generation_phase_issues.
Qed.

Lemma link_stage_issues cfg i t l s : issues cfg i t s (link_stage cfg i t l s).
Proof.
  unfold link_stage.
  destruct (truthy _); [|apply external_stage_issues].
  destruct (cachedInternalLinks s); [|apply external_stage_issues].
  destruct (_ && _); [by apply issues_research|].
  destruct (_ || _); [by apply issues_research|apply external_stage_issues].
Qed.

Lemma enter_try_issues cfg i t s : issues cfg i t s (enter_try cfg i t s).
Proof.
  unfold enter_try. destruct (ArticleConfig.autoOptimize cfg).
  - apply issues_research; [done| |done]. unfold primary_call. by destruct (deepSeekKeywords cfg).
  - apply generation_phase_issues.
Qed.

(** A turn that does not resume the generation call moves on within the
    task. *)
Lemma worker_resume_issues cfg i pc r s :
  may_settle s pc r = true -> awaits_generation pc = false ->
  exists t, task_of pc = Some t /\ issues cfg i t s (worker_resume cfg i pc r s).
Proof.
  intros Hok Hng.
  destruct pc as [|t|ds t l|ds t l|t l|t l|t l|]; try done; exists t; (split; [done|]).
  - apply enter_try_issues.
  - destruct r; try done; simpl.
    + apply issues_research; [done| |done]. unfold nlp_call. by destruct ds.
    + apply link_stage_issues.
  - destruct r; try done; simpl; apply link_stage_issues.
  - destruct r; try done; simpl; apply external_stage_issues.
  - destruct r; try done; simpl; apply generation_phase_issues.
Qed.

(** Two workers never hold the same queue position. *)
Lemma held_distinct (ws : list WorkerPc) i j pc pc' t t' :
  NoDup (held ws) -> i <> j ->
  ws !! i = Some pc -> ws !! j = Some pc' ->
  task_of pc = Some t -> task_of pc' = Some t' ->
  task_index t <> task_index t'.
Proof.
  intros Hnd Hij Hi Hj Ht Ht' Heq.
  destruct (held_insert _ _ _ Hi) as (rest & Hh & Hh').
  unfold held_by in Hh. rewrite Ht in Hh. simpl in Hh.
  specialize (Hh' Returned). simpl in Hh'.
  rewrite Hh in Hnd. apply NoDup_cons in Hnd as [Hnin _].
  apply Hnin. rewrite <- Hh'.
  assert (Hj' : <[i:=Returned]> ws !! j = Some pc') by (by rewrite list_lookup_insert_ne).
  unfold held. apply list_elem_of_omap. exists pc'. split.
  - by eapply list_elem_of_lookup_2.
  - unfold held_by. rewrite Ht'. simpl. by rewrite Heq.
Qed.

Lemma issues_frame cfg i t s s' :
  issues cfg i t s s' ->
  claims s' = claims s /\ reported s' = reported s /\
  exists pc', task_of pc' = Some t /\ workers s' = <[i:=pc']> (workers s) /\
    (awaits_generation pc' = false /\ generated (calls s') = generated (calls s) /\
     (forall c, c ∈ calls s' -> c ∈ calls s \/ generation_config (call c) = None)
     \/
     exists l, pc' = AwaitGenerate t l /\
       generated (calls s') = generated (calls s) ++ [task_index t] /\
       (forall c, c ∈ calls s' -> c ∈ calls s \/
          exists c', generation_config (call c) = Some c' /\
                     for_task c = Some (task_index t) /\
                     ArticleConfig.topic c' = task_topic t /\
                     ArticleConfig.mode c' = ArticleConfig.single)).
Proof.
  intros [|c pc' Ht Hc Hpc|l]; simpl; (split; [done|]); (split; [done|]).
  - exists (AwaitDelay t). split; [done|]. split; [done|]. left. auto.
  - exists pc'. split; [done|]. split; [done|]. left. split; [done|].
    split.
    + rewrite generated_app. simpl. rewrite Hc. simpl. by rewrite app_nil_r.
    + intros c0 Hin. apply elem_of_app in Hin as [?|Hin]; [by left|].
      apply list_elem_of_singleton in Hin as ->. by right.
  - exists (AwaitGenerate t l). split; [done|]. split; [done|]. right.
    exists l. split; [done|]. split.
    + rewrite generated_app. simpl.
      unfold generateWithFallback. by destruct (AIProvider.eqb _ _).
    + intros c0 Hin. apply elem_of_app in Hin as [?|Hin]; [by left|].
      apply list_elem_of_singleton in Hin as ->. right. simpl.
      unfold generateWithFallback. destruct (AIProvider.eqb _ _); simpl; eauto.
Qed.

(** Worker [i] moves on within [t], a position no generation call was made
    for and no other worker holds. *)
Lemma gen_issues cfg i pc t s s' :
  gen_inv cfg s -> workers s !! i = Some pc ->
  task_index t ∉ generated (calls s) ->
  task_index t < length (claims s) ->
  topics cfg !! task_index t = Some (task_topic t) ->
  (forall j pc' t', j <> i -> workers s !! j = Some pc' -> task_of pc' = Some t' ->
                    task_index t' <> task_index t) ->
  issues cfg i t s s' -> gen_inv cfg s'.
Proof.
  intros [Gnd Gbd Gpend Ginfl Grep Gcfg] Hi Hfresh Hlt Htop Hothers Hiss.
  destruct (issues_frame _ _ _ _ _ Hiss) as (Hcl & Hrep & pc' & Ht' & Hw & Hcase).
  destruct Hcase as [(Hng & Hgen & Hcalls)|(l & -> & Hgen & Hcalls)].
  - constructor; rewrite ?Hgen, ?Hcl, ?Hrep; try done.
    + intros j pcj tj Hj Htj Hngj. rewrite Hw in Hj.
      apply list_lookup_insert_Some in Hj as [(_ & <- & _)|(_ & Hj)]; [|by eauto].
      by assert (tj = t) as -> by congruence.
    + intros j pcj tj Hj Htj Hgj. rewrite Hw in Hj.
      apply list_lookup_insert_Some in Hj as [(_ & <- & _)|(_ & Hj)]; [congruence|by eauto].
    + intros c c' Hin Hc. destruct (Hcalls c Hin) as [?|?]; [by eauto|congruence].
  - constructor; rewrite ?Hgen, ?Hcl, ?Hrep.
    + apply NoDup_app. split; [done|]. split; [|apply NoDup_singleton].
      intros k Hk Hk'. apply list_elem_of_singleton in Hk' as ->. done.
    + apply Forall_app. split; [done|]. by constructor.
    + intros j pcj tj Hj Htj Hngj. rewrite Hw in Hj.
      apply list_lookup_insert_Some in Hj as [(_ & <- & _)|(Hne & Hj)]; [done|].
      intros Hin. apply elem_of_app in Hin as [Hin|Hin]; [by eapply Gpend|].
      apply list_elem_of_singleton in Hin. by eapply (Hothers j).
    + intros j pcj tj Hj Htj Hgj. rewrite Hw in Hj. apply elem_of_app.
      apply list_lookup_insert_Some in Hj as [(_ & <- & _)|(_ & Hj)].
      * right. simpl in Htj. injection Htj as <-. by apply list_elem_of_singleton.
      * left. by eauto.
    + intros k Hk. apply elem_of_app. left. auto.
    + intros c c' Hin Hc. destruct (Hcalls c Hin) as [?|(c0 & Hc0 & Hf & Htp & Hmd)]; [by eauto|].
      assert (c' = c0) as -> by congruence.
      exists (task_index t). rewrite Htp. done.
Qed.

(** Changes that add no generation call and no report, and may add claims
    or release tasks. *)
Lemma gen_inv_same cfg s s' :
  generated (calls s') = generated (calls s) ->
  (forall c, c ∈ calls s' -> c ∈ calls s \/ generation_config (call c) = None) ->
  reported s' = reported s ->
  length (claims s) <= length (claims s') ->
  (forall i pc t, workers s' !! i = Some pc -> task_of pc = Some t ->
                  workers s !! i = Some pc) ->
  gen_inv cfg s -> gen_inv cfg s'.
Proof.
  intros Hg Hc Hr Hcl Hw [Gnd Gbd Gpend Ginfl Grep Gcfg].
  constructor; rewrite ?Hg, ?Hr; eauto.
  - eapply Forall_impl; [done|]. simpl. lia.
  - intros c c' Hin Hcc. destruct (Hc c Hin) as [?|?]; [by eauto|congruence].
Qed.

Lemma gen_loop_head cfg i pc s :
  core_inv cfg s -> gen_inv cfg s -> workers s !! i = Some pc -> task_of pc = None ->
  gen_inv cfg (loop_head cfg i s).
Proof.
  intros Hcore Hgen Hi Ht. unfold loop_head.
  assert (Hret : forall s1, calls s1 = calls s -> reported s1 = reported s ->
            length (claims s) <= length (claims s1) -> workers s1 = workers s ->
            gen_inv cfg (set_pc i Returned s1)).
  { intros s1 Hc Hr Hcl Hw. eapply gen_inv_same; [..|exact Hgen]; try done.
    { simpl. by rewrite Hc. }
    { simpl. rewrite Hc. auto. }
    simpl. intros j pcj tj Hj Htj. rewrite Hw in Hj.
    apply list_lookup_insert_Some in Hj as [(_ & <- & _)|(_ & Hj)]; done. }
  destruct (queue s) as [|topic rest] eqn:Hq; [by apply Hret|].
  destruct (aborted s); [by apply Hret|].
  destruct (_ =? _)%string.
  { apply Hret; try done. simpl. rewrite length_app. lia. }
  set (t := mkTask _ _). set (s2 := setActiveTasks _ _).
  assert (H2 : gen_inv cfg s2).
  { eapply gen_inv_same; [..|exact Hgen]; try done; simpl; auto.
    rewrite length_app. lia. }
  assert (Hiss : issues cfg i t s2 (if isDeepSeekWebMode cfg then set_pc i (AwaitDelay t) s2
                                    else enter_try cfg i t s2)).
  { destruct (isDeepSeekWebMode cfg); [apply issues_delay|apply enter_try_issues]. }
  pose proof Hq as Hq'. rewrite (inv_queue _ _ Hcore) in Hq'.
  apply drop_cons_inv in Hq' as (Hl & Hd & Hlt).
  eapply (gen_issues cfg i pc t s2); [done|done| | |done| |done].
  - intros Hin. pose proof (gi_bound _ _ Hgen) as Hb. rewrite Forall_forall in Hb.
    apply Hb in Hin. simpl in Hin. lia.
  - simpl. rewrite length_app. simpl. lia.
  - intros j pcj tj Hne Hj Htj. simpl in *.
    assert (Hin : task_index tj ∈ held (workers s)).
    { unfold held. apply list_elem_of_omap. exists pcj. split.
      - by eapply list_elem_of_lookup_2.
      - unfold held_by. by rewrite Htj. }
    pose proof (inv_bound _ _ Hcore) as Hb. rewrite Forall_forall in Hb.
    specialize (Hb (task_index tj)). rewrite elem_of_app in Hb.
    specialize (Hb (or_introl Hin)). lia.
Qed.

Lemma core_replicate cfg s :
  core_inv cfg s -> workers s = [] ->
  core_inv cfg (set_workers (replicate (pool_size cfg) NotStarted) (set_main AwaitWorkers s)).
Proof.
  intros [Cq Ccl Ccs Cnd Cbd Crep Ccomp Crel Ctit Ctask Cex Cidle Cbal] Hw.
  rewrite Hw in *. simpl in *.
  assert (Hh : forall n, held (replicate n NotStarted) = []) by (by induction n).
  constructor; simpl; rewrite ?Hh; simpl; try done.
  - intros j pc t Hj. apply lookup_replicate in Hj as [-> _]. done.
  - intros Hv Hab j Hj. apply lookup_replicate in Hj as [? _]. done.
Qed.

Lemma gen_spawn cfg s :
  core_inv cfg s -> workers s = [] -> gen_inv cfg s -> gen_inv cfg (spawn cfg s).
Proof.
  intros Hcore Hw Hgen.
  apply (spawn_ind cfg (fun s' => core_inv cfg s' /\ gen_inv cfg s')).
  - split.
    + eapply core_replicate; eauto.
    + eapply gen_inv_same; [..|exact Hgen]; try done; simpl; auto.
      intros i pc t Hi. by apply lookup_replicate in Hi as [-> _].
  - intros s' i [Hc Hg] Hi. split.
    + by eapply core_loop_head.
    + by eapply gen_loop_head.
Qed.

Lemma gen_prescan_stage cfg s :
  core_inv cfg s -> workers s = [] -> gen_inv cfg s -> gen_inv cfg (prescan_stage cfg s).
Proof.
  intros Hcore Hw Hgen. unfold prescan_stage.
  assert (Hscan : forall c, generation_config c = None ->
            gen_inv cfg (set_main AwaitPrescan (issue None None c s))).
  { intros c Hc. eapply gen_inv_same; [..|exact Hgen]; try done; simpl.
    - rewrite generated_app. simpl. rewrite Hc. simpl. by rewrite app_nil_r.
    - intros c0 Hin. apply elem_of_app in Hin as [?|Hin]; [by left|].
      apply list_elem_of_singleton in Hin as ->. by right. }
  destruct (truthy _ && _); [|by apply gen_spawn].
  destruct (AIProvider.eqb _ _ && is_provider _ _); [by apply Hscan|].
  destruct (AIProvider.eqb _ _ || is_provider _ _); [by apply Hscan|by apply gen_spawn].
Qed.

Lemma gen_inv_blank cfg s :
  calls s = [] -> workers s = [] -> reported s = [] -> gen_inv cfg s.
Proof.
  intros Hc Hw Hr. constructor; rewrite ?Hc, ?Hw, ?Hr; simpl.
  - constructor.
  - constructor.
  - by intros i pc t Hi.
  - by intros i pc t Hi.
  - intros k Hk. by apply elem_of_nil in Hk.
  - intros c c' Hin. by apply elem_of_nil in Hin.
Qed.

Lemma gen_start cfg : gen_inv cfg (handleGenerate cfg).
Proof.
  unfold handleGenerate, bulk_branch.
  destruct (topics cfg) as [|t ts] eqn:Ht.
  - by apply gen_inv_blank.
  - set (s0 := mkState _ _ _ _ _ _ _ _ _ _ _ _ _ _ _ _).
    assert (Hb : before_spawn cfg s0) by (repeat split; simpl; by rewrite ?Ht).
    assert (H0 : gen_inv cfg s0) by (by apply gen_inv_blank).
    unfold brand_stage. destruct (_ && _).
    + by apply gen_inv_blank.
    + apply gen_prescan_stage; [by apply before_spawn_core|done|done].
Qed.

Lemma gen_step cfg s ev s' :
  inv cfg s -> gen_inv cfg s -> step cfg s ev = Some s' -> gen_inv cfg s'.
Proof.
  intros Hinv Hgen Hs. pose proof Hinv as [Hcore Hp].
  destruct ev as [r|i r| |]; simpl in Hs.
  - unfold main_resume in Hs.
    assert (Hw : main s <> AwaitWorkers -> main s <> Settled -> workers s = []).
    { intros H1 H2. by destruct (ph_before _ _ Hp H1 H2) as (?&_). }
    assert (Hquiet : forall s1, calls s1 = calls s -> reported s1 = reported s ->
              claims s1 = claims s -> workers s1 = workers s -> gen_inv cfg s1).
    { intros s1 Hc Hr Hcl Hws. eapply gen_inv_same; [..|exact Hgen]; rewrite ?Hc, ?Hcl, ?Hws; auto. }
    assert (Hcq : forall s1, queue s1 = queue s -> claims s1 = claims s ->
              workers s1 = workers s -> reported s1 = reported s ->
              generatedArticles s1 = generatedArticles s ->
              completedCount s1 = completedCount s -> aborted s1 = aborted s ->
              core_inv cfg s1).
    { intros s1 ? ? ? ? ? ? Ha. eapply core_inv_same; [..|exact Hcore]; try done. by rewrite Ha. }
    destruct (main s) eqn:Hm; try done;
      (specialize (Hw ltac:(done) ltac:(done)));
      destruct r as [|[]| | | | |]; try done; injection Hs as <-.
    + eapply gen_inv_same; [..|exact Hgen]; try done; simpl.
      * rewrite generated_app. simpl. by rewrite app_nil_r.
      * intros c0 Hin. apply elem_of_app in Hin as [?|Hin]; [by left|].
        apply list_elem_of_singleton in Hin as ->. by right.
    + by apply gen_prescan_stage.
    + by apply gen_prescan_stage.
    + apply gen_prescan_stage; [by apply Hcq|done|by apply Hquiet].
    + by apply gen_prescan_stage.
    + apply gen_spawn; [by apply Hcq|done|by apply Hquiet].
    + by apply gen_spawn.
  - destruct (workers s !! i) as [pc|] eqn:Hi; [|done].
    destruct (may_settle s pc r) eqn:Hok; [|done].
    injection Hs as <-.
    destruct (awaits_generation pc) eqn:Hag.
    + destruct pc as [|t|ds t l|ds t l|t l|t l|t l|]; try done.
      assert (Hin : task_index t ∈ generated (calls s)).
      { by eapply (gi_inflight _ _ Hgen i (AwaitGenerate t l) t). }
      assert (Hrep : forall a, GeneratedArticle.title a = task_topic t ->
        gen_inv cfg (loop_head cfg i (finally_block (setGeneratedArticles (task_index t) a s)))).
      { intros a Ha. rewrite <- (loop_head_set_pc cfg i NotStarted).
        eapply (gen_loop_head _ _ NotStarted); [by eapply core_report| | |done].
        - destruct Hgen as [Gnd Gbd Gpend Ginfl Grep Gcfg]. constructor; simpl; try done.
          + intros j pcj tj Hj Htj.
            apply list_lookup_insert_Some in Hj as [(_ & <- & _)|(_ & Hj)]; [done|by eauto].
          + intros j pcj tj Hj Htj.
            apply list_lookup_insert_Some in Hj as [(_ & <- & _)|(_ & Hj)]; [done|by eauto].
          + intros k Hk. apply elem_of_app in Hk as [?|Hk]; [by auto|].
            by apply list_elem_of_singleton in Hk as ->.
        - simpl. apply list_lookup_insert_eq. by eapply lookup_lt_Some. }
      destruct r as [| | | | |content sources|e]; try done; simpl.
      * by apply Hrep.
      * destruct (is_AbortError e); [|by apply Hrep].
        eapply gen_inv_same; [..|exact Hgen]; try done; simpl; auto.
        intros j pcj tj Hj Htj.
        apply list_lookup_insert_Some in Hj as [(_ & <- & _)|(_ & Hj)]; done.
    + destruct (worker_resume_issues cfg i pc r s Hok Hag) as (t & Ht & Hiss).
      eapply (gen_issues cfg i pc t s); try done.
      * by eapply (gi_pending _ _ Hgen).
      * pose proof (inv_bound _ _ Hcore) as Hb. rewrite Forall_forall in Hb.
        apply Hb. apply elem_of_app. left. unfold held. apply list_elem_of_omap.
        exists pc. split; [by eapply list_elem_of_lookup_2|].
        unfold held_by. by rewrite Ht.
      * by eapply (inv_tasks _ _ Hcore).
      * intros j pcj tj Hne Hj Htj.
        eapply (held_distinct (workers s) j i); eauto.
        pose proof (inv_nodup _ _ Hcore) as Hnd. by apply NoDup_app in Hnd as [? _].
  - destruct (main s) eqn:Hm; try done. destruct (forallb _ _); [|done].
    injection Hs as <-. eapply gen_inv_same; [..|exact Hgen];
      unfold outer_finally; destruct (refLive s); simpl; auto.
  - injection Hs as <-. eapply gen_inv_same; [..|exact Hgen];
      unfold handleStopGeneration; destruct (refLive s); simpl; auto.
Qed.

Lemma reachable_gen_inv cfg s : reachable cfg s -> gen_inv cfg s.
Proof.
  revert s. apply (reachable_ind cfg (gen_inv cfg)); [apply gen_start|].
  intros s1 ev s2 Hr H Hs. eapply gen_step; [by apply reachable_inv|done..].
Qed.

Lemma held_length_le ws : length (held ws) <= length ws.
Proof.
  induction ws as [|pc ws IH]; simpl; [done|].
  unfold held in *. simpl. destruct (held_by pc); simpl; lia.
Qed.

Lemma held_replicate n : held (replicate n NotStarted) = [].
Proof. by induction n. Qed.

(** What the loop head does to the panel: nothing when it exits, one more
    active task when it claims a topic. *)
Lemma loop_head_display cfg i pc s :
  workers s !! i = Some pc -> task_of pc = None ->
  same_display s (loop_head cfg i s) /\
  (activeTasks (loop_head cfg i s) = activeTasks s /\
   length (held (workers (loop_head cfg i s))) = length (held (workers s))
   \/
   aborted s = false /\
   activeTasks (loop_head cfg i s) = Z.succ (activeTasks s) /\
   length (held (workers (loop_head cfg i s))) = S (length (held (workers s)))).
Proof.
  intros Hi Ht.
  destruct (held_insert _ _ _ Hi) as (rest & Hh & Hh').
  unfold held_by in Hh. rewrite Ht in Hh. simpl in Hh.
  destruct (loop_head_effect cfg i s) as [Hex|tl Hq Ha|topic tl s' Hq Hne Ha Hadv].
  - split; [by repeat split|]. left. simpl. by rewrite Hh', Hh.
  - split; [by repeat split|]. left. simpl. by rewrite Hh', Hh.
  - pose proof (advances_frame _ _ _ _ Hadv) as Hf. simpl in Hf.
    destruct Hf as (Hfmain & Hfab & Hfref & Hfq & Hfcc & Hfbrand & Hflinks & Hfga &
                    Hfbp & Hfat & Hfgen & Hferr & Hfcl & Hfrep).
    destruct (advances_workers _ _ _ _ Hadv) as (pc' & Ht' & Hw). simpl in Hw.
    split; [by repeat split|]. right. split; [done|]. split; [done|].
    rewrite Hw, Hh', Hh. unfold held_by. rewrite Ht'. done.
Qed.

(** What a worker's turn does to the panel. *)
Lemma worker_turn_display cfg i pc r s :
  workers s !! i = Some pc -> may_settle s pc r = true ->
  let s' := worker_resume cfg i pc r s in
  main s' = main s /\ aborted s' = aborted s /\ refLive s' = refLive s /\
  isGenerating s' = isGenerating s /\
  total (bulkProgress s') = total (bulkProgress s) /\
  (** the turn stays within the iteration *)
  (bulkProgress s' = bulkProgress s /\ completedCount s' = completedCount s /\
   generatedArticles s' = generatedArticles s /\ activeTasks s' = activeTasks s /\
   length (held (workers s')) = length (held (workers s))
   \/
   (** the turn ends the iteration *)
   completedCount s' = S (completedCount s) /\
   bulkProgress s' = mkProgress (S (completedCount s)) (total (bulkProgress s)) /\
   (aborted s = false -> length (generatedArticles s') = S (length (generatedArticles s))) /\
   (activeTasks s' = Z.pred (activeTasks s) /\
    S (length (held (workers s'))) = length (held (workers s))
    \/
    aborted s = false /\ activeTasks s' = activeTasks s /\
    length (held (workers s')) = length (held (workers s)))).
Proof.
  intros Hi Hok s'.
  destruct (worker_resume_effect cfg i pc r s Hok) as (t & Ht & Heff).
  destruct (held_insert _ _ _ Hi) as (rest & Hh & Hh').
  unfold held_by in Hh. rewrite Ht in Hh. simpl in Hh.
  fold s' in Heff. destruct Heff as [s1 Hadv|a Ha|Hab].
  - pose proof (advances_frame _ _ _ _ Hadv) as Hf. simpl in Hf.
    destruct Hf as (Hfmain & Hfab & Hfref & Hfq & Hfcc & Hfbrand & Hflinks & Hfga &
                    Hfbp & Hfat & Hfgen & Hferr & Hfcl & Hfrep).
    destruct (advances_workers _ _ _ _ Hadv) as (pc' & Ht' & Hw).
    repeat (split; [congruence|]). left. repeat (split; [done|]).
    rewrite Hw, Hh', Hh. unfold held_by. by rewrite Ht'.
  - rewrite <- (loop_head_set_pc cfg i NotStarted).
    set (s1 := set_pc i NotStarted _).
    assert (Hi1 : workers s1 !! i = Some NotStarted).
    { simpl. apply list_lookup_insert_eq. by eapply lookup_lt_Some. }
    assert (Hh1 : S (length (held (workers s1))) = length (held (workers s))).
    { simpl. by rewrite Hh', Hh. }
    destruct (loop_head_display cfg i NotStarted s1 Hi1 eq_refl)
      as ((Hm & Hab & Hr & Hg & Hbp & Hcc & Hga) & Hact).
    rewrite Hm, Hab, Hr, Hg, Hbp, Hcc, Hga. simpl.
    repeat (split; [done|]). right. split; [done|]. split; [done|]. split.
    { intros _. rewrite length_app. simpl. lia. }
    destruct Hact as [(Hat & Hl)|(Hnab & Hat & Hl)].
    + left. rewrite Hat, Hl. simpl. done.
    + right. rewrite Hat, Hl. simpl in *. split; [done|]. split; [lia|lia].
  - simpl. repeat (split; [done|]). right. split; [done|]. split; [done|].
    split; [congruence|]. left. split; [done|]. by rewrite Hh', Hh.
Qed.

Lemma display_spawn cfg s :
  workers s = [] -> aborted s = false -> main s <> Settled ->
  display_inv cfg s -> display_inv cfg (spawn cfg s).
Proof.
  intros Hw Hab Hm Hd.
  destruct (di_running _ _ Hd Hab Hm) as (Hr & Hg & Hbp & Hat).
  pose proof (di_count _ _ Hd Hab) as Hcnt.
  pose (Q := fun s' : State =>
    main s' = AwaitWorkers /\ aborted s' = false /\ refLive s' = true /\
    isGenerating s' = true /\ bulkProgress s' = bulkProgress s /\
    completedCount s' = completedCount s /\ generatedArticles s' = generatedArticles s /\
    activeTasks s' = Z.of_nat (length (held (workers s')))).
  assert (HQ : Q (spawn cfg s)).
  { apply spawn_ind.
    - unfold Q. simpl. rewrite held_replicate. rewrite Hw in Hat. by repeat split.
    - intros s' i (Hm' & Hab' & Hr' & Hg' & Hbp' & Hcc' & Hga' & Hat') Hi.
      destruct (loop_head_display cfg i NotStarted s' Hi eq_refl)
        as ((Hm1 & Hab1 & Hr1 & Hg1 & Hbp1 & Hcc1 & Hga1) & Hact).
      unfold Q. rewrite Hm1, Hab1, Hr1, Hg1, Hbp1, Hcc1, Hga1.
      repeat (split; [done|]).
      destruct Hact as [(H1 & H2)|(_ & H1 & H2)]; rewrite H1, H2, Hat'; lia. }
  destruct HQ as (Hm' & Hab' & Hr' & Hg' & Hbp' & Hcc' & Hga' & Hat').
  constructor; try congruence.
  intros _ _. repeat (split; [done|]). split; [|done]. by rewrite Hbp', Hcc'.
Qed.

Lemma display_same cfg s s' :
  main s' = main s \/ (main s <> Settled /\ main s' <> Settled) ->
  aborted s' = aborted s -> refLive s' = refLive s ->
  isGenerating s' = isGenerating s -> bulkProgress s' = bulkProgress s ->
  completedCount s' = completedCount s -> generatedArticles s' = generatedArticles s ->
  activeTasks s' = activeTasks s -> workers s' = workers s ->
  display_inv cfg s -> display_inv cfg s'.
Proof.
  intros Hm Hab Hr Hg Hbp Hcc Hga Hat Hw [Dc Dr Dd Dx].
  constructor; rewrite ?Hab, ?Hr, ?Hg, ?Hbp, ?Hcc, ?Hga, ?Hat, ?Hw; try done.
  - intros Ha Hns. apply Dr; [done|]. destruct Hm as [<-|[? _]]; done.
  - intros Ha Hs. apply Dd; [done|]. destruct Hm as [<-|[_ ?]]; done.
Qed.

Lemma display_prescan_stage cfg s :
  workers s = [] -> aborted s = false -> main s <> Settled ->
  display_inv cfg s -> display_inv cfg (prescan_stage cfg s).
Proof.
  intros Hw Hab Hm Hd. unfold prescan_stage.
  assert (Hscan : forall c, display_inv cfg (set_main AwaitPrescan (issue None None c s))).
  { intros c. eapply display_same; [..|exact Hd]; try done. right. by split. }
  destruct (truthy _ && _); [|by apply display_spawn].
  destruct (AIProvider.eqb _ _ && is_provider _ _); [by apply Hscan|].
  destruct (AIProvider.eqb _ _ || is_provider _ _); [by apply Hscan|by apply display_spawn].
Qed.

Lemma display_start cfg : display_inv cfg (handleGenerate cfg).
Proof.
  unfold handleGenerate, bulk_branch.
  destruct (topics cfg) as [|t ts] eqn:Ht.
  - constructor; simpl; done.
  - set (s0 := mkState _ _ _ _ _ _ _ _ _ _ _ _ _ _ _ _).
    assert (H0 : forall m, m <> Settled -> display_inv cfg (set_main m s0)).
    { intros m Hm. constructor; simpl; try done. by rewrite Ht. }
    unfold brand_stage. destruct (_ && _).
    + by apply H0.
    + assert (Hp : forall s1, workers s1 = [] -> aborted s1 = false ->
                     display_inv cfg (set_main AwaitImport s1) ->
                     display_inv cfg (prescan_stage cfg s1)).
      { intros s1 Hw Hab Hd. unfold prescan_stage.
        assert (Hsp : display_inv cfg (spawn cfg s1)).
        { assert (Heq : spawn cfg s1 = spawn cfg (set_main AwaitImport s1)) by done.
          rewrite Heq. by apply display_spawn. }
        assert (Hscan : forall c, display_inv cfg (set_main AwaitPrescan (issue None None c s1))).
        { intros c. eapply display_same; [..|exact Hd]; try done. right. by split. }
        destruct (truthy _ && _); [|done].
        destruct (AIProvider.eqb _ _ && is_provider _ _); [by apply Hscan|].
        destruct (AIProvider.eqb _ _ || is_provider _ _); [by apply Hscan|done]. }
      apply Hp; [done|done|by apply H0].
Qed.

Lemma display_step cfg s ev s' :
  inv cfg s -> display_inv cfg s -> step cfg s ev = Some s' -> display_inv cfg s'.
Proof.
  intros Hinv Hd Hs. pose proof Hinv as [Hcore Hp].
  destruct ev as [r|i r| |]; simpl in Hs.
  - unfold main_resume in Hs.
    assert (Hw : main s <> AwaitWorkers -> main s <> Settled -> workers s = []).
    { intros H1 H2. by destruct (ph_before _ _ Hp H1 H2) as (?&_). }
    destruct (aborted s) eqn:Hab.
    { (* a cancelled handler: nothing the panel shows changes *)
      destruct (di_cancelled _ _ Hd Hab) as (Hr & Hg & Ht & Hat).
      assert (Hsp : forall s1, aborted s1 = true -> refLive s1 = false ->
                isGenerating s1 = false -> total (bulkProgress s1) = 0 ->
                activeTasks s1 = activeTasks s -> workers s1 = [] ->
                display_inv cfg (spawn cfg s1)).
      { intros s1 Hab1 Hr1 Hg1 Ht1 Hat1 Hw1.
        pose (Q := fun s2 : State =>
          aborted s2 = true /\ refLive s2 = false /\ isGenerating s2 = false /\
          total (bulkProgress s2) = 0 /\ activeTasks s2 = activeTasks s).
        assert (HQ : Q (spawn cfg s1)).
        { apply spawn_ind; [by repeat split|].
          intros s2 j (Ha2 & Hr2 & Hg2 & Ht2 & Hat2) Hj.
          destruct (loop_head_display cfg j NotStarted s2 Hj eq_refl)
            as ((Hm3 & Hab3 & Hr3 & Hg3 & Hbp3 & Hcc3 & Hga3) & Hact).
          unfold Q. rewrite Hab3, Hr3, Hg3, Hbp3. repeat (split; [done|]).
          destruct Hact as [(H1 & _)|(H1 & _)]; congruence. }
        destruct HQ as (Ha2 & Hr2 & Hg2 & Ht2 & Hat2).
        constructor; try congruence. intros _. rewrite Hat2. done. }
      assert (Hpre : forall s1, aborted s1 = true -> refLive s1 = false ->
                isGenerating s1 = false -> total (bulkProgress s1) = 0 ->
                activeTasks s1 = activeTasks s -> workers s1 = [] ->
                display_inv cfg (prescan_stage cfg s1)).
      { intros s1 Hab1 Hr1 Hg1 Ht1 Hat1 Hw1. unfold prescan_stage.
        assert (Hscan : forall c, display_inv cfg (set_main AwaitPrescan (issue None None c s1))).
        { intros c. constructor; simpl; try congruence. intros _. by rewrite Hat1. }
        destruct (truthy _ && _); [|by apply Hsp].
        destruct (AIProvider.eqb _ _ && is_provider _ _); [by apply Hscan|].
        destruct (AIProvider.eqb _ _ || is_provider _ _); [by apply Hscan|by apply Hsp]. }
      destruct (main s) eqn:Hm; try done;
        (specialize (Hw ltac:(done) ltac:(done)));
        destruct r as [|[]| | | | |]; try done; injection Hs as <-;
        first [ by apply Hpre | by apply Hsp
              | constructor; simpl; try congruence; intros _; by rewrite ?Hat ]. }
    assert (Hns : main s <> AwaitWorkers -> main s <> Settled -> main s <> Settled) by auto.
    destruct (main s) eqn:Hm; try done;
      (specialize (Hw ltac:(done) ltac:(done)));
      destruct r as [|[]| | | | |]; try done; injection Hs as <-.
    + eapply display_same; [..|exact Hd]; try done. right. rewrite Hm. by split.
    + apply display_prescan_stage; try done. by rewrite Hm.
    + apply display_prescan_stage; try done. by rewrite Hm.
    + apply display_prescan_stage; try done; [simpl; by rewrite Hm|].
      eapply display_same; [..|exact Hd]; try done. by left.
    + apply display_prescan_stage; try done. by rewrite Hm.
    + apply display_spawn; try done; [simpl; by rewrite Hm|].
      eapply display_same; [..|exact Hd]; try done. by left.
    + apply display_spawn; try done. by rewrite Hm.
  - destruct (workers s !! i) as [pc|] eqn:Hi; [|done].
    destruct (may_settle s pc r) eqn:Hok; [|done].
    injection Hs as <-.
    pose proof (worker_turn_phase _ _ _ _ _ Hinv Hi Hok) as Hm.
    destruct (worker_turn_display cfg i pc r s Hi Hok)
      as (Hm' & Hab' & Hr' & Hg' & Ht' & Hcase).
    destruct Hd as [Dc Dr Dd Dx].
    constructor; rewrite ?Hm', ?Hab', ?Hr', ?Hg', ?Ht'.
    + intros Ha. specialize (Dc Ha).
      destruct Hcase as [(Hbp & Hcc & Hga & Hat & Hl)|(Hcc & Hbp & Hga & Hact)].
      * by rewrite Hcc, Hga.
      * rewrite Hcc, (Hga Ha). by rewrite Dc.
    + intros Ha Hns. destruct (Dr Ha Hns) as (Hr & Hg & Hbp0 & Hat0).
      repeat (split; [done|]).
      destruct Hcase as [(Hbp & Hcc & Hga & Hat & Hl)|(Hcc & Hbp & Hga & Hact)].
      * by rewrite Hbp, Hcc, Hat, Hl.
      * rewrite Hbp, Hcc, Hbp0. simpl. split; [done|].
        destruct Hact as [(Hat & Hl)|(_ & Hat & Hl)]; rewrite Hat, Hat0; lia.
    + rewrite Hm. done.
    + intros Ha. destruct (Dx Ha) as (Hr & Hg & Ht & Hat).
      repeat (split; [done|]).
      destruct Hcase as [(Hbp & Hcc & Hga & Hat1 & Hl)|(Hcc & Hbp & Hga & Hact)].
      * by rewrite Hat1.
      * destruct Hact as [(Hat1 & Hl)|(Hna & _)]; [|congruence]. rewrite Hat1. lia.
  - destruct (main s) eqn:Hm; try done. destruct (forallb _ _); [|done].
    injection Hs as <-. destruct Hd as [Dc Dr Dd Dx]. unfold outer_finally.
    destruct (refLive s) eqn:Hr.
    + constructor; simpl; by try done.
    + constructor; simpl; try done; intros Ha;
        first [ by destruct (Dx Ha) as (_ & ? & ? & ?)
              | destruct (Dr Ha) as (? & _); [by rewrite Hm|congruence..] ].
  - injection Hs as <-. unfold handleStopGeneration.
    destruct (refLive s) eqn:Hr; [|done].
    constructor; simpl; done.
Qed.

Lemma reachable_display cfg s : reachable cfg s -> display_inv cfg s.
Proof.
  revert s. apply (reachable_ind cfg (display_inv cfg)); [apply display_start|].
  intros s1 ev s2 Hr H Hs. eapply display_step; [by apply reachable_inv|done..].
Qed.

Lemma suspends_turns k i pc s s' :
  workers s !! i = Some pc -> suspends k i s s' -> main s' = main s ->
  turns_ahead s' + rank pc <= turns_ahead s + k.
Proof.
  intros Hi (pc' & Hk & Hw & Hq) Hm. unfold turns_ahead. rewrite Hw, Hq, Hm.
  pose proof (sum_list_insert rank _ _ _ pc' Hi). lia.
Qed.

Lemma loop_head_turns cfg i pc s :
  workers s !! i = Some pc -> turns_ahead (loop_head cfg i s) + rank pc <= turns_ahead s.
Proof.
  intros Hi.
  destruct (loop_head_frame cfg i s) as ((Hm & _) & _).
  revert Hm. unfold loop_head.
  destruct (queue s) as [|topic rest] eqn:Hq.
  { intros _. unfold turns_ahead. simpl. rewrite Hq.
    pose proof (sum_list_insert rank _ _ _ Returned Hi). simpl in *. lia. }
  destruct (aborted s).
  { intros _. unfold turns_ahead. simpl. rewrite Hq.
    pose proof (sum_list_insert rank _ _ _ Returned Hi). simpl in *. lia. }
  destruct (_ =? _)%string.
  { intros _. unfold turns_ahead. simpl. rewrite Hq.
    pose proof (sum_list_insert rank _ _ _ Returned Hi). simpl in *. lia. }
  set (t := mkTask _ _). set (s2 := setActiveTasks _ _).
  assert (Hi2 : workers s2 !! i = Some pc) by done.
  assert (Hm2 : turns_ahead s2 + 6 = turns_ahead s).
  { unfold turns_ahead. simpl. rewrite Hq. simpl. lia. }
  destruct (isDeepSeekWebMode cfg); intros Hm.
  - assert (Hs : suspends 6 i s2 (set_pc i (AwaitDelay t) s2)) by (by exists (AwaitDelay t)).
    pose proof (suspends_turns _ _ _ _ _ Hi2 Hs Hm). lia.
  - pose proof (suspends_turns _ _ _ _ _ Hi2 (enter_try_rank cfg i t s2) Hm). lia.
Qed.

Lemma worker_turn_turns cfg i r s s' :
  step cfg s (WorkerResume i r) = Some s' -> turns_ahead s' < turns_ahead s.
Proof.
  simpl. destruct (workers s !! i) as [pc|] eqn:Hi; [|done].
  destruct (may_settle s pc r) eqn:Hok; [|done]. intros [= <-].
  destruct (worker_resume_effect cfg i pc r s Hok) as (t0 & _ & Heff).
  destruct (worker_effect_frame _ _ _ _ _ Heff) as ((Hm & _) & _).
  revert Hm. clear Heff t0.
  assert (Hfin : forall s1, workers s1 = workers s -> queue s1 = queue s ->
                 main s1 = main s -> rank pc = 1 ->
                 turns_ahead (loop_head cfg i s1) < turns_ahead s).
  { intros s1 Hw Hq Hm Hr.
    assert (Hi1 : workers s1 !! i = Some pc) by (by rewrite Hw).
    pose proof (loop_head_turns cfg i pc s1 Hi1) as H.
    assert (turns_ahead s1 = turns_ahead s) by (unfold turns_ahead; by rewrite Hw, Hq, Hm).
    lia. }
  destruct pc as [|t|ds t l|ds t l|t l|t l|t l|]; try done.
  - intros Hm. pose proof (suspends_turns _ _ _ _ _ Hi (enter_try_rank cfg i t s) Hm).
    simpl in *. destruct r; simpl in *; lia.
  - destruct r; try done; simpl; intros Hm.
    + assert (Hs : suspends 4 i s
        (await_call i t (nlp_call ds (task_topic t)) (AwaitNLPKeywords ds t (with_primary l kws)) s))
        by (by eexists (AwaitNLPKeywords _ _ _)).
      pose proof (suspends_turns _ _ _ _ _ Hi Hs Hm). simpl in *. lia.
    + pose proof (suspends_turns _ _ _ _ _ Hi (link_stage_rank cfg i t l s) Hm).
      simpl in *. lia.
  - destruct r; try done; simpl; intros Hm.
    + pose proof (suspends_turns _ _ _ _ _ Hi (link_stage_rank cfg i t (with_nlp l kws) s) Hm).
      simpl in *. lia.
    + pose proof (suspends_turns _ _ _ _ _ Hi (link_stage_rank cfg i t l s) Hm).
      simpl in *. lia.
  - destruct r; try done; simpl; intros Hm.
    + pose proof (suspends_turns _ _ _ _ _ Hi
                    (external_stage_rank cfg i t (with_internal l (take 3 links)) s) Hm).
      simpl in *. lia.
    + pose proof (suspends_turns _ _ _ _ _ Hi (external_stage_rank cfg i t l s) Hm).
      simpl in *. lia.
  - destruct r; try done; simpl; intros Hm.
    + pose proof (suspends_turns _ _ _ _ _ Hi
                    (generation_phase_rank cfg i t (with_external l (take 5 links)) s) Hm).
      simpl in *. lia.
    + pose proof (suspends_turns _ _ _ _ _ Hi (generation_phase_rank cfg i t l s) Hm).
      simpl in *. lia.
  - destruct r; try done; simpl; intros Hm.
    + by apply Hfin.
    + destruct (is_AbortError e).
      * unfold turns_ahead. simpl.
        pose proof (sum_list_insert rank _ _ _ Returned Hi). simpl in *. lia.
      * by apply Hfin.
Qed.

Lemma spawn_turns cfg s :
  workers s = [] ->
  turns_ahead (spawn cfg s) + handler_turns_ahead (main s) <= turns_ahead s + 1.
Proof.
  intros Hw.
  apply (spawn_ind cfg
    (fun s' => turns_ahead s' + handler_turns_ahead (main s) <= turns_ahead s + 1)).
  - unfold turns_ahead. simpl. rewrite Hw. simpl.
    assert (Hz : forall n, sum_list (rank <$> replicate n NotStarted) = 0).
    { induction n; [done|]. simpl. done. }
    rewrite Hz. lia.
  - intros s' i H Hi. pose proof (loop_head_turns cfg i _ s' Hi). simpl in *. lia.
Qed.

Lemma prescan_stage_turns cfg s :
  workers s = [] ->
  turns_ahead (prescan_stage cfg s) + handler_turns_ahead (main s) <= turns_ahead s + 2.
Proof.
  intros Hw. unfold prescan_stage.
  pose proof (spawn_turns cfg s Hw) as Hsp.
  assert (Hscan : forall c,
    turns_ahead (set_main AwaitPrescan (issue None None c s)) + handler_turns_ahead (main s)
    <= turns_ahead s + 2).
  { intros c. unfold turns_ahead. simpl. lia. }
  destruct (truthy _ && _); [|lia].
  destruct (AIProvider.eqb _ _ && is_provider _ _); [apply Hscan|].
  destruct (AIProvider.eqb _ _ || is_provider _ _); [apply Hscan|lia].
Qed.

Lemma start_turns cfg : turns_ahead (handleGenerate cfg) <= 6 * length (topics cfg) + 4.
Proof.
  unfold handleGenerate, bulk_branch.
  destruct (topics cfg) as [|t ts] eqn:Ht; [simpl; unfold turns_ahead; simpl; lia|].
  set (s0 := mkState _ _ _ _ _ _ _ _ _ _ _ _ _ _ _ _).
  unfold brand_stage. destruct (_ && _).
  - unfold turns_ahead. simpl. lia.
  - pose proof (prescan_stage_turns cfg s0 eq_refl) as H.
    unfold turns_ahead at 2 in H. simpl in *. lia.
Qed.

Lemma step_turns cfg s ev s' :
  inv cfg s -> step cfg s ev = Some s' ->
  turns_ahead s' + (if is_Stop ev then 0 else 1) <= turns_ahead s.
Proof.
  intros [_ Hp] Hs. destruct ev as [r|i r| |]; unfold is_Stop.
  - simpl in Hs. unfold main_resume in Hs.
    assert (Hw : main s <> AwaitWorkers -> main s <> Settled -> workers s = []).
    { intros H1 H2. by destruct (ph_before _ _ Hp H1 H2) as (?&_). }
    destruct (main s) eqn:Hm; try done;
      (specialize (Hw ltac:(done) ltac:(done)));
      destruct r as [|[]| | | | |]; try done; injection Hs as <-.
    + unfold turns_ahead. simpl. rewrite Hm. simpl. lia.
    + pose proof (prescan_stage_turns cfg s Hw) as H. rewrite Hm in H. simpl in H. lia.
    + pose proof (prescan_stage_turns cfg s Hw) as H. rewrite Hm in H. simpl in H. lia.
    + pose proof (prescan_stage_turns cfg (set_cachedBrandResearch b s) Hw) as H.
      simpl in H. rewrite Hm in H. simpl in H.
      assert (turns_ahead (set_cachedBrandResearch b s) = turns_ahead s) by done. lia.
    + pose proof (prescan_stage_turns cfg s Hw) as H. rewrite Hm in H. simpl in H. lia.
    + pose proof (spawn_turns cfg (set_cachedInternalLinks links s) Hw) as H.
      simpl in H. rewrite Hm in H. simpl in H.
      assert (turns_ahead (set_cachedInternalLinks links s) = turns_ahead s) by done. lia.
    + pose proof (spawn_turns cfg s Hw) as H. rewrite Hm in H. simpl in H. lia.
  - pose proof (worker_turn_turns _ _ _ _ _ Hs). lia.
  - simpl in Hs. destruct (main s) eqn:Hm; try done. destruct (forallb _ _); [|done].
    injection Hs as <-. unfold outer_finally, turns_ahead.
    destruct (refLive s); simpl; rewrite ?Hm; simpl; lia.
  - simpl in Hs. injection Hs as <-. unfold handleStopGeneration, turns_ahead.
    destruct (refLive s); simpl; lia.
Qed.

Lemma run_turns cfg s evs s' :
  reachable cfg s -> run cfg s evs = Some s' ->
  turns_ahead s' + resumptions evs <= turns_ahead s.
Proof.
  revert s. induction evs as [|ev evs IH]; intros s Hr Hrun; simpl in Hrun.
  - injection Hrun as <-. unfold resumptions. simpl. lia.
  - destruct (step cfg s ev) as [s1|] eqn:Hs; [|done].
    pose proof (step_turns _ _ _ _ (reachable_inv _ _ Hr) Hs) as H1.
    pose proof (IH s1 (reachable_step _ _ _ _ Hr Hs) Hrun) as H2.
    unfold resumptions in *. simpl. destruct (is_Stop ev); simpl in *; lia.
Qed.

Lemma reachable_researched_A : reachable (research_batch ["A"]) researched_A.
Proof. exists research_events. vm_compute. reflexivity. Defined.

Lemma reachable_done_AB : reachable (plain_batch ["A"; "B"]) done_AB.
Proof.
  exists [WorkerResume 0 (Resolved_article "A article" []);
          WorkerResume 1 (Resolved_article "B article" []); Join].
  vm_compute. reflexivity.
Defined.

(** ** C8 *)






(** ** The loading panel and the list of articles *)

Section Restored.
Variable prev : list GeneratedArticle.t.
Variable a0 : Z.
Lemma restored_set_main m s :
  set_main m (restored prev a0 s) = restored prev a0 (set_main m s).
Proof. done. Qed.

Lemma restored_set_workers ws s :
  set_workers ws (restored prev a0 s) = restored prev a0 (set_workers ws s).
Proof. done. Qed.

Lemma restored_set_pc i pc s :
  set_pc i pc (restored prev a0 s) = restored prev a0 (set_pc i pc s).
Proof. done. Qed.

Lemma restored_issue who task c s :
  issue who task c (restored prev a0 s) = restored prev a0 (issue who task c s).
Proof. done. Qed.

Lemma restored_shift i s : shift i (restored prev a0 s) = restored prev a0 (shift i s).
Proof. done. Qed.

Lemma restored_setActiveTasks_succ s :
  setActiveTasks Z.succ (restored prev a0 s) = restored prev a0 (setActiveTasks Z.succ s).
Proof.
  unfold restored, setActiveTasks; simpl. f_equal. destruct (refLive s); lia.
Qed.

Lemma restored_setGeneratedArticles idx a s :
  setGeneratedArticles idx a (restored prev a0 s) = restored prev a0 (setGeneratedArticles idx a s).
Proof. unfold restored, setGeneratedArticles; simpl. f_equal. by rewrite app_assoc. Qed.

Lemma restored_finally_block s :
  finally_block (restored prev a0 s) = restored prev a0 (finally_block s).
Proof.
  unfold restored, finally_block; simpl. f_equal. destruct (refLive s); lia.
Qed.

Lemma restored_set_cachedBrandResearch b s :
  set_cachedBrandResearch b (restored prev a0 s) = restored prev a0 (set_cachedBrandResearch b s).
Proof. done. Qed.

Lemma restored_set_cachedInternalLinks ls s :
  set_cachedInternalLinks ls (restored prev a0 s) = restored prev a0 (set_cachedInternalLinks ls s).
Proof. done. Qed.

Lemma restored_outer_finally s :
  outer_finally (restored prev a0 s) = restored prev a0 (outer_finally s).
Proof. unfold outer_finally, set_main, restored; simpl. by destruct (refLive s). Qed.

Lemma restored_handleStopGeneration s :
  handleStopGeneration (restored prev a0 s) = restored prev a0 (handleStopGeneration s).
Proof.
  unfold handleStopGeneration, restored; simpl.
  destruct (refLive s) eqn:E; simpl; by rewrite ?E.
Qed.

Lemma restored_await_call i t c pc s :
  await_call i t c pc (restored prev a0 s) = restored prev a0 (await_call i t c pc s).
Proof. done. Qed.

Lemma restored_generation_phase cfg i t l s :
  generation_phase cfg i t l (restored prev a0 s) = restored prev a0 (generation_phase cfg i t l s).
Proof. done. Qed.

Lemma restored_external_stage cfg i t l s :
  external_stage cfg i t l (restored prev a0 s) = restored prev a0 (external_stage cfg i t l s).
Proof. unfold external_stage. by destruct (ArticleConfig.enableExternalLinks cfg). Qed.

Lemma restored_link_stage cfg i t l s :
  link_stage cfg i t l (restored prev a0 s) = restored prev a0 (link_stage cfg i t l s).
Proof.
  unfold link_stage. destruct (truthy _); [|apply restored_external_stage].
  change (cachedInternalLinks (restored prev a0 s)) with (cachedInternalLinks s).
  destruct (cachedInternalLinks s); [|apply restored_external_stage].
  destruct (_ && _); [done|]. destruct (_ || _); [done|apply restored_external_stage].
Qed.

Lemma restored_enter_try cfg i t s :
  enter_try cfg i t (restored prev a0 s) = restored prev a0 (enter_try cfg i t s).
Proof. unfold enter_try. by destruct (ArticleConfig.autoOptimize cfg). Qed.

Lemma restored_loop_head cfg i s :
  loop_head cfg i (restored prev a0 s) = restored prev a0 (loop_head cfg i s).
Proof.
  unfold loop_head. change (queue (restored prev a0 s)) with (queue s).
  change (aborted (restored prev a0 s)) with (aborted s). change (claims (restored prev a0 s)) with (claims s).
  destruct (queue s) as [|topic q]; [done|].
  destruct (aborted s); [done|]. rewrite restored_shift.
  destruct (topic =? "")%string; [done|].
  rewrite restored_setActiveTasks_succ.
  destruct (isDeepSeekWebMode cfg); [done|apply restored_enter_try].
Qed.

Lemma restored_worker_resume cfg i pc r s :
  worker_resume cfg i pc r (restored prev a0 s) = restored prev a0 (worker_resume cfg i pc r s).
Proof.
  destruct pc; simpl; try done.
  - apply restored_enter_try.
  - destruct r; first [done | apply restored_link_stage].
  - destruct r; apply restored_link_stage.
  - destruct r; apply restored_external_stage.
  - destruct r; done.
  - destruct r; try done.
    + by rewrite restored_setGeneratedArticles, restored_finally_block, restored_loop_head.
    + destruct (is_AbortError e).
      * by rewrite restored_finally_block.
      * by rewrite restored_setGeneratedArticles, restored_finally_block, restored_loop_head.
Qed.

Lemma restored_spawn cfg s :
  spawn cfg (restored prev a0 s) = restored prev a0 (spawn cfg s).
Proof.
  unfold spawn.
  change (set_workers (replicate (pool_size cfg) NotStarted) (set_main AwaitWorkers (restored prev a0 s)))
    with (restored prev a0 (set_workers (replicate (pool_size cfg) NotStarted) (set_main AwaitWorkers s))).
  generalize (set_workers (replicate (pool_size cfg) NotStarted) (set_main AwaitWorkers s)).
  induction (seq 0 (pool_size cfg)) as [|i l IH]; intros s0; simpl; [done|].
  by rewrite restored_loop_head, IH.
Qed.

Lemma restored_prescan_stage cfg s :
  prescan_stage cfg (restored prev a0 s) = restored prev a0 (prescan_stage cfg s).
Proof.
  unfold prescan_stage. destruct (_ && _); [|apply restored_spawn].
  destruct (_ && _); [done|]. destruct (_ || _); [done|apply restored_spawn].
Qed.

Lemma restored_brand_stage cfg s :
  brand_stage cfg (restored prev a0 s) = restored prev a0 (brand_stage cfg s).
Proof. unfold brand_stage. destruct (_ && _); [done|apply restored_prescan_stage]. Qed.

Lemma restored_start cfg :
  handleGenerate_on prev a0 cfg = restored prev a0 (handleGenerate cfg).
Proof.
  unfold handleGenerate_on, handleGenerate, bulk_branch_on, bulk_branch.
  destruct (topics cfg) as [|t ts].
  - unfold outer_finally, catch_block, restored. simpl. by rewrite app_nil_r.
  - rewrite <- restored_brand_stage. f_equal. unfold restored. simpl.
    rewrite app_nil_r. f_equal. lia.
Qed.

Lemma restored_step cfg s ev :
  step cfg (restored prev a0 s) ev = restored prev a0 <$> step cfg s ev.
Proof.
  destruct ev as [r|i r| |]; simpl.
  - unfold main_resume. change (main (restored prev a0 s)) with (main s).
    destruct (main s); destruct r as [|[]| | | | |]; simpl; try done;
      by rewrite ?restored_set_cachedBrandResearch, ?restored_set_cachedInternalLinks,
           ?restored_prescan_stage, ?restored_spawn.
  - change (workers (restored prev a0 s)) with (workers s).
    destruct (workers s !! i) as [pc|]; [|done].
    assert (Hok : may_settle (restored prev a0 s) pc r = may_settle s pc r) by (by destruct pc, r).
    rewrite Hok. destruct (may_settle s pc r); [|done]. simpl.
    by rewrite restored_worker_resume.
  - change (main (restored prev a0 s)) with (main s). destruct (main s); try done.
    change (workers (restored prev a0 s)) with (workers s).
    destruct (forallb is_Returned (workers s)); [|done]. simpl.
    by rewrite restored_outer_finally.
  - by rewrite restored_handleStopGeneration.
Qed.

Lemma restored_run cfg s evs :
  run cfg (restored prev a0 s) evs = restored prev a0 <$> run cfg s evs.
Proof.
  revert s. induction evs as [|ev evs IH]; intros s; simpl; [done|].
  rewrite restored_step. destruct (step cfg s ev) as [s1|]; simpl; [apply IH|done].
Qed.

(** A state of the run that found [prev] and [a0] is a state of the run
    counted from nothing, with [prev] listed before its entries. *)
Lemma reachable_on_restored cfg s :
  reachable_on prev a0 cfg s <-> exists s0, reachable cfg s0 /\ s = restored prev a0 s0.
Proof.
  unfold reachable_on, reachable. rewrite restored_start. split.
  - intros (evs & Hrun). rewrite restored_run in Hrun.
    destruct (run cfg (handleGenerate cfg) evs) as [s0|] eqn:H0; [|done].
    injection Hrun as <-. exists s0. split; [by exists evs|done].
  - intros (s0 & (evs & Hrun) & ->). exists evs. by rewrite restored_run, Hrun.
Qed.

End Restored.

(** A run that finds nothing listed and the active count at 0 is the run
    counted from nothing. *)
Lemma handleGenerate_on_fresh cfg : handleGenerate_on [] 0 cfg = handleGenerate cfg.
Proof. reflexivity. Qed.

Lemma reachable_running_AB_on :
  reachable_on [old_article] (-1) (plain_batch ["A"; "B"]) running_AB_on.
Proof.
  exists [WorkerResume 0 (Resolved_article "A article" [])]. vm_compute. reflexivity.
Defined.

Lemma reachable_stopped_A_on : reachable_on [old_article] 3 (plain_batch ["A"]) stopped_A_on.
Proof. exists [Stop]. vm_compute. reflexivity. Defined.

(** X1.  The service calls of a bulk run are bounded by the topics it has
    claimed: at most five calls per claimed topic (two keyword calls, two
    link scans, one generation call) plus the handler's two pre-fetches;
    hence at most [5 N + 2] calls for a batch of [N] topics. *)
Theorem call_budget_bound (cfg : ArticleConfig.t) (s : State) :
  reachable cfg s ->
  length (calls s) <= 5 * length (claims s) + 2 /\
  length (calls s) <= 5 * length (topics cfg) + 2.
Proof.
  intros Hr. pose proof (reachable_budget _ _ Hr) as Hb.
  destruct (reachable_inv _ _ Hr) as [Hc _].
  pose proof (inv_queue _ _ Hc) as Hq. pose proof (inv_claimed _ _ Hc) as Hcl.
  unfold call_budget in Hb. rewrite Hq, length_drop in Hb. lia.
Qed.

Lemma call_budget_bound_witness :
  reachable (research_batch ["A"]) researched_A /\
  length (calls researched_A) = 7 /\
  length (calls researched_A) <= 5 * 1 + 2.
Proof.
  split; [exact reachable_researched_A|]. split; [reflexivity|].
  exact (proj2 (call_budget_bound _ researched_A reachable_researched_A)).
Defined.

Lemma count_generated (cs : list Issued) :
  (forall c, c ∈ cs -> is_generation (call c) = true -> is_Some (for_task c)) ->
  length (generated cs) = count (fun c => is_generation (call c)) cs.
Proof.
  unfold count, generated, is_generation.
  induction cs as [|c cs IH]; intros Hall; simpl; [done|].
  assert (IH' := IH (fun c0 H0 => Hall c0 (list_elem_of_further _ _ _ H0))).
  destruct (generation_config (call c)) eqn:Hc; simpl; [|exact IH'].
  destruct (Hall c) as [k Hk]; [by left|unfold is_generation; by rewrite Hc|].
  rewrite Hk. simpl. f_equal. exact IH'.
Qed.

(** X2.  No topic is generated twice.  The generation calls of a run are
    for pairwise distinct claimed queue positions, so there are at most as
    many of them as topics claimed; each is made in single mode with the
    topic at its queue position; every entry was preceded by the
    generation call for its position; and a valid batch that ends without
    cancellation has made exactly one generation call per topic. *)
Theorem one_generation_call_per_topic (cfg : ArticleConfig.t) (s : State) :
  reachable cfg s ->
  NoDup (generated (calls s)) /\
  count (fun c => is_generation (call c)) (calls s) = length (generated (calls s)) /\
  count (fun c => is_generation (call c)) (calls s) <= length (claims s) /\
  (forall c c',
     c ∈ calls s -> generation_config (call c) = Some c' ->
     exists k, for_task c = Some k /\ k < length (claims s) /\
               topics cfg !! k = Some (ArticleConfig.topic c') /\
               ArticleConfig.mode c' = ArticleConfig.single) /\
  (forall k, k ∈ reported s -> k ∈ generated (calls s)) /\
  (valid cfg -> main s = Settled -> aborted s = false ->
   generated (calls s) ≡ₚ seq 0 (length (topics cfg)) /\
   count (fun c => is_generation (call c)) (calls s) = length (topics cfg)).
Proof.
  intros Hr. destruct (reachable_gen_inv _ _ Hr) as [Gnd Gbd Gpend Ginfl Grep Gcfg].
  assert (Hcount : length (generated (calls s))
                   = count (fun c => is_generation (call c)) (calls s)).
  { apply count_generated. intros c Hin Hg. unfold is_generation in Hg.
    destruct (generation_config (call c)) as [c'|] eqn:Hc; [|done].
    destruct (Gcfg c c' Hin Hc) as (k & Hk & _). by exists k. }
  assert (Hlen : length (generated (calls s)) <= length (claims s)).
  { assert (Hsub : generated (calls s) ⊆+ seq 0 (length (claims s))).
    { apply NoDup_submseteq; [done|]. intros k Hk. apply elem_of_seq.
      rewrite Forall_forall in Gbd. apply Gbd in Hk. lia. }
    apply submseteq_length in Hsub. by rewrite length_seq in Hsub. }
  split; [done|]. split; [done|]. split; [lia|]. split; [|split; [done|]].
  - intros c c' Hin Hc. destruct (Gcfg c c' Hin Hc) as (k & Hk & Ht & Hm).
    exists k. repeat split; try done.
    rewrite Forall_forall in Gbd. apply Gbd. unfold generated.
    apply list_elem_of_omap. exists c. split; [done|]. by rewrite Hc.
  - intros Hv Hm Hab.
    destruct (exact_entries _ _ Hv Hr Hm Hab) as [_ Hperm].
    destruct (reachable_inv _ _ Hr) as [Hc _]. pose proof (inv_claimed _ _ Hc) as Hcl.
    assert (Hp : generated (calls s) ≡ₚ seq 0 (length (topics cfg))).
    { apply submseteq_length_Permutation.
      - apply NoDup_submseteq; [done|]. intros k Hk. apply elem_of_seq.
        rewrite Forall_forall in Gbd. apply Gbd in Hk. lia.
      - apply submseteq_length. apply NoDup_submseteq; [apply NoDup_seq|].
        intros k Hk. apply Grep. by rewrite Hperm. }
    split; [done|]. by rewrite <- Hcount, Hp, length_seq.
Qed.

Lemma one_generation_call_per_topic_witness :
  reachable (plain_batch ["A"; "B"]) done_AB /\
  valid (plain_batch ["A"; "B"]) /\
  count (fun c => is_generation (call c)) (calls done_AB) = 2.
Proof.
  split; [exact reachable_done_AB|].
  assert (Hv : valid (plain_batch ["A"; "B"])).
  { split; [discriminate|]. repeat constructor; discriminate. }
  split; [exact Hv|].
  exact (proj2 (proj2 (proj2 (proj2 (proj2 (proj2
           (one_generation_call_per_topic _ done_AB reachable_done_AB)))))
           Hv eq_refl eq_refl)).
Defined.

(** X3.  While a bulk run that has not been cancelled is under way, the
    loading panel shows what this run has done.  The list holds the
    entries [prev] that the run found, followed by those it has appended;
    the total is the number of topics, the completed count is the number
    of appended entries, and the active count is the count [a0] that the
    run found plus the number of workers that hold a topic, which is at
    most the pool size.  When such a run has ended the panel is reset: 0 of
    0, nothing active.  (The states are those of the run's own events: no
    other run writes the panel meanwhile, and nothing is removed from the
    list.) *)
Theorem progress_panel_truthful (prev : list GeneratedArticle.t) (a0 : Z)
    (cfg : ArticleConfig.t) (s : State) :
  reachable_on prev a0 cfg s -> aborted s = false ->
  exists appended,
    generatedArticles s = prev ++ appended /\
    (main s <> Settled ->
     isGenerating s = true /\
     total (bulkProgress s) = length (topics cfg) /\
     completed (bulkProgress s) = length appended /\
     activeTasks s = (a0 + Z.of_nat (length (held (workers s))))%Z /\
     length (held (workers s)) <= pool_size cfg) /\
    (main s = Settled ->
     isGenerating s = false /\ bulkProgress s = mkProgress 0 0 /\ activeTasks s = 0%Z).
Proof.
  intros (s0 & Hr & ->)%reachable_on_restored Hab.
  change (aborted s0 = false) in Hab.
  exists (generatedArticles s0). split; [done|].
  pose proof (reachable_display _ _ Hr) as Hd.
  destruct (reachable_inv _ _ Hr) as [Hc Hp]. split.
  - intros Hm. change (main s0 <> Settled) in Hm.
    destruct (di_running _ _ Hd Hab Hm) as (Hlive & Hg & Hbp & Hat).
    pose proof (di_count _ _ Hd Hab) as Hcnt.
    unfold restored; simpl. rewrite Hlive, Hbp, Hat. simpl.
    repeat (split; [done|]).
    pose proof (held_length_le (workers s0)) as Hle.
    destruct (main s0) eqn:Hmain; try done.
    1-3: destruct (ph_before _ _ Hp) as (Hw & _); [congruence..|];
         rewrite Hw; simpl; lia.
    destruct (ph_pool _ _ Hp (or_introl Hmain)) as [Hl _]. lia.
  - intros Hm. change (main s0 = Settled) in Hm.
    destruct (di_done _ _ Hd Hab Hm) as (Hlive & ? & ? & ?).
    unfold restored; simpl. by rewrite Hlive.
Qed.

Lemma progress_panel_truthful_witness :
  reachable_on [old_article] (-1) (plain_batch ["A"; "B"]) running_AB_on /\
  aborted running_AB_on = false /\ main running_AB_on <> Settled /\
  length (generatedArticles running_AB_on) = 2 /\
  bulkProgress running_AB_on = mkProgress 1 2 /\
  activeTasks running_AB_on = 0%Z /\
  exists appended,
    generatedArticles running_AB_on = [old_article] ++ appended /\
    completed (bulkProgress running_AB_on) = length appended /\
    activeTasks running_AB_on
    = (-1 + Z.of_nat (length (held (workers running_AB_on))))%Z.
Proof.
  split; [exact reachable_running_AB_on|]. split; [reflexivity|].
  split; [discriminate|]. split; [reflexivity|]. split; [reflexivity|].
  split; [reflexivity|].
  destruct (progress_panel_truthful [old_article] (-1) _ running_AB_on
              reachable_running_AB_on eq_refl) as (appended & Hg & Hrun & _).
  exists appended. split; [exact Hg|].
  assert (Hm : main running_AB_on <> Settled) by discriminate.
  split; [exact (proj1 (proj2 (proj2 (Hrun Hm))))
         |exact (proj1 (proj2 (proj2 (proj2 (Hrun Hm)))))].
Defined.

Lemma cancelled_step cfg s ev s' :
  inv cfg s -> display_inv cfg s -> aborted s = true -> step cfg s ev = Some s' ->
  aborted s' = true /\ completedCount s <= completedCount s' /\
  activeTasks s' = (activeTasks s - Z.of_nat (completedCount s' - completedCount s))%Z.
Proof.
  intros Hinv Hd Hab Hs. pose proof Hinv as [Hcore Hp].
  destruct (di_cancelled _ _ Hd Hab) as (Href & _).
  assert (Hquiet : forall s2 : State, aborted s2 = true ->
            completedCount s2 = completedCount s -> activeTasks s2 = activeTasks s ->
            aborted s2 = true /\ completedCount s <= completedCount s2 /\
            activeTasks s2 = (activeTasks s - Z.of_nat (completedCount s2 - completedCount s))%Z).
  { intros s2 ? Hc2 Hat2. rewrite Hc2, Hat2. split; [done|]. split; lia. }
  destruct ev as [r|i r| |]; simpl in Hs.
  - unfold main_resume in Hs.
    assert (Hsp : forall s1, aborted s1 = true -> completedCount s1 = completedCount s ->
              activeTasks s1 = activeTasks s ->
              aborted (spawn cfg s1) = true /\
              completedCount s <= completedCount (spawn cfg s1) /\
              activeTasks (spawn cfg s1)
              = (activeTasks s - Z.of_nat (completedCount (spawn cfg s1) - completedCount s))%Z).
    { intros s1 Ha1 Hc1 Hat1.
      apply (spawn_ind cfg (fun s2 => aborted s2 = true /\
               completedCount s <= completedCount s2 /\
               activeTasks s2 = (activeTasks s - Z.of_nat (completedCount s2 - completedCount s))%Z)).
      - by apply Hquiet.
      - intros s2 j (Ha2 & Hc2 & Hat2) Hj.
        destruct (loop_head_display cfg j NotStarted s2 Hj eq_refl)
          as ((_ & Hab3 & _ & _ & _ & Hcc3 & _) & Hact).
        rewrite Hab3, Hcc3. split; [done|]. split; [done|].
        destruct Hact as [(H1 & _)|(H1 & _)]; congruence. }
    assert (Hpre : forall s1, aborted s1 = true -> completedCount s1 = completedCount s ->
              activeTasks s1 = activeTasks s ->
              aborted (prescan_stage cfg s1) = true /\
              completedCount s <= completedCount (prescan_stage cfg s1) /\
              activeTasks (prescan_stage cfg s1)
              = (activeTasks s
                 - Z.of_nat (completedCount (prescan_stage cfg s1) - completedCount s))%Z).
    { intros s1 Ha1 Hc1 Hat1. unfold prescan_stage.
      destruct (truthy _ && _); [|by apply Hsp].
      destruct (AIProvider.eqb _ _ && is_provider _ _); [by apply Hquiet|].
      destruct (AIProvider.eqb _ _ || is_provider _ _); [by apply Hquiet|by apply Hsp]. }
    destruct (main s) eqn:Hm; try done;
      destruct r as [|[]| | | | |]; try done; injection Hs as <-;
      first [ by apply Hpre | by apply Hsp | by apply Hquiet ].
  - destruct (workers s !! i) as [pc|] eqn:Hi; [|done].
    destruct (may_settle s pc r) eqn:Hok; [|done].
    injection Hs as <-.
    destruct (worker_turn_display cfg i pc r s Hi Hok)
      as (_ & Hab' & _ & _ & _ & Hcase).
    rewrite Hab'. split; [done|].
    destruct Hcase as [(_ & Hcc & _ & Hat & _)|(Hcc & _ & _ & Hact)].
    + rewrite Hcc, Hat. split; lia.
    + destruct Hact as [(Hat & _)|(Hna & _)]; [|congruence].
      rewrite Hcc, Hat. split; lia.
  - destruct (main s) eqn:Hm; try done. destruct (forallb _ _); [|done].
    injection Hs as <-. unfold outer_finally. rewrite Href. by apply Hquiet.
  - injection Hs as <-. unfold handleStopGeneration. rewrite Href. by apply Hquiet.
Qed.

Lemma cancelled_run cfg s evs s' :
  reachable cfg s -> aborted s = true -> run cfg s evs = Some s' ->
  aborted s' = true /\ completedCount s <= completedCount s' /\
  activeTasks s' = (activeTasks s - Z.of_nat (completedCount s' - completedCount s))%Z.
Proof.
  revert s. induction evs as [|ev evs IH]; intros s Hr Hab Hrun; simpl in Hrun.
  - injection Hrun as <-. split; [done|]. split; lia.
  - destruct (step cfg s ev) as [s1|] eqn:Hs; [|done].
    destruct (cancelled_step _ _ _ _ (reachable_inv _ _ Hr) (reachable_display _ _ Hr) Hab Hs)
      as (Hab1 & Hc1 & Hat1).
    destruct (IH s1 (reachable_step _ _ _ _ Hr Hs) Hab1 Hrun) as (Hab2 & Hc2 & Hat2).
    split; [done|]. split; lia.
Qed.

(** X4.  Once a run has been cancelled, and for as long as only its own
    events follow (its pending calls settle, Stop is clicked again; no new
    generation is started), the loading state stays off and the progress
    total stays 0; no topic becomes active any more, and each iteration
    that finishes afterwards still counts as completed and lowers the
    active count, which therefore ends below zero by the number of
    iterations that were in flight: the handler's [finally] does not reset
    the panel of a cancelled run.  This holds whatever the list and the
    active count were when the run started. *)
Theorem cancelled_panel_counts
    (prev : list GeneratedArticle.t) (a0 : Z)
    (cfg : ArticleConfig.t) (s : State) (evs : list Event) (s' : State) :
  reachable_on prev a0 cfg s -> aborted s = true -> run cfg s evs = Some s' ->
  aborted s' = true /\
  isGenerating s' = false /\ total (bulkProgress s') = 0 /\
  completedCount s <= completedCount s' /\
  activeTasks s' = (activeTasks s - Z.of_nat (completedCount s' - completedCount s))%Z /\
  (activeTasks s' <= 0)%Z.
Proof.
  intros (s0 & Hr & ->)%reachable_on_restored Hab Hrun.
  change (aborted s0 = true) in Hab.
  rewrite restored_run in Hrun.
  destruct (run cfg s0 evs) as [s1|] eqn:Hrun0; [|done]. injection Hrun as <-.
  destruct (cancelled_run _ _ _ _ Hr Hab Hrun0) as (Hab' & Hcc & Hat).
  destruct (di_cancelled _ _ (reachable_display _ _ Hr) Hab) as (Hlive & _).
  pose proof (reachable_display _ _ (reachable_run _ _ _ _ Hr Hrun0)) as Hd'.
  destruct (di_cancelled _ _ Hd' Hab') as (Hlive' & Hg & Ht & Hle).
  unfold restored; simpl. rewrite Hlive, Hlive'. done.
Qed.

Lemma cancelled_panel_counts_witness :
  reachable_on [old_article] 3 (plain_batch ["A"]) stopped_A_on /\
  aborted stopped_A_on = true /\
  run (plain_batch ["A"]) stopped_A_on [WorkerResume 0 (Rejected AbortError); Join]
  = Some stopped_A_end_on /\
  activeTasks stopped_A_on = 0%Z /\
  main stopped_A_end_on = Settled /\
  activeTasks stopped_A_end_on = (-1)%Z.
Proof.
  assert (Hrun : run (plain_batch ["A"]) stopped_A_on
                   [WorkerResume 0 (Rejected AbortError); Join]
                 = Some stopped_A_end_on) by (vm_compute; reflexivity).
  split; [exact reachable_stopped_A_on|]. split; [reflexivity|]. split; [exact Hrun|].
  split; [reflexivity|]. split; [reflexivity|].
  exact (proj1 (proj2 (proj2 (proj2 (proj2
           (cancelled_panel_counts [old_article] 3 _ stopped_A_on _ stopped_A_end_on
              reachable_stopped_A_on eq_refl Hrun)))))).
Defined.

(** X5.  A run is finite: apart from clicks on "Stop Generating", the
    events of a run are at most six resumptions per topic (the pause, two
    keyword calls, two link scans, the generation call) and four of the
    handler (the import, the brand analysis, the link pre-scan, the end of
    [Promise.all]). *)
Theorem bounded_run (cfg : ArticleConfig.t) (evs : list Event) (s : State) :
  run cfg (handleGenerate cfg) evs = Some s ->
  resumptions evs <= 6 * length (topics cfg) + 4.
Proof.
  intros Hrun.
  pose proof (run_turns _ _ _ _ (reachable_start cfg) Hrun).
  pose proof (start_turns cfg). lia.
Qed.

Lemma bounded_run_witness :
  run (research_batch ["A"]) (handleGenerate (research_batch ["A"])) research_events
  = Some researched_A /\
  resumptions research_events = 10 /\
  resumptions research_events <= 6 * 1 + 4.
Proof.
  assert (Hrun : run (research_batch ["A"]) (handleGenerate (research_batch ["A"]))
                   research_events = Some researched_A) by (vm_compute; reflexivity).
  split; [exact Hrun|]. split; [reflexivity|].
  exact (bounded_run _ _ _ Hrun).
Defined.

Lemma single_inv_start cfg prev : SingleMode.inv cfg prev (SingleMode.handleGenerate cfg prev).
Proof.
  constructor; simpl; try done.
  - intros [?|?]; done.
Qed.

Lemma single_inv_step cfg prev s ev s' :
  SingleMode.inv cfg prev s -> SingleMode.step cfg s ev = Some s' ->
  SingleMode.inv cfg prev s'.
Proof.
  intros [Hcalls Href Hwait Hidle Hdone] Hstep.
  destruct ev as [r|]; simpl in Hstep.
  - unfold SingleMode.resume in Hstep.
    destruct (SingleMode.pc s) eqn:Hpc; [|done].
    destruct (Hwait eq_refl) as (Hprev & Herr & Hlive).
    destruct r as [| | | | |content sources|e]; try done; injection Hstep as <-.
    + unfold SingleMode.outer_finally, SingleMode.inner_finally; simpl.
      destruct (SingleMode.refLive s) eqn:Hr; constructor; simpl; try done.
      * intros _. left. exists content, sources. by rewrite Hprev.
      * intros _. destruct (SingleMode.aborted s) eqn:Ha.
        -- by destruct (Hidle (or_intror eq_refl)) as (? & ? & _).
        -- destruct (Hlive eq_refl) as (? & _). congruence.
      * intros _. left. exists content, sources. by rewrite Hprev.
    + unfold SingleMode.outer_finally, SingleMode.catch_block, SingleMode.inner_finally,
        SingleMode.shown.
      destruct (is_AbortError e) eqn:He; simpl;
        destruct (SingleMode.refLive s) eqn:Hr; constructor; simpl; try done;
        try (intros _; right; exists e; unfold SingleMode.shown; by rewrite He, ?Hprev, ?Herr);
        intros _; destruct (SingleMode.aborted s) eqn:Ha;
        try (by destruct (Hidle (or_intror eq_refl)) as (? & ? & _));
        destruct (Hlive eq_refl) as (? & _); congruence.
  - injection Hstep as <-. unfold SingleMode.handleStopGeneration.
    destruct (SingleMode.refLive s) eqn:Hr; [|constructor; rewrite ?Hr; assumption].
    destruct (Href eq_refl) as [Hpc Ha].
    destruct (Hwait Hpc) as (Hprev & Herr & _).
    constructor; simpl; by try done.
Qed.

Lemma single_inv_run cfg prev evs s s' :
  SingleMode.inv cfg prev s -> SingleMode.run cfg s evs = Some s' ->
  SingleMode.inv cfg prev s'.
Proof.
  revert s. induction evs as [|ev evs IH]; intros s Hs; simpl.
  - by intros [= <-].
  - destruct (SingleMode.step cfg s ev) as [s1|] eqn:Hstep; [|done].
    apply IH. by eapply single_inv_step.
Qed.

(** A run has at most one settlement, and nothing but clicks on "stop"
    around it. *)
Lemma single_run_done cfg s evs s' :
  SingleMode.pc s = SingleMode.Done -> SingleMode.run cfg s evs = Some s' ->
  SingleMode.pc s' = SingleMode.Done /\ Forall (fun ev => ev = SingleMode.Stop) evs.
Proof.
  revert s. induction evs as [|ev evs IH]; intros s Hpc; simpl.
  - by intros [= <-].
  - destruct ev as [r|]; simpl.
    + unfold SingleMode.resume. by rewrite Hpc.
    + intros H. apply IH in H as [? ?]; [by split; [|constructor]|].
      unfold SingleMode.handleStopGeneration. by destruct (SingleMode.refLive s).
Qed.

Lemma single_stop_keeps s :
  SingleMode.pc (SingleMode.handleStopGeneration s) = SingleMode.pc s /\
  SingleMode.generatedArticles (SingleMode.handleStopGeneration s)
  = SingleMode.generatedArticles s /\
  SingleMode.error (SingleMode.handleStopGeneration s) = SingleMode.error s.
Proof. unfold SingleMode.handleStopGeneration. by destruct (SingleMode.refLive s). Qed.

Lemma single_run_after cfg s evs s' :
  SingleMode.pc s = SingleMode.Done -> SingleMode.run cfg s evs = Some s' ->
  Forall (fun ev => ev = SingleMode.Stop) evs /\
  SingleMode.generatedArticles s' = SingleMode.generatedArticles s /\
  SingleMode.error s' = SingleMode.error s.
Proof.
  revert s. induction evs as [|ev evs IH]; intros s Hpc; simpl.
  - by intros [= <-].
  - destruct ev as [r|]; simpl.
    + unfold SingleMode.resume. by rewrite Hpc.
    + destruct (single_stop_keeps s) as (Hp & Hg & He).
      intros H. apply IH in H as (? & -> & ->); [|congruence].
      split; [by constructor|done].
Qed.

Lemma single_resume_outcome cfg prev r s s' :
  SingleMode.generatedArticles s = prev -> SingleMode.error s = None ->
  SingleMode.resume cfg r s = Some s' ->
  SingleMode.pc s' = SingleMode.Done /\
  SingleMode.generatedArticles s' = prev ++ single_articles cfg r /\
  SingleMode.error s' = single_error r.
Proof.
  intros Hg He. unfold SingleMode.resume.
  destruct (SingleMode.pc s); [|done].
  destruct r as [| | | | |content sources|e]; try done; intros [= <-].
  - unfold SingleMode.outer_finally, SingleMode.inner_finally. simpl.
    destruct (SingleMode.refLive s); simpl; by rewrite ?Hg, ?He.
  - unfold SingleMode.outer_finally, SingleMode.catch_block, SingleMode.inner_finally,
      single_error, single_articles, SingleMode.shown.
    destruct (is_AbortError e); simpl; destruct (SingleMode.refLive s); simpl;
      by rewrite ?Hg, ?He, ?app_nil_r.
Qed.

Lemma single_run_shape cfg prev s evs s' :
  SingleMode.pc s = SingleMode.AwaitResult ->
  SingleMode.generatedArticles s = prev -> SingleMode.error s = None ->
  SingleMode.run cfg s evs = Some s' -> SingleMode.pc s' = SingleMode.Done ->
  exists before r after,
    evs = before ++ SingleMode.Settle r :: after /\
    Forall (fun ev => ev = SingleMode.Stop) before /\
    Forall (fun ev => ev = SingleMode.Stop) after /\
    SingleMode.generatedArticles s' = prev ++ single_articles cfg r /\
    SingleMode.error s' = single_error r.
Proof.
  revert s. induction evs as [|ev evs IH]; intros s Hpc Hg He; simpl.
  - intros [= <-]. congruence.
  - destruct ev as [r|]; simpl.
    + destruct (SingleMode.resume cfg r s) as [s1|] eqn:Hres; [|done].
      destruct (single_resume_outcome cfg prev r s s1 Hg He Hres) as (Hd & Hg1 & He1).
      intros Hrun _. destruct (single_run_after cfg s1 evs s' Hd Hrun) as (Hstops & -> & ->).
      exists [], r, evs. by repeat split.
    + destruct (single_stop_keeps s) as (Hp & Hg' & He').
      intros Hrun Hdone.
      destruct (IH (SingleMode.handleStopGeneration s)) as (b & r & a & -> & Hb & Ha & ? & ?);
        try congruence.
      exists (SingleMode.Stop :: b), r, a. repeat split; try done. by constructor.
Qed.

(** X6.  A run for a single article.  It makes one call, the generation
    for the configuration as submitted.  While it waits and "stop" was not
    clicked, the panel shows one task of one; once it is over or stopped,
    the panel is idle with no task, also when the result comes after the
    stop.  A finished run had exactly one settlement, with clicks on
    "stop" around it at most: a result appends one completed article
    titled with the topic and shows no error; a rejection appends nothing
    and shows its message (a default one if it has none), unless it is an
    abort, which shows nothing. *)
Theorem single_article_run (cfg : ArticleConfig.t) (prev : list GeneratedArticle.t)
    (evs : list SingleMode.Event) (s : SingleMode.State) :
  SingleMode.run cfg (SingleMode.handleGenerate cfg prev) evs = Some s ->
  SingleMode.calls s = [generateWithFallback cfg] /\
  (SingleMode.pc s = SingleMode.AwaitResult -> SingleMode.aborted s = false ->
   SingleMode.isGenerating s = true /\
   SingleMode.bulkProgress s = mkProgress 0 1 /\
   SingleMode.activeTasks s = 1%Z /\
   SingleMode.generatedArticles s = prev) /\
  (SingleMode.pc s = SingleMode.Done \/ SingleMode.aborted s = true ->
   SingleMode.isGenerating s = false /\
   SingleMode.bulkProgress s = mkProgress 0 0 /\
   SingleMode.activeTasks s = 0%Z) /\
  (SingleMode.pc s = SingleMode.Done ->
   exists before r after,
     evs = before ++ SingleMode.Settle r :: after /\
     Forall (fun ev => ev = SingleMode.Stop) before /\
     Forall (fun ev => ev = SingleMode.Stop) after /\
     SingleMode.generatedArticles s = prev ++ single_articles cfg r /\
     SingleMode.error s = single_error r).
Proof.
  intros Hrun.
  pose proof (single_inv_run cfg prev evs _ s (single_inv_start cfg prev) Hrun)
    as [Hcalls Href Hwait Hidle Hdone].
  split; [done|]. split; [|split; [done|]].
  - intros Hpc Ha. destruct (Hwait Hpc) as (? & ? & Hlive).
    destruct (Hlive Ha) as (? & ? & ? & ?). done.
  - intros Hpc. by eapply (single_run_shape cfg prev (SingleMode.handleGenerate cfg prev)).
Qed.

Lemma single_article_run_witness :
  SingleMode.run example_single (SingleMode.handleGenerate example_single [])
    example_single_events = Some example_single_end /\
  SingleMode.calls example_single_end = [generateWithFallback example_single] /\
  SingleMode.activeTasks example_single_end = 0%Z /\
  SingleMode.generatedArticles example_single_end = [] /\
  SingleMode.error example_single_end = None.
Proof.
  assert (H : SingleMode.run example_single (SingleMode.handleGenerate example_single [])
                example_single_events = Some example_single_end)
    by (vm_compute; reflexivity).
  split; [exact H|].
  destruct (single_article_run example_single [] example_single_events example_single_end H)
    as (Hc & _ & Hidle & _).
  split; [exact Hc|]. split; [apply Hidle; by left|]. split; vm_compute; reflexivity.
Defined.

Module JsStringFacts.
Import JsString.

Lemma of_chars_chars s : of_chars (chars s) = s.
Proof. apply String.string_of_list_ascii_of_string. Qed.

Lemma chars_of_chars l : chars (of_chars l) = l.
Proof. apply String.list_ascii_of_string_of_list_ascii. Qed.

Lemma of_chars_inj l1 l2 : of_chars l1 = of_chars l2 -> l1 = l2.
Proof. intros H. by rewrite <- (chars_of_chars l1), H, chars_of_chars. Qed.

Lemma of_chars_empty l : of_chars l = ""%string <-> l = [].
Proof.
  split; [|by intros ->]. intros H. apply of_chars_inj. by rewrite H.
Qed.

Lemma nonempty_of_chars l : nonempty (of_chars l) = true <-> l <> [].
Proof.
  unfold nonempty. rewrite negb_true_iff, String.eqb_neq. by rewrite of_chars_empty.
Qed.

Lemma length_of_chars l : String.length (of_chars l) = length l.
Proof. induction l as [|c l IH]; simpl; [done|]. by rewrite IH. Qed.

(** *** [trim] *)

Lemma trimStart_all l : Forall (fun c => isWhiteSpace c = true) l -> trimStart_chars l = [].
Proof. induction 1 as [|c l Hc _ IH]; simpl; [done|]. by rewrite Hc. Qed.

Lemma trimStart_nil l : trimStart_chars l = [] <-> Forall (fun c => isWhiteSpace c = true) l.
Proof.
  split; [|apply trimStart_all].
  induction l as [|c l IH]; simpl; [by constructor|].
  destruct (isWhiteSpace c) eqn:Hc; [|done]. intros H. constructor; auto.
Qed.

Lemma trimStart_suffix l : exists ws, l = ws ++ trimStart_chars l /\
                                      Forall (fun c => isWhiteSpace c = true) ws.
Proof.
  induction l as [|c l (ws & IH & Hws)]; simpl; [by exists []|].
  destruct (isWhiteSpace c) eqn:Hc.
  - exists (c :: ws). simpl. split; [by f_equal|by constructor].
  - by exists [].
Qed.

Lemma trimStart_head c l : isWhiteSpace c = false -> trimStart_chars (c :: l) = c :: l.
Proof. intros H. simpl. by rewrite H. Qed.

Lemma trimStart_first l c l' : trimStart_chars l = c :: l' -> isWhiteSpace c = false.
Proof.
  induction l as [|d l IH]; simpl; [done|].
  destruct (isWhiteSpace d) eqn:Hd; [done|]. by intros [= <- <-].
Qed.

Lemma trimStart_idem l : trimStart_chars (trimStart_chars l) = trimStart_chars l.
Proof.
  destruct (trimStart_chars l) as [|c l'] eqn:H; [done|].
  apply trimStart_head. by eapply trimStart_first.
Qed.

Lemma Forall_ws_reverse l :
  Forall (fun c => isWhiteSpace c = true) (reverse l) <->
  Forall (fun c => isWhiteSpace c = true) l.
Proof. by rewrite Forall_reverse. Qed.

Lemma trimEnd_nil l : trimEnd_chars l = [] <-> Forall (fun c => isWhiteSpace c = true) l.
Proof.
  unfold trimEnd_chars. rewrite <- Forall_ws_reverse, <- trimStart_nil.
  split; [|by intros ->].
  intros H. apply (f_equal reverse) in H. by rewrite reverse_involutive in H.
Qed.

Lemma trimEnd_prefix l : exists ws, l = trimEnd_chars l ++ ws /\
                                    Forall (fun c => isWhiteSpace c = true) ws.
Proof.
  destruct (trimStart_suffix (reverse l)) as (ws & H & Hws).
  exists (reverse ws). split; [|by apply Forall_reverse].
  unfold trimEnd_chars. rewrite <- reverse_app, <- H. by rewrite reverse_involutive.
Qed.

(** [trimEnd] keeps the first code unit of a string that starts with
    something else than white space. *)
Lemma trimEnd_cons c l :
  isWhiteSpace c = false -> exists l', trimEnd_chars (c :: l) = c :: l'.
Proof.
  intros Hc. destruct (trimEnd_prefix (c :: l)) as (ws & H & Hws).
  destruct (trimEnd_chars (c :: l)) as [|d l'] eqn:Ht.
  - simpl in H. subst ws. apply Forall_cons in Hws as [Hc' _]. congruence.
  - simpl in H. injection H as <- _. by exists l'.
Qed.

Lemma trim_chars_nil l : trim_chars l = [] <-> Forall (fun c => isWhiteSpace c = true) l.
Proof.
  unfold trim_chars. rewrite trimEnd_nil.
  destruct (trimStart_suffix l) as (ws & H & Hws). split.
  - intros Ht. rewrite H. by apply Forall_app.
  - intros Hl. apply trimStart_nil in Hl. rewrite Hl. constructor.
Qed.

Lemma trimEnd_last l : l <> [] -> (forall c, last l = Some c -> isWhiteSpace c = false) ->
                       trimEnd_chars l = l.
Proof.
  intros Hne Hl. unfold trimEnd_chars.
  destruct (reverse l) as [|c r] eqn:Hr.
  { apply (f_equal reverse) in Hr. rewrite reverse_involutive in Hr. done. }
  rewrite trimStart_head.
  - rewrite <- Hr. apply reverse_involutive.
  - apply Hl. apply (f_equal reverse) in Hr. rewrite reverse_involutive in Hr.
    rewrite Hr, reverse_cons. by rewrite last_snoc.
Qed.

Lemma trimEnd_no_trailing l c : last (trimEnd_chars l) = Some c -> isWhiteSpace c = false.
Proof.
  unfold trimEnd_chars. destruct (trimStart_chars (reverse l)) as [|d r] eqn:Ht.
  - done.
  - rewrite reverse_cons, last_snoc. intros [= <-]. by eapply trimStart_first.
Qed.

Lemma trimEnd_idem l : trimEnd_chars (trimEnd_chars l) = trimEnd_chars l.
Proof.
  unfold trimEnd_chars. by rewrite reverse_involutive, trimStart_idem.
Qed.

Lemma trim_chars_first l c l' : trim_chars l = c :: l' -> isWhiteSpace c = false.
Proof.
  unfold trim_chars. intros H.
  destruct (trimStart_chars l) as [|d r] eqn:Ht.
  { by compute in H. }
  pose proof (trimStart_first _ _ _ Ht) as Hd.
  destruct (trimEnd_cons d r Hd) as (r' & Hr'). rewrite Hr' in H. by injection H as <- _.
Qed.

Lemma trim_chars_last l c : last (trim_chars l) = Some c -> isWhiteSpace c = false.
Proof. apply trimEnd_no_trailing. Qed.

(** A string that neither starts nor ends with white space is its own
    trim. *)
Lemma trim_chars_fixed l :
  (forall c l', l = c :: l' -> isWhiteSpace c = false) ->
  (forall c, last l = Some c -> isWhiteSpace c = false) ->
  trim_chars l = l.
Proof.
  intros Hh Hl. unfold trim_chars. destruct l as [|c l']; [done|].
  rewrite trimStart_head by eauto. by apply trimEnd_last.
Qed.

Lemma trim_chars_idem l : trim_chars (trim_chars l) = trim_chars l.
Proof.
  apply trim_chars_fixed.
  - intros c l' H. by eapply trim_chars_first.
  - apply trim_chars_last.
Qed.

Lemma trim_idem s : trim (trim s) = trim s.
Proof. unfold trim. by rewrite chars_of_chars, trim_chars_idem. Qed.

Lemma trim_empty s : trim s = ""%string <-> Forall (fun c => isWhiteSpace c = true) (chars s).
Proof. unfold trim. by rewrite of_chars_empty, trim_chars_nil. Qed.

(** *** [split] *)

Lemma split_chars_nonempty sep l : split_chars sep l <> [].
Proof.
  induction l as [|c l IH]; simpl; [done|].
  destruct (Ascii.eqb c sep); [done|]. by destruct (split_chars sep l).
Qed.

(** The code units of the pieces are those of the string other than the
    separators. *)
Lemma split_chars_concat sep l :
  concat (split_chars sep l) = List.filter (fun c => negb (Ascii.eqb c sep)) l.
Proof.
  induction l as [|c l IH]; simpl; [done|].
  destruct (Ascii.eqb c sep); simpl; [done|].
  pose proof (split_chars_nonempty sep l).
  destruct (split_chars sep l) as [|w ws]; [done|]. simpl in *. by rewrite IH.
Qed.

Lemma split_chars_no_sep sep l :
  Forall (Forall (fun c => c <> sep)) (split_chars sep l).
Proof.
  induction l as [|c l IH]; simpl; [by repeat constructor|].
  destruct (Ascii.eqb_spec c sep) as [->|Hne].
  - constructor; [constructor|done].
  - pose proof (split_chars_nonempty sep l).
    destruct (split_chars sep l) as [|w ws]; [done|].
    apply Forall_cons in IH as [Hw Hws]. constructor; [by constructor|done].
Qed.

Lemma Forall_concat_iff {A} (P : A -> Prop) (ls : list (list A)) :
  Forall P (concat ls) <-> Forall (Forall P) ls.
Proof.
  induction ls as [|l ls IH]; simpl.
  - split; constructor.
  - rewrite Forall_app, Forall_cons, IH. done.
Qed.

(** When the separator is white space, a string is all white space exactly
    when each of its pieces is. *)
Lemma split_chars_whitespace sep l :
  isWhiteSpace sep = true ->
  Forall (fun c => isWhiteSpace c = true) l <->
  Forall (Forall (fun c => isWhiteSpace c = true)) (split_chars sep l).
Proof.
  intros Hsep. rewrite <- Forall_concat_iff, split_chars_concat.
  rewrite !Forall_forall. split.
  - intros H c Hc. apply H. apply list_elem_of_In in Hc.
    apply filter_In in Hc as [Hc _]. by apply list_elem_of_In.
  - intros H c Hc. destruct (Ascii.eqb_spec c sep) as [->|Hne]; [done|].
    apply H. apply list_elem_of_In, filter_In. split; [by apply list_elem_of_In|].
    destruct (Ascii.eqb_spec c sep); done.
Qed.

End JsStringFacts.

Import JsStringFacts.

Lemma LF_whitespace : isWhiteSpace LF = true.
Proof. reflexivity. Qed.

Lemma nonempty_true s : nonempty s = true <-> s <> ""%string.
Proof. unfold nonempty. by rewrite negb_true_iff, String.eqb_neq. Qed.

Lemma nonempty_trim_of_chars l :
  nonempty (trim (of_chars l)) = true <-> ~ Forall (fun c => isWhiteSpace c = true) l.
Proof.
  rewrite nonempty_true, trim_empty, chars_of_chars. done.
Qed.

Lemma filter_fmap_list {A B} (f : A -> B) (p : B -> bool) (l : list A) :
  List.filter p (f <$> l) = f <$> List.filter (fun x => p (f x)) l.
Proof.
  induction l as [|x l IH]; [done|]. cbn.
  destruct (p (f x)); cbn; [f_equal|]; exact IH.
Qed.

Lemma queueTopics_of_spec b :
  queueTopics_of b =
  trim <$> List.filter (fun l => nonempty (trim l)) (split LF b).
Proof. apply filter_fmap_list. Qed.

Lemma queueTopics_of_nonblank b :
  Forall (fun t => t <> ""%string /\ trim t = t) (queueTopics_of b).
Proof.
  unfold queueTopics_of. apply Forall_forall. intros t Ht.
  apply list_elem_of_In, filter_In in Ht as [Ht Hne].
  apply list_elem_of_In, list_elem_of_fmap in Ht as (l & -> & _).
  split; [by apply nonempty_true|apply trim_idem].
Qed.

Lemma filter_nil_iff {A} (p : A -> bool) (l : list A) :
  List.filter p l = [] <-> Forall (fun x => p x = false) l.
Proof.
  induction l as [|x l IH]; simpl; [split; constructor|].
  destruct (p x) eqn:Hx.
  - split; [done|]. intros H. apply Forall_cons in H as [? _]. congruence.
  - rewrite IH. split; [by constructor|]. by intros [_ ?]%Forall_cons.
Qed.

(** The bulk input has a topic exactly when it is not blank. *)
Lemma queueTopics_of_nil b : queueTopics_of b = [] <-> trim b = ""%string.
Proof.
  rewrite queueTopics_of_spec.
  assert (Hfm : forall ls : list string, trim <$> ls = [] <-> ls = []).
  { intros ls. split; [apply fmap_nil_inv|by intros ->]. }
  rewrite Hfm, filter_nil_iff.
  rewrite trim_empty. unfold split.
  rewrite (split_chars_whitespace LF _ LF_whitespace).
  rewrite Forall_fmap. apply Forall_iff. intros l. simpl.
  destruct (nonempty (trim (of_chars l))) eqn:Hn.
  - apply nonempty_trim_of_chars in Hn. split; [done|]. intros H. by destruct Hn.
  - split; [|done]. intros _.
    destruct (decide (Forall (fun c => isWhiteSpace c = true) l)) as [?|Hnot]; [done|].
    apply nonempty_trim_of_chars in Hnot. congruence.
Qed.

Lemma topics_handleSubmit f :
  ArticleForm.mode f = ArticleConfig.bulk ->
  topics (handleSubmit f) = queueTopics_of (ArticleForm.bulkInput f).
Proof. intros Hm. unfold topics, handleSubmit. simpl. by rewrite Hm. Qed.

Lemma isFormValid_bulk f :
  ArticleForm.mode f = ArticleConfig.bulk ->
  isFormValid f = true <-> trim (ArticleForm.bulkInput f) <> ""%string.
Proof.
  intros Hm. unfold isFormValid. rewrite Hm, Nat.ltb_lt.
  destruct (trim (ArticleForm.bulkInput f)); simpl; split; try done; lia.
Qed.

Lemma omap_lookup_seq {A} (l : list A) j n :
  omap (fun k => l !! k) (seq j n) = take n (drop j l).
Proof.
  revert j. induction n as [|n IH]; intros j; [done|].
  cbn. destruct (l !! j) as [x|] eqn:Hj.
  - cbn. rewrite (drop_S _ _ _ Hj). cbn. f_equal. apply IH.
  - apply lookup_ge_None in Hj. rewrite (drop_ge l j) by done.
    etrans; [apply IH|]. rewrite drop_ge by lia. by rewrite !take_nil.
Qed.

(** The entries of a finished run, by title. *)
Lemma titles_of_reports {A} (f : A -> string) (l : list string) (ks : list nat) (xs : list A) :
  Forall2 (fun k a => l !! k = Some (f a)) ks xs ->
  ks ≡ₚ seq 0 (length l) -> f <$> xs ≡ₚ l.
Proof.
  intros HF Hperm.
  assert (Heq : f <$> xs = omap (fun k => l !! k) ks).
  { clear Hperm. induction HF as [|k a ks xs Hk _ IH]; [done|].
    cbn. rewrite Hk. cbn. f_equal. exact IH. }
  rewrite Heq, Hperm, omap_lookup_seq, drop_0. by rewrite take_ge.
Qed.

(** The batch is valid exactly when the form is. *)
Lemma handleSubmit_valid f :
  ArticleForm.mode f = ArticleConfig.bulk ->
  isFormValid f = true <-> valid (handleSubmit f).
Proof.
  intros Hm. pose proof (queueTopics_of_nonblank (ArticleForm.bulkInput f)) as Hnb.
  rewrite (isFormValid_bulk f Hm). unfold valid. rewrite (topics_handleSubmit f Hm).
  rewrite <- queueTopics_of_nil. split.
  - intros Hne. split; [done|]. eapply Forall_impl; [done|]. by intros t [? _].
  - by intros [? _].
Qed.

(** X7.  In bulk mode the batch that [handleSubmit] builds from the form
    has a topic exactly when the form is valid (the submit button is
    enabled); its topics are the lines of the bulk input that are not
    blank, trimmed, so none is empty; and their number is the number shown
    on the submit button.  Hence the batch is valid exactly when the form
    is. *)
Theorem submitted_batch_valid (f : ArticleForm.t) :
  ArticleForm.mode f = ArticleConfig.bulk ->
  (isFormValid f = true <-> valid (handleSubmit f)) /\
  Forall (fun t => t <> ""%string /\ trim t = t) (topics (handleSubmit f)) /\
  length (topics (handleSubmit f)) = topicsQueued f.
Proof.
  intros Hm. split; [by apply handleSubmit_valid|].
  rewrite (topics_handleSubmit f Hm). split.
  - apply queueTopics_of_nonblank.
  - rewrite queueTopics_of_spec, length_fmap. done.
Qed.

Lemma submitted_batch_valid_witness :
  ArticleForm.mode example_form = ArticleConfig.bulk /\
  topics (handleSubmit example_form) = ["A"; "B"] /\
  length (topics (handleSubmit example_form)) = topicsQueued example_form.
Proof.
  split; [reflexivity|]. split; [vm_compute; reflexivity|].
  exact (proj2 (proj2 (submitted_batch_valid example_form eq_refl))).
Defined.

(** X8.  From the form to the articles: when a valid bulk form is
    submitted and the run it starts ends without cancellation, the list
    holds the entries [prev] it held before, followed by the entries of
    this run: as many as the submit button announced, their titles the
    non-blank lines of the bulk input, trimmed, each once.  (As long as
    nothing is removed from the list meanwhile and no other run appends to
    it.) *)
Theorem submitted_batch_articles (prev : list GeneratedArticle.t) (a0 : Z)
    (f : ArticleForm.t) (s : State) :
  ArticleForm.mode f = ArticleConfig.bulk -> isFormValid f = true ->
  reachable_on prev a0 (handleSubmit f) s -> main s = Settled -> aborted s = false ->
  exists appended,
    generatedArticles s = prev ++ appended /\
    length appended = topicsQueued f /\
    GeneratedArticle.title <$> appended ≡ₚ queueTopics_of (ArticleForm.bulkInput f).
Proof.
  intros Hm Hok (s0 & Hr & ->)%reachable_on_restored Hs Hab.
  change (main s0 = Settled) in Hs. change (aborted s0 = false) in Hab.
  exists (generatedArticles s0). split; [done|].
  apply (handleSubmit_valid f Hm) in Hok.
  destruct (exact_entries _ _ Hok Hr Hs Hab) as [Hlen Hperm].
  split.
  { rewrite Hlen, (topics_handleSubmit f Hm). unfold topicsQueued.
    by rewrite queueTopics_of_spec, length_fmap. }
  rewrite <- (topics_handleSubmit f Hm).
  destruct (reachable_inv _ _ Hr) as [Hc _].
  eapply titles_of_reports; [apply (inv_titles _ _ Hc)|done].
Qed.

Lemma submitted_batch_articles_witness :
  ArticleForm.mode example_form = ArticleConfig.bulk /\
  isFormValid example_form = true /\
  reachable_on [old_article] 0 (handleSubmit example_form) example_form_run_on /\
  main example_form_run_on = Settled /\ aborted example_form_run_on = false /\
  GeneratedArticle.title <$> generatedArticles example_form_run_on = ["Old"; "B"; "A"] /\
  exists appended,
    generatedArticles example_form_run_on = [old_article] ++ appended /\
    length appended = topicsQueued example_form.
Proof.
  assert (Hr : reachable_on [old_article] 0 (handleSubmit example_form) example_form_run_on).
  { exists [WorkerResume 1 (Resolved_article "B article" []);
            WorkerResume 0 (Resolved_article "A article" []); Join].
    vm_compute. reflexivity. }
  split; [reflexivity|]. split; [vm_compute; reflexivity|]. split; [exact Hr|].
  split; [reflexivity|]. split; [reflexivity|]. split; [reflexivity|].
  destruct (submitted_batch_articles [old_article] 0 example_form example_form_run_on
              eq_refl eq_refl Hr eq_refl eq_refl) as (appended & Hg & Hl & _).
  exists appended. split; [exact Hg|exact Hl].
Defined.

Lemma Forall_filter_list {A} (P Q : A -> Prop) `{!forall x, Decision (Q x)} (l : list A) :
  Forall P l -> Forall P (filter Q l).
Proof.
  rewrite !Forall_forall. intros HP x Hx. apply list_elem_of_filter in Hx as [_ Hx]. auto.
Qed.

Lemma filter_Forall_same {A} (Q : A -> Prop) `{!forall x, Decision (Q x)} (l : list A) :
  Forall Q l -> filter Q l = l.
Proof.
  induction 1 as [|x l Hx _ IH]; [done|]. rewrite filter_cons_True by done. by rewrite IH.
Qed.

Lemma addPrimaryKeyword_keywords b :
  KeywordBox.generatingPrimary (addPrimaryKeyword b) = KeywordBox.generatingPrimary b /\
  (KeywordBox.primaryKeywords (addPrimaryKeyword b) = KeywordBox.primaryKeywords b \/
   exists k, k = trim (KeywordBox.primaryKeywordInput b) /\ k <> ""%string /\
             (k ∉ KeywordBox.primaryKeywords b) /\
             KeywordBox.primaryKeywords (addPrimaryKeyword b)
             = KeywordBox.primaryKeywords b ++ [k]).
Proof.
  unfold addPrimaryKeyword. set (k := trim _).
  destruct (nonempty k) eqn:Hk; simpl; [|by split; [|left]].
  destruct (bool_decide (k ∈ KeywordBox.primaryKeywords b)) eqn:Hin; simpl; [by split; [|left]|].
  split; [done|].
  right. exists k. split; [done|]. split; [by apply nonempty_true|].
  split; [|done]. by apply bool_decide_eq_false in Hin.
Qed.

Lemma keyword_step_nodup b a :
  clean_action a -> keywords_nodup b -> keywords_nodup (keyword_step b a).
Proof.
  intros Ha [Hnd Hcap]. destruct a as [text| |kw| |keywords]; simpl.
  - by split.
  - destruct (addPrimaryKeyword_keywords b) as [Hg [Hk|(k & _ & _ & Hnin & Hk)]];
      split; rewrite ?Hg, ?Hk; try done.
    apply NoDup_app. split; [done|]. split; [|apply NoDup_singleton].
    intros x Hx Hx'. apply list_elem_of_singleton in Hx' as ->. done.
  - split; [by apply NoDup_filter|done].
  - unfold handleGeneratePrimary_click.
    destruct (KeywordBox.generatingPrimary b) eqn:Hg; [by split; [|rewrite Hg]|].
    split; simpl; [done|]. by intros ? [= <-].
  - unfold handleGeneratePrimary_resume.
    destruct (KeywordBox.generatingPrimary b) as [captured|] eqn:Hg; [|by split; [|rewrite Hg]].
    destruct keywords as [|g gs]; [by split|]. split; simpl; [|done].
    apply NoDup_app. split; [by apply Hcap|]. split.
    + intros x Hx Hx'. by apply list_elem_of_filter in Hx' as [? _].
    + by apply NoDup_filter.
Qed.

Lemma keyword_step_by_hand b a :
  by_hand a ->
  KeywordBox.generatingPrimary (keyword_step b a) = KeywordBox.generatingPrimary b.
Proof.
  destruct a; simpl; try done. intros _. apply addPrimaryKeyword_keywords.
Qed.

Lemma keyword_steps_by_hand actions b :
  Forall by_hand actions ->
  KeywordBox.generatingPrimary (foldl keyword_step b actions) = KeywordBox.generatingPrimary b.
Proof.
  intros H. revert b. induction H as [|a actions Ha _ IH]; intros b; simpl; [done|].
  rewrite IH. by apply keyword_step_by_hand.
Qed.

Lemma keyword_step_trimmed b a :
  by_hand a ->
  Forall (fun k => k <> ""%string /\ trim k = k) (KeywordBox.primaryKeywords b) ->
  Forall (fun k => k <> ""%string /\ trim k = k) (KeywordBox.primaryKeywords (keyword_step b a)).
Proof.
  intros Ha Hall. destruct a as [text| |kw| |keywords]; simpl; try done.
  - destruct (addPrimaryKeyword_keywords b) as [_ [->|(k & -> & Hne & _ & ->)]]; [done|].
    apply Forall_app. split; [done|]. constructor; [|done].
    split; [done|apply trim_idem].
  - by apply Forall_filter_list.
Qed.

(** X9.  The keyword chips.  Whatever is typed, added, removed and generated,
    the list never holds a keyword twice, as long as no answer of the
    provider holds one twice.  Edited by hand only, it holds no empty
    keyword and none with white space around it.  A chip that was added is
    removed again by its cross, giving back the list before.  And the
    answer of the provider is merged into the chips as they were when
    "generate" was clicked: what was added or removed by hand in between is
    undone. *)
Theorem keyword_chips (actions : list KeywordAction) :
  Forall clean_action actions ->
  NoDup (KeywordBox.primaryKeywords (foldl keyword_step initial_keywords actions)) /\
  (Forall by_hand actions ->
   Forall (fun k => k <> ""%string /\ trim k = k)
     (KeywordBox.primaryKeywords (foldl keyword_step initial_keywords actions))) /\
  (forall b k,
     NoDup (KeywordBox.primaryKeywords b) ->
     k = trim (KeywordBox.primaryKeywordInput b) -> k <> ""%string ->
     k ∉ KeywordBox.primaryKeywords b ->
     KeywordBox.primaryKeywords (removePrimaryKeyword k (addPrimaryKeyword b))
     = KeywordBox.primaryKeywords b) /\
  (forall b edits k ks,
     KeywordBox.generatingPrimary b = None -> Forall by_hand edits ->
     KeywordBox.primaryKeywords
       (foldl keyword_step b (ClickGenerate :: edits ++ [Generated (k :: ks)]))
     = KeywordBox.primaryKeywords b
       ++ filter (fun x => x ∉ KeywordBox.primaryKeywords b) (k :: ks)).
Proof.
  intros Hclean. split; [|split; [|split]].
  - assert (H : forall b, keywords_nodup b -> keywords_nodup (foldl keyword_step b actions)).
    { induction Hclean as [|a actions Ha _ IH]; intros b Hb; simpl; [done|].
      apply IH. by apply keyword_step_nodup. }
    apply H. split; [constructor|done].
  - intros Hhand.
    assert (H : forall b,
                Forall (fun k => k <> ""%string /\ trim k = k) (KeywordBox.primaryKeywords b) ->
                Forall (fun k => k <> ""%string /\ trim k = k)
                  (KeywordBox.primaryKeywords (foldl keyword_step b actions))).
    { clear Hclean. induction Hhand as [|a actions Ha _ IH]; intros b Hb; simpl; [done|].
      apply IH. by apply keyword_step_trimmed. }
    apply H. constructor.
  - intros b k Hnd -> Hne Hnin. unfold addPrimaryKeyword.
    apply nonempty_true in Hne. rewrite Hne. simpl.
    rewrite bool_decide_eq_false_2 by done. simpl.
    rewrite filter_app, filter_cons_False by (intros H; by apply H).
    rewrite filter_nil, app_nil_r. apply filter_Forall_same. apply Forall_forall.
    intros x Hx ->. done.
  - intros b edits k ks Hg Hedits. simpl. rewrite foldl_app. simpl.
    unfold handleGeneratePrimary_resume.
    rewrite (keyword_steps_by_hand edits) by done.
    unfold handleGeneratePrimary_click. rewrite Hg. simpl. done.
Qed.

Lemma keyword_chips_witness :
  Forall clean_action example_keyword_actions /\
  KeywordBox.primaryKeywords (foldl keyword_step initial_keywords example_keyword_actions)
  = ["solar panels"; "home battery"] /\
  NoDup (KeywordBox.primaryKeywords (foldl keyword_step initial_keywords example_keyword_actions)).
Proof.
  assert (H : Forall clean_action example_keyword_actions).
  { repeat (apply Forall_cons; split; [exact I|]).
    apply Forall_cons. split; [|constructor]. simpl.
    apply (bool_decide_unpack _). vm_compute. reflexivity. }
  split; [exact H|]. split; [vm_compute; reflexivity|].
  exact (proj1 (keyword_chips example_keyword_actions H)).
Defined.

(** What the duplicate-removing loop has built after any number of
    iterations. *)
Lemma keep_unseen_inv (key : Link.t -> string) (validLinks : list Link.t) :
  forall seen out,
    seen = list_to_set (key <$> out) -> NoDup (key <$> out) ->
    exists seen' out',
      foldl (keep_unseen key) (seen, out) validLinks = (seen', out') /\
      seen' = list_to_set (key <$> out') /\ NoDup (key <$> out') /\
      (exists kept, out' = out ++ kept /\ sublist kept validLinks) /\
      (forall link, link ∈ validLinks -> key link ∈ seen').
Proof.
  induction validLinks as [|link links IH]; intros seen out Hseen Hnd; simpl.
  - exists seen, out. split; [done|]. split; [done|]. split; [done|]. split.
    + exists []. by rewrite app_nil_r.
    + intros link Hin. by apply elem_of_nil in Hin.
  - unfold keep_unseen at 2. simpl. destruct (decide (key link ∈ seen)) as [Hin|Hnin].
    + destruct (IH seen out Hseen Hnd) as (seen' & out' & Hf & H1 & H2 & (kept & H3 & H4) & H5).
      exists seen', out'. split; [done|]. split; [done|]. split; [done|]. split.
      * exists kept. split; [done|]. by apply sublist_cons.
      * intros l Hl. apply elem_of_cons in Hl as [->|Hl]; [|by auto].
        rewrite H1, H3, fmap_app, list_to_set_app_L, <- Hseen.
        apply elem_of_union. by left.
    + assert (Hseen' : seen ∪ {[key link]} = list_to_set (key <$> out ++ [link])).
      { rewrite fmap_app, list_to_set_app_L, <- Hseen. simpl.
        by rewrite union_empty_r_L. }
      assert (Hnd' : NoDup (key <$> out ++ [link])).
      { rewrite fmap_app. apply NoDup_app. split; [done|]. split; [|apply NoDup_singleton].
        intros x Hx Hx'. apply list_elem_of_singleton in Hx' as ->.
        apply Hnin. rewrite Hseen. by apply elem_of_list_to_set. }
      destruct (IH _ _ Hseen' Hnd') as (seen' & out' & Hf & H1 & H2 & (kept & H3 & H4) & H5).
      exists seen', out'. split; [done|]. split; [done|]. split; [done|]. split.
      * exists (link :: kept). split; [by rewrite H3, <- app_assoc|]. by apply sublist_skip.
      * intros l Hl. apply elem_of_cons in Hl as [->|Hl]; [|by auto].
        rewrite H1, H3, !fmap_app, !list_to_set_app_L. simpl.
        apply elem_of_union. left. apply elem_of_union. right.
        apply elem_of_union. left. by apply elem_of_singleton.
Qed.

Lemma uniqueLinks_spec (key : Link.t -> string) (validLinks : list Link.t) :
  NoDup (key <$> uniqueLinks key validLinks) /\
  sublist (uniqueLinks key validLinks) validLinks /\
  (forall link, link ∈ validLinks ->
     exists kept, kept ∈ uniqueLinks key validLinks /\ key kept = key link).
Proof.
  unfold uniqueLinks.
  destruct (keep_unseen_inv key validLinks ∅ [])
    as (seen' & out' & Hf & H1 & H2 & (kept & H3 & H4) & H5); [done|constructor|].
  rewrite Hf. simpl in *. split; [done|]. split; [by rewrite H3|].
  intros link Hin. specialize (H5 link Hin). rewrite H1 in H5.
  apply elem_of_list_to_set, list_elem_of_fmap in H5 as (k & Hk & Hin'). eauto.
Qed.

Lemma sublist_Forall {A} (P : A -> Prop) (l k : list A) :
  sublist l k -> Forall P k -> Forall P l.
Proof.
  intros Hs Hk. rewrite Forall_forall in *. intros x Hx. apply Hk.
  by eapply elem_of_sublist.
Qed.

Lemma externalLinks_of_nodup excludeDomain rawChunks :
  NoDup (Link.url <$> externalLinks_of excludeDomain rawChunks).
Proof.
  unfold externalLinks_of. set (validLinks := omap _ rawChunks).
  destruct (uniqueLinks_spec Link.url validLinks) as (Hnd & _).
  rewrite fmap_take. eapply sublist_NoDup; [exact Hnd|apply sublist_take].
Qed.

(** X11.  The links [scanForExternalLinks] returns: at most fifteen, no two
    with the same URL; each carries the title and the URL of a chunk that
    has both, and the snippet "Verified External Source"; and when a
    domain to exclude is given, no returned URL contains it. *)
Theorem external_links_verified (excludeDomain : option string)
    (rawChunks : list GroundingChunk) :
  let links := externalLinks_of excludeDomain rawChunks in
  length links <= 15 /\
  NoDup (Link.url <$> links) /\
  Forall (fun link =>
            (exists chunk, chunk ∈ rawChunks /\
                           verified chunk = Some (Link.url link, Link.title link)) /\
            Link.url link <> ""%string /\ Link.title link <> ""%string /\
            Link.snippet link = Some "Verified External Source"%string /\
            (truthy excludeDomain = true ->
             includes (Link.url link) (default "" excludeDomain) = false)) links.
Proof.
  intros links. unfold links, externalLinks_of.
  set (validLinks := omap _ rawChunks).
  destruct (uniqueLinks_spec Link.url validLinks) as (Hnd & Hsub & _).
  split; [rewrite length_take; lia|]. split.
  - apply externalLinks_of_nodup.
  - eapply sublist_Forall; [apply sublist_take|].
    eapply sublist_Forall; [exact Hsub|].
    apply Forall_forall. intros link Hin.
    apply list_elem_of_omap in Hin as (chunk & Hchunk & Hlink).
    destruct (verified chunk) as [[u t]|] eqn:Hv; [|done].
    destruct (truthy excludeDomain && includes u (default "" excludeDomain)) eqn:Hex; [done|].
    injection Hlink as <-. simpl.
    assert (Hne : nonempty u = true /\ nonempty t = true).
    { unfold verified in Hv. destruct (web chunk) as [w|]; [|done].
      destruct (uri w), (title w); try done.
      destruct (nonempty s && nonempty s0) eqn:Hb; [|done].
      injection Hv as <- <-. by apply andb_prop in Hb. }
    destruct Hne as [Hu Ht]. apply nonempty_true in Hu, Ht.
    split; [by exists chunk|]. repeat (split; [done|]).
    intros Htr. rewrite Htr in Hex. done.
Qed.

(** X12.  The internal links [scanForInternalLinks] returns: each is a
    chunk with a title whose URL parses to a host name containing the
    site's domain (a leading "www." apart), and no two returned URLs are
    the same up to one trailing slash; of several chunks for the same
    page, one is returned. *)
Theorem internal_links_verified (hostname : string -> option string) (domain : string)
    (rawChunks : list GroundingChunk) :
  let links := internalLinks_of hostname domain rawChunks in
  NoDup ((fun link => dropTrailingSlash (Link.url link)) <$> links) /\
  Forall (fun link =>
            (exists chunk, chunk ∈ rawChunks /\
                           verified chunk = Some (Link.url link, Link.title link)) /\
            (exists h, hostname (Link.url link) = Some h /\
                       includes h (dropWww domain) = true) /\
            Link.snippet link = Some "Verified via Google Search"%string) links /\
  (forall chunk u t h,
     chunk ∈ rawChunks -> verified chunk = Some (u, t) ->
     hostname u = Some h -> includes h (dropWww domain) = true ->
     exists link, link ∈ links /\ dropTrailingSlash (Link.url link) = dropTrailingSlash u).
Proof.
  intros links. unfold links, internalLinks_of.
  set (validLinks := omap _ rawChunks).
  destruct (uniqueLinks_spec (fun link => dropTrailingSlash (Link.url link)) validLinks)
    as (Hnd & Hsub & Hall).
  split; [done|]. split.
  - eapply sublist_Forall; [exact Hsub|].
    apply Forall_forall. intros link Hin.
    apply list_elem_of_omap in Hin as (chunk & Hchunk & Hlink).
    destruct (verified chunk) as [[u t]|] eqn:Hv; [|done].
    destruct (hostname u) as [h|] eqn:Hh; [|done].
    destruct (includes h (dropWww domain)) eqn:Hinc; [|done].
    injection Hlink as <-. simpl. split; [by exists chunk|]. split; [by exists h|done].
  - intros chunk u t h Hchunk Hv Hh Hinc.
    destruct (Hall (Link.mk t u (Some "Verified via Google Search"%string)))
      as (kept & Hk & Hkey).
    + apply list_elem_of_omap. exists chunk. split; [done|]. by rewrite Hv, Hh, Hinc.
    + by exists kept.
Qed.

Lemma toggleExternal_size url (sel : gset string) :
  size sel <= 10 -> size (toggleExternalLinkSelection url sel) <= 10.
Proof.
  intros Hs. unfold toggleExternalLinkSelection.
  destruct (decide (url ∈ sel)) as [Hin|Hnin].
  - etrans; [|exact Hs]. apply subseteq_size. apply subseteq_difference_l. done.
  - destruct (decide (10 <= size sel)); [done|].
    rewrite size_union by (apply disjoint_singleton_r; done).
    rewrite size_singleton. lia.
Qed.

Lemma external_selection_size clicks : size (external_selection clicks) <= 10.
Proof.
  unfold external_selection.
  assert (H : forall sel : gset string, size sel <= 10 ->
    size (foldl (fun sel url => toggleExternalLinkSelection url sel) sel clicks) <= 10).
  { induction clicks as [|url clicks IH]; intros sel Hs; simpl; [done|].
    apply IH. by apply toggleExternal_size. }
  apply H. rewrite size_empty. lia.
Qed.

Lemma selected_links_bound (found : list Link.t) (sel : gset string) :
  NoDup (Link.url <$> found) ->
  length (filter (fun link => Link.url link ∈ sel) found) <= size sel.
Proof.
  intros Hnd.
  set (chosen := filter (fun link => Link.url link ∈ sel) found).
  assert (Hnd' : NoDup (Link.url <$> chosen)).
  { eapply sublist_NoDup; [exact Hnd|]. apply fmap_sublist. apply sublist_filter. }
  rewrite <- (length_fmap Link.url chosen), <- (size_list_to_set (C:=gset string)) by done.
  apply subseteq_size. intros u Hu.
  apply elem_of_list_to_set, list_elem_of_fmap in Hu as (link & -> & Hin).
  by apply list_elem_of_filter in Hin as [? _].
Qed.

Lemma toggle_twice url (sel : gset string) :
  toggleLinkSelection url (toggleLinkSelection url sel) = sel.
Proof.
  unfold toggleLinkSelection. destruct (decide (url ∈ sel)) as [Hin|Hnin].
  - rewrite decide_False by (apply not_elem_of_difference; right; by apply elem_of_singleton).
    apply set_eq. intros x. rewrite elem_of_union, elem_of_difference, elem_of_singleton.
    destruct (decide (x = url)) as [->|Hne]; tauto.
  - rewrite decide_True by (apply elem_of_union; right; by apply elem_of_singleton).
    apply set_eq. intros x. rewrite elem_of_difference, elem_of_union, elem_of_singleton.
    destruct (decide (x = url)) as [->|Hne]; tauto.
Qed.

(** X10.  The external links of the submitted configuration.  The
    selection of external links, emptied by every scan and changed by
    clicks, never holds more than ten URLs; a click on a selected link
    deselects it, a click on another one selects it unless ten are
    selected.  When the links in the form are those [scanForExternalLinks]
    returned, [handleSubmit] passes at most ten external links on, no two
    with the same URL. *)
Theorem selected_external_links_capped
    (f : ArticleForm.t) (excludeDomain : option string)
    (rawChunks : list GroundingChunk) (clicks : list string) :
  ArticleForm.foundExternalLinks f = externalLinks_of excludeDomain rawChunks ->
  ArticleForm.selectedExternalLinkUrls f = external_selection clicks ->
  size (ArticleForm.selectedExternalLinkUrls f) <= 10 /\
  (forall url,
     (url ∈ ArticleForm.selectedExternalLinkUrls f ->
      url ∉ toggleExternalLinkSelection url (ArticleForm.selectedExternalLinkUrls f)) /\
     (url ∉ ArticleForm.selectedExternalLinkUrls f ->
      (url ∈ toggleExternalLinkSelection url (ArticleForm.selectedExternalLinkUrls f)
       <-> size (ArticleForm.selectedExternalLinkUrls f) < 10))) /\
  exists links,
    ArticleConfig.externalLinks (handleSubmit f) = Some links /\
    length links <= 10 /\ NoDup (Link.url <$> links) /\
    sublist links (ArticleForm.foundExternalLinks f).
Proof.
  intros Hfound Hsel.
  assert (Hsize : size (ArticleForm.selectedExternalLinkUrls f) <= 10).
  { rewrite Hsel. apply external_selection_size. }
  assert (Hnd : NoDup (Link.url <$> ArticleForm.foundExternalLinks f)).
  { rewrite Hfound. apply externalLinks_of_nodup. }
  split; [done|]. split.
  - intros url. unfold toggleExternalLinkSelection. split.
    + intros Hin. rewrite decide_True by done.
      apply not_elem_of_difference. right. by apply elem_of_singleton.
    + intros Hnin. rewrite decide_False by done.
      destruct (decide (10 <= size (ArticleForm.selectedExternalLinkUrls f))).
      * split; [done|lia].
      * split; [lia|]. intros _. apply elem_of_union. right. by apply elem_of_singleton.
  - unfold handleSubmit. simpl. destruct (ArticleForm.includeExternalLinks f).
    + eexists. split; [done|]. split; [|split].
      * etrans; [by apply selected_links_bound|done].
      * eapply sublist_NoDup; [exact Hnd|]. apply fmap_sublist. apply sublist_filter.
      * apply sublist_filter.
    + exists []. split; [done|]. split; [simpl; lia|]. split; [constructor|].
      apply sublist_nil_l.
Qed.

Lemma selected_external_links_capped_witness :
  ArticleConfig.externalLinks (handleSubmit example_sources_form)
  = Some [Link.mk "Report" "https://a.example/report" (Some "Verified External Source")] /\
  size (ArticleForm.selectedExternalLinkUrls example_sources_form) <= 10.
Proof.
  split; [vm_compute; reflexivity|].
  exact (proj1 (selected_external_links_capped example_sources_form None example_chunks
                  ["https://a.example/report"] eq_refl eq_refl)).
Defined.

Lemma filter_Forall_nil {A} (Q : A -> Prop) `{!forall x, Decision (Q x)} (l : list A) :
  Forall (fun x => ~ Q x) l -> filter Q l = [].
Proof.
  induction 1 as [|x l Hx _ IH]; [done|]. by rewrite filter_cons_False.
Qed.

(** Selecting the URLs of a prefix of a list without repeated URLs selects
    that prefix. *)
Lemma filter_selected_app (l1 l2 : list Link.t) :
  NoDup (Link.url <$> l1 ++ l2) ->
  filter (fun link => Link.url link ∈ (list_to_set (Link.url <$> l1) : gset string))
    (l1 ++ l2) = l1.
Proof.
  intros Hnd. rewrite filter_app.
  rewrite fmap_app in Hnd. apply NoDup_app in Hnd as (_ & Hdisj & _).
  rewrite filter_Forall_same, filter_Forall_nil; [by rewrite app_nil_r| |].
  - apply Forall_forall. intros link Hin Hsel.
    apply elem_of_list_to_set in Hsel. apply (Hdisj _ Hsel).
    by apply list_elem_of_fmap_2.
  - apply Forall_forall. intros link Hin.
    apply elem_of_list_to_set. by apply list_elem_of_fmap_2.
Qed.

Lemma filter_selected_prefix (found : list Link.t) n :
  NoDup (Link.url <$> found) ->
  filter (fun link => Link.url link ∈ (list_to_set (Link.url <$> take n found) : gset string))
    found = take n found.
Proof.
  intros Hnd.
  pose proof (filter_selected_app (take n found) (drop n found)) as H.
  rewrite take_drop in H. by apply H.
Qed.

Lemma NoDup_fmap_key {A B} (f : A -> B) (g : B -> B) (l : list A) :
  NoDup ((fun x => g (f x)) <$> l) -> NoDup (f <$> l).
Proof.
  intros H. apply (NoDup_fmap_1 g). by rewrite <- list_fmap_compose.
Qed.

(** X13.  The internal links of the submitted configuration.  With the
    links [scanForInternalLinks] found in the form, "select most
    complimenting" followed by the submission passes on exactly the first
    three links found, "select all" all of them; and clicking a link twice
    leaves the selection as it was. *)
Theorem selected_internal_links (f : ArticleForm.t)
    (hostname : string -> option string) (domain : string)
    (rawChunks : list GroundingChunk) :
  ArticleForm.foundLinks f = internalLinks_of hostname domain rawChunks ->
  (ArticleForm.selectedLinkUrls f = selectMostComplimenting (ArticleForm.foundLinks f) ->
   ArticleConfig.internalLinks (handleSubmit f) = Some (take 3 (ArticleForm.foundLinks f))) /\
  (ArticleForm.selectedLinkUrls f = selectAllLinks (ArticleForm.foundLinks f) ->
   ArticleConfig.internalLinks (handleSubmit f) = Some (ArticleForm.foundLinks f)) /\
  (forall url,
     toggleLinkSelection url (toggleLinkSelection url (ArticleForm.selectedLinkUrls f))
     = ArticleForm.selectedLinkUrls f).
Proof.
  intros Hfound.
  assert (Hnd : NoDup (Link.url <$> ArticleForm.foundLinks f)).
  { rewrite Hfound. apply (NoDup_fmap_key Link.url dropTrailingSlash).
    unfold internalLinks_of. apply uniqueLinks_spec. }
  split; [|split].
  - intros Hsel. unfold handleSubmit. simpl. f_equal.
    rewrite Hsel. unfold selectMostComplimenting. by apply filter_selected_prefix.
  - intros Hsel. unfold handleSubmit. simpl. f_equal.
    rewrite Hsel. unfold selectAllLinks.
    pose proof (filter_selected_app (ArticleForm.foundLinks f) []) as H.
    rewrite app_nil_r in H. by apply H.
  - intros url. apply toggle_twice.
Qed.

Lemma selected_internal_links_witness :
  ArticleForm.foundLinks example_links_form
  = [Link.mk "Report" "https://a.example/report" (Some "Verified via Google Search")] /\
  ArticleConfig.internalLinks (handleSubmit example_links_form)
  = Some (take 3 (ArticleForm.foundLinks example_links_form)).
Proof.
  split; [vm_compute; reflexivity|].
  exact (proj1 (selected_internal_links example_links_form example_hostname
                  "www.a.example" example_chunks eq_refl) eq_refl).
Defined.

Lemma external_links_verified_witness :
  externalLinks_of (Some "b.example"%string) example_chunks
  = [Link.mk "Report" "https://a.example/report" (Some "Verified External Source")] /\
  NoDup (Link.url <$> externalLinks_of (Some "b.example"%string) example_chunks) /\
  Forall (fun link => includes (Link.url link) "b.example" = false)
    (externalLinks_of (Some "b.example"%string) example_chunks).
Proof.
  split; [vm_compute; reflexivity|].
  destruct (external_links_verified (Some "b.example"%string) example_chunks)
    as (_ & Hnd & Hall).
  split; [exact Hnd|].
  eapply Forall_impl; [exact Hall|]. intros link (_ & _ & _ & _ & Hex). by apply Hex.
Defined.

Lemma internal_links_verified_witness :
  internalLinks_of example_hostname "www.a.example" example_chunks
  = [Link.mk "Report" "https://a.example/report" (Some "Verified via Google Search")] /\
  NoDup ((fun link => dropTrailingSlash (Link.url link))
           <$> internalLinks_of example_hostname "www.a.example" example_chunks).
Proof.
  split; [vm_compute; reflexivity|].
  exact (proj1 (internal_links_verified example_hostname "www.a.example" example_chunks)).
Defined.

Lemma nonempty_false s : nonempty s = false <-> s = ""%string.
Proof.
  unfold nonempty. destruct (String.eqb_spec s ""); simpl; split; congruence.
Qed.

Lemma trim_nonempty s : trim s <> ""%string -> s <> ""%string.
Proof. intros H ->. apply H. reflexivity. Qed.

(** What a getter returns for a stored key. *)
Lemma getter_stored (k : string) :
  trim k <> ""%string ->
  (if nonempty k && nonempty (trim k) then trim k else ""%string) = trim k.
Proof.
  intros H. rewrite (proj2 (nonempty_true (trim k)) H).
  rewrite (proj2 (nonempty_true k) (trim_nonempty _ H)). reflexivity.
Qed.

Lemma getter_stored' (k d : string) :
  trim k <> ""%string ->
  (if nonempty k && nonempty (trim k) then trim k else d) = trim k.
Proof.
  intros H. rewrite (proj2 (nonempty_true (trim k)) H).
  rewrite (proj2 (nonempty_true k) (trim_nonempty _ H)). reflexivity.
Qed.

Lemma handleSaveKeys_storage s name :
  KeyModal.storage (handleSaveKeys s) !! name =
    if decide (name = "user_tavily_api_key") then
      if nonempty (trim (KeyModal.tavilyKey s)) then Some (trim (KeyModal.tavilyKey s))
      else KeyModal.storage s !! name
    else if decide (name = "user_deepseek_api_key") then
      if nonempty (trim (KeyModal.deepSeekKey s)) then Some (trim (KeyModal.deepSeekKey s))
      else KeyModal.storage s !! name
    else if decide (name = "user_gemini_api_key") then
      if nonempty (trim (KeyModal.geminiKey s)) then Some (trim (KeyModal.geminiKey s))
      else KeyModal.storage s !! name
    else KeyModal.storage s !! name.
Proof.
  unfold handleSaveKeys. simpl.
  destruct (nonempty (trim (KeyModal.geminiKey s))),
           (nonempty (trim (KeyModal.deepSeekKey s))),
           (nonempty (trim (KeyModal.tavilyKey s)));
    repeat case_decide; subst; try done;
    repeat first [ rewrite lookup_insert_eq | rewrite lookup_insert_ne by done ];
    done.
Qed.

Lemma key_step_badges s a : badges_inv s -> badges_inv (key_step s a).
Proof.
  intros [Hg Hd Ht].
  destruct a; try (constructor; simpl; assumption).
  - (* SaveKeys *)
    constructor; change (key_step s SaveKeys) with (handleSaveKeys s);
      rewrite handleSaveKeys_storage; simpl;
      repeat (case_decide; try done).
    + destruct (nonempty (trim (KeyModal.geminiKey s))) eqn:E; [|done].
      apply nonempty_true in E. split; [|done]. intros _. eauto.
    + destruct (nonempty (trim (KeyModal.deepSeekKey s))) eqn:E; [|done].
      apply nonempty_true in E. split; [|done]. intros _. eauto.
    + destruct (nonempty (trim (KeyModal.tavilyKey s))) eqn:E; [|done].
      apply nonempty_true in E. split; [|done]. intros _. eauto.
  - constructor; simpl.
    + rewrite lookup_delete_eq. split; [done|]. by intros (k & ? & _).
    + by rewrite lookup_delete_ne.
    + by rewrite lookup_delete_ne.
  - constructor; simpl.
    + by rewrite lookup_delete_ne.
    + rewrite lookup_delete_eq. split; [done|]. by intros (k & ? & _).
    + by rewrite lookup_delete_ne.
  - constructor; simpl.
    + by rewrite lookup_delete_ne.
    + by rewrite lookup_delete_ne.
    + rewrite lookup_delete_eq. split; [done|]. by intros (k & ? & _).
Qed.

Lemma mount_badges storage : badges_inv (Layout_mount storage).
Proof.
  constructor; unfold Layout_mount; simpl.
  - destruct (storage !! "user_gemini_api_key") as [k|] eqn:E.
    + destruct (nonempty k) eqn:Hk; simpl.
      * apply nonempty_true in Hk. split; [eauto|done].
      * apply nonempty_false in Hk. split; [done|]. by intros (k' & [= <-] & ?).
    + simpl. split; [done|]. by intros (k' & ? & _).
  - destruct (storage !! "user_deepseek_api_key") as [k|] eqn:E.
    + destruct (nonempty k) eqn:Hk; simpl.
      * apply nonempty_true in Hk. split; [eauto|done].
      * apply nonempty_false in Hk. split; [done|]. by intros (k' & [= <-] & ?).
    + simpl. split; [done|]. by intros (k' & ? & _).
  - destruct (storage !! "user_tavily_api_key") as [k|] eqn:E.
    + destruct (nonempty k) eqn:Hk; simpl.
      * apply nonempty_true in Hk. split; [eauto|done].
      * apply nonempty_false in Hk. split; [done|]. by intros (k' & [= <-] & ?).
    + simpl. split; [done|]. by intros (k' & ? & _).
Qed.

Lemma key_step_no_blank s a :
  no_blank_keys (KeyModal.storage s) -> no_blank_keys (KeyModal.storage (key_step s a)).
Proof.
  intros H. destruct a; try exact H.
  - intros name k. change (key_step s SaveKeys) with (handleSaveKeys s).
    rewrite handleSaveKeys_storage.
    repeat case_decide; subst;
      repeat match goal with
             | |- context [nonempty (trim ?x)] =>
                 let E := fresh "E" in destruct (nonempty (trim x)) eqn:E
             end;
      try (intros [= <-] _; rewrite trim_idem; by apply nonempty_true);
      apply H.
  - intros name k. simpl. rewrite lookup_delete. case_decide; [done|apply H].
  - intros name k. simpl. rewrite lookup_delete. case_decide; [done|apply H].
  - intros name k. simpl. rewrite lookup_delete. case_decide; [done|apply H].
Qed.

Lemma key_step_serpstack s a :
  KeyModal.storage (key_step s a) !! "user_serpstack_api_key"
  = KeyModal.storage s !! "user_serpstack_api_key".
Proof.
  destruct a; try done.
  - change (key_step s SaveKeys) with (handleSaveKeys s).
    rewrite handleSaveKeys_storage. by repeat case_decide.
  - simpl. by rewrite lookup_delete_ne.
  - simpl. by rewrite lookup_delete_ne.
  - simpl. by rewrite lookup_delete_ne.
Qed.

Lemma key_session_inv storage actions :
  badges_inv (key_session storage actions) /\
  KeyModal.storage (key_session storage actions) !! "user_serpstack_api_key"
  = storage !! "user_serpstack_api_key" /\
  (no_blank_keys storage -> no_blank_keys (KeyModal.storage (key_session storage actions))).
Proof.
  unfold key_session.
  assert (H : forall s,
    badges_inv s ->
    badges_inv (foldl key_step s actions) /\
    KeyModal.storage (foldl key_step s actions) !! "user_serpstack_api_key"
    = KeyModal.storage s !! "user_serpstack_api_key" /\
    (no_blank_keys (KeyModal.storage s) ->
     no_blank_keys (KeyModal.storage (foldl key_step s actions)))).
  { induction actions as [|a actions IH]; intros s Hs; simpl; [done|].
    destruct (IH (key_step s a) (key_step_badges s a Hs)) as (H1 & H2 & H3).
    split; [done|]. split; [by rewrite H2, key_step_serpstack|].
    intros Hb. apply H3. by apply key_step_no_blank. }
  apply (H (Layout_mount storage)). apply mount_badges.
Qed.

(** X14.  Saving and reading a key.  A key typed into the settings dialog
    and saved is what the service of that provider reads afterwards,
    without the white space around it; a field left blank leaves the key
    stored before in place; a saved key of one provider does not touch
    another's; and after "Clear" the DeepSeek and Tavily services find no
    key, the Gemini service only that of the build environment. *)
Theorem saved_key_is_read (s : KeyModal.t) (env_API_KEY : option string) :
  let s' := handleSaveKeys s in
  (trim (KeyModal.geminiKey s) <> ""%string ->
   GeminiService.getGeminiApiKey (KeyModal.storage s') env_API_KEY
   = trim (KeyModal.geminiKey s)) /\
  (trim (KeyModal.deepSeekKey s) <> ""%string ->
   DeepSeekService.getApiKey (KeyModal.storage s') = trim (KeyModal.deepSeekKey s)) /\
  (trim (KeyModal.tavilyKey s) <> ""%string ->
   TavilyService.getTavilyApiKey (KeyModal.storage s') = trim (KeyModal.tavilyKey s)) /\
  (trim (KeyModal.geminiKey s) = ""%string ->
   GeminiService.getGeminiApiKey (KeyModal.storage s') env_API_KEY
   = GeminiService.getGeminiApiKey (KeyModal.storage s) env_API_KEY) /\
  (trim (KeyModal.deepSeekKey s) = ""%string ->
   DeepSeekService.getApiKey (KeyModal.storage s') = DeepSeekService.getApiKey (KeyModal.storage s)) /\
  (trim (KeyModal.tavilyKey s) = ""%string ->
   TavilyService.getTavilyApiKey (KeyModal.storage s')
   = TavilyService.getTavilyApiKey (KeyModal.storage s)) /\
  GeminiService.getGeminiApiKey (KeyModal.storage (clearGemini s')) env_API_KEY
  = default ""%string env_API_KEY /\
  DeepSeekService.getApiKey (KeyModal.storage (clearDeepSeek s')) = ""%string /\
  TavilyService.getTavilyApiKey (KeyModal.storage (clearTavily s')) = ""%string.
Proof.
  intros s'.
  unfold GeminiService.getGeminiApiKey, DeepSeekService.getApiKey,
    TavilyService.getTavilyApiKey,
    GeminiService.LOCAL_STORAGE_KEY_KEY, DeepSeekService.LOCAL_STORAGE_KEY_KEY,
    TavilyService.LOCAL_STORAGE_KEY.
  subst s'. rewrite !handleSaveKeys_storage. simpl.
  rewrite !lookup_delete_eq.
  repeat (case_decide; try done).
  repeat split.
  - intros H. pose proof (proj2 (nonempty_true _) H) as E. rewrite E.
    cbv beta iota. rewrite trim_idem, E. reflexivity.
  - intros H. pose proof (proj2 (nonempty_true _) H) as E. rewrite E.
    cbv beta iota. rewrite trim_idem, E. reflexivity.
  - intros H. pose proof (proj2 (nonempty_true _) H) as E. rewrite E.
    cbv beta iota. rewrite trim_idem, E. reflexivity.
  - intros H. by rewrite (proj2 (nonempty_false _) H).
  - intros H. by rewrite (proj2 (nonempty_false _) H).
  - intros H. by rewrite (proj2 (nonempty_false _) H).
Qed.

(** X15.  The badges of the header.  From the moment the page is mounted,
    whatever is typed, saved and cleared in the settings dialog: the badge
    of a provider is lit exactly when a non-empty key is stored under its
    name, and when the DeepSeek or Tavily service finds a key, its badge
    is lit.  If no key stored beforehand is blank, a lit badge also means
    that the service finds a key.  The dialog never writes the key the
    SERPStack service reads: if none was stored beforehand, that service
    never has one. *)
Theorem key_badges (storage : gmap string string) (actions : list KeyAction)
    (env_API_KEY : option string) :
  let s := key_session storage actions in
  badges_inv s /\
  (DeepSeekService.getApiKey (KeyModal.storage s) <> ""%string ->
   KeyModal.hasDeepSeekKey s = true) /\
  (TavilyService.getTavilyApiKey (KeyModal.storage s) <> ""%string ->
   KeyModal.hasTavilyKey s = true) /\
  (no_blank_keys storage ->
   (KeyModal.hasGeminiKey s = true ->
    GeminiService.getGeminiApiKey (KeyModal.storage s) env_API_KEY <> ""%string /\
    Some (GeminiService.getGeminiApiKey (KeyModal.storage s) env_API_KEY)
    = trim <$> KeyModal.storage s !! "user_gemini_api_key") /\
   (KeyModal.hasDeepSeekKey s = true ->
    DeepSeekService.getApiKey (KeyModal.storage s) <> ""%string) /\
   (KeyModal.hasTavilyKey s = true ->
    TavilyService.getTavilyApiKey (KeyModal.storage s) <> ""%string)) /\
  (storage !! "user_serpstack_api_key" = None ->
   SerpstackService.getSERPStackApiKey (KeyModal.storage s) = ""%string).
Proof.
  intros s. destruct (key_session_inv storage actions) as (Hbadges & Hserp & Hblank).
  fold s in Hbadges, Hserp, Hblank. split; [exact Hbadges|].
  destruct Hbadges as [Hg Hd Ht].
  unfold GeminiService.getGeminiApiKey, DeepSeekService.getApiKey,
    TavilyService.getTavilyApiKey, SerpstackService.getSERPStackApiKey,
    GeminiService.LOCAL_STORAGE_KEY_KEY, DeepSeekService.LOCAL_STORAGE_KEY_KEY,
    TavilyService.LOCAL_STORAGE_KEY, SerpstackService.LOCAL_STORAGE_KEY.
  split; [|split; [|split]].
  - intros H. apply Hd.
    destruct (KeyModal.storage s !! "user_deepseek_api_key") as [k|]; [|done].
    exists k. split; [done|]. intros ->. done.
  - intros H. apply Ht.
    destruct (KeyModal.storage s !! "user_tavily_api_key") as [k|]; [|done].
    exists k. split; [done|]. intros ->. done.
  - intros Hnb. specialize (Hblank Hnb). split; [|split].
    + intros H. apply Hg in H as (k & Hk & Hne). rewrite Hk. simpl.
      pose proof (Hblank _ _ Hk Hne) as Ht'. rewrite getter_stored' by done. done.
    + intros H. apply Hd in H as (k & Hk & Hne). rewrite Hk.
      pose proof (Hblank _ _ Hk Hne) as Ht'. by rewrite getter_stored.
    + intros H. apply Ht in H as (k & Hk & Hne). rewrite Hk.
      pose proof (Hblank _ _ Hk Hne) as Ht'. by rewrite getter_stored.
  - intros H. by rewrite Hserp, H.
Qed.

Lemma saved_key_is_read_witness :
  trim (KeyModal.deepSeekKey example_key_state) = "sk-123"%string /\
  DeepSeekService.getApiKey (KeyModal.storage (handleSaveKeys example_key_state))
  = trim (KeyModal.deepSeekKey example_key_state).
Proof.
  split; [vm_compute; reflexivity|].
  refine (proj1 (proj2 (saved_key_is_read example_key_state None)) _).
  vm_compute. discriminate.
Defined.

Lemma key_badges_witness :
  KeyModal.storage (key_session ∅ example_key_actions) !! "user_deepseek_api_key"
  = Some "sk-123"%string /\
  KeyModal.hasDeepSeekKey (key_session ∅ example_key_actions) = true /\
  DeepSeekService.getApiKey (KeyModal.storage (key_session ∅ example_key_actions))
  <> ""%string.
Proof.
  assert (Hnb : no_blank_keys ∅).
  { intros name k Hk. rewrite lookup_empty in Hk. discriminate Hk. }
  assert (Hflag : KeyModal.hasDeepSeekKey (key_session ∅ example_key_actions) = true)
    by (vm_compute; reflexivity).
  split; [vm_compute; reflexivity|]. split; [exact Hflag|].
  exact (proj1 (proj2 (proj1 (proj2 (proj2 (proj2
           (key_badges ∅ example_key_actions None)))) Hnb)) Hflag).
Defined.

Local Open Scope Z_scope.

Lemma requests_cons_request i trace : requests (Request i :: trace) = i :: requests trace.
Proof. reflexivity. Qed.

Lemma requests_cons_timeout ms trace : requests (Timeout ms :: trace) = requests trace.
Proof. reflexivity. Qed.

Lemma waited_cons_request i trace : waited (Request i :: trace) = waited trace.
Proof. reflexivity. Qed.

Lemma waited_cons_timeout ms trace : waited (Timeout ms :: trace) = ms + waited trace.
Proof. reflexivity. Qed.

(** One run of the loop from round [i]: it makes the requests [i] to
    [i + n], all but the last answered by a quota or server error, waits
    1000 * 2^j after round [j], and ends as the last answer does. *)
Lemma retry_loop_spec {A} (generateContent : Z -> Attempt A) fuel retries i lastError :
  0 <= i <= retries -> (Z.to_nat (retries - i) < fuel)%nat ->
  exists n c trace,
    retry_loop generateContent fuel retries i lastError = Some (c, trace) /\
    0 <= n /\ i + n <= retries /\
    requests trace = seqZ i (n + 1) /\
    waited trace = 1000 * (2 ^ (i + n) - 2 ^ i) /\
    (forall j, i <= j < i + n ->
       exists e, generateContent j = RejectedWith e /\ isQuotaOrServer e = true) /\
    c = match generateContent (i + n) with
        | Fulfilled response => Return response
        | RejectedWith error => Throw error
        end /\
    (forall e, generateContent (i + n) = RejectedWith e ->
       isQuotaOrServer e = false \/ i + n = retries).
Proof.
  revert i lastError. induction fuel as [|fuel IH]; intros i lastError Hi Hfuel; [lia|].
  simpl. rewrite (proj2 (Z.leb_le i retries)) by lia.
  destruct (generateContent i) as [response|error] eqn:Hresp.
  - exists 0, (Return response), [Request i]. rewrite Z.add_0_r, Hresp.
    repeat split; try lia; try done; try (cbn; lia).
  - destruct (isQuotaOrServer error) eqn:Hq; simpl.
    + destruct (i <? retries) eqn:Hlt.
      * apply Z.ltb_lt in Hlt.
        destruct (IH (i + 1) (Some error)) as (n & c & trace & -> & Hn & Hle & Hreq & Hw & Hall & Hc & Hlast);
          [lia|lia|].
        exists (n + 1), c, (Request i :: Timeout (1000 * 2 ^ i) :: trace).
        replace (i + (n + 1)) with (i + 1 + n) by lia.
        repeat split; try lia; try done.
        -- rewrite requests_cons_request, requests_cons_timeout, Hreq.
           rewrite (seqZ_cons i (n + 1 + 1)) by lia. f_equal. f_equal; lia.
        -- rewrite waited_cons_request, waited_cons_timeout, Hw.
           rewrite (Z.pow_add_r 2 i 1) by lia.
           change (2 ^ 1) with 2. lia.
        -- intros j Hj. destruct (decide (j = i)) as [->|Hne]; [eauto|].
           apply Hall. lia.
      * apply Z.ltb_ge in Hlt.
        exists 0, (Throw error), [Request i]. rewrite Z.add_0_r, Hresp.
        repeat split; try lia; try done; try (cbn; lia).
    + exists 0, (Throw error), [Request i]. rewrite Z.add_0_r, Hresp.
      repeat split; try lia; try done; try (cbn; lia).
      intros e [= <-]. by left.
Qed.

Lemma pow2_le (n m : Z) : 0 <= n <= m -> 2 ^ n <= 2 ^ m.
Proof. intros H. apply Z.pow_le_mono_r; lia. Qed.

Lemma generateContentWithRetry_spec {A} (generateContent : Z -> Attempt A)
    storage env_API_KEY retries :
  0 <= retries ->
  GeminiService.getGeminiApiKey storage env_API_KEY <> ""%string ->
  exists n c trace,
    generateContentWithRetry generateContent storage env_API_KEY retries = Some (c, trace) /\
    0 <= n <= retries /\
    requests trace = seqZ 0 (n + 1) /\
    waited trace = 1000 * (2 ^ n - 1) /\
    (forall j, 0 <= j < n ->
       exists e, generateContent j = RejectedWith e /\ isQuotaOrServer e = true) /\
    c = match generateContent n with
        | Fulfilled response => Return response
        | RejectedWith error => Throw error
        end /\
    (forall e, generateContent n = RejectedWith e ->
       isQuotaOrServer e = false \/ n = retries).
Proof.
  intros Hr Hkey. unfold generateContentWithRetry.
  rewrite (proj2 (nonempty_true _) Hkey).
  destruct (retry_loop_spec generateContent (Z.to_nat (retries + 2)) retries 0 None)
    as (n & c & trace & Hrun & Hn & Hle & Hreq & Hw & Hall & Hc & Hlast); [lia|lia|].
  exists n, c, trace. rewrite Z.add_0_l in *. change (2 ^ 0) with 1 in Hw.
  repeat split; try done; lia.
Qed.

(** X16.  Requests to Gemini are retried on a schedule.  With a key and
    [retries >= 0], a call makes the requests 0 to n for some n <= retries
    and no other: each but the last was answered by a quota or server
    error (status 429 or 503, or a text that holds "429", "503" or
    "RESOURCE_EXHAUSTED"), after round j it waited 1000 * 2^j ms, in all
    1000 * (2^n - 1) ms, and it ends as request n did: with its response,
    or throwing its error, which is then another kind of error or that of
    the last round allowed.  The [throw] after the loop is never reached.
    Without a key it throws at once and makes no request. *)
Theorem retry_schedule {A} (generateContent : Z -> Attempt A)
    (storage : gmap string string) (env_API_KEY : option string) (retries : Z) :
  0 <= retries ->
  (GeminiService.getGeminiApiKey storage env_API_KEY = ""%string ->
   generateContentWithRetry generateContent storage env_API_KEY retries
   = Some (Throw noKeyError, [])) /\
  (GeminiService.getGeminiApiKey storage env_API_KEY <> ""%string ->
   exists n c trace,
     generateContentWithRetry generateContent storage env_API_KEY retries = Some (c, trace) /\
     0 <= n <= retries /\
     requests trace = seqZ 0 (n + 1) /\
     waited trace = 1000 * (2 ^ n - 1) /\
     waited trace <= 1000 * (2 ^ retries - 1) /\
     (forall j, 0 <= j < n ->
        exists e, generateContent j = RejectedWith e /\ isQuotaOrServer e = true) /\
     c = match generateContent n with
         | Fulfilled response => Return response
         | RejectedWith error => Throw error
         end /\
     (forall e, c = Throw e -> isQuotaOrServer e = false \/ n = retries) /\
     (forall lastError, c <> ThrowLast lastError)).
Proof.
  intros Hr. split.
  - intros Hkey. unfold generateContentWithRetry.
    by rewrite (proj2 (nonempty_false _) Hkey).
  - intros Hkey.
    destruct (generateContentWithRetry_spec generateContent storage env_API_KEY retries Hr Hkey)
      as (n & c & trace & Hrun & Hn & Hreq & Hw & Hall & Hc & Hlast).
    exists n, c, trace. repeat split; try done; try lia.
    + rewrite Hw. pose proof (pow2_le n retries ltac:(lia)). lia.
    + intros e He. apply Hlast. rewrite He in Hc.
      destruct (generateContent n); congruence.
    + intros lastError He. rewrite He in Hc. destruct (generateContent n); congruence.
Qed.

(** X17.  Keyword generation with Gemini never throws.  Whatever the
    client answers and whatever the text holds, the call returns a value;
    it makes at most four requests and waits at most 7000 ms.  Without a
    key it returns the empty array without a request.  The value returned
    is the empty array or else the [keywords] member, unchanged, of the
    object parsed from the response to the last request made, which is
    then truthy but need not be an array: nothing checks its type. *)
Theorem keywords_never_throw {Number : Type} (isZero : Number -> bool)
    (JSON_parse : string -> option (GeminiKeywords.JsonValue Number))
    (generateContent : Z -> Attempt (option string))
    (storage : gmap string string) (env_API_KEY : option string) :
  exists keywords trace,
    GeminiKeywords.generatePrimaryKeywords isZero JSON_parse generateContent
      storage env_API_KEY
    = Some (Return keywords, trace) /\
    (length (requests trace) <= 4)%nat /\
    0 <= waited trace <= 7000 /\
    (GeminiService.getGeminiApiKey storage env_API_KEY = ""%string ->
     keywords = GeminiKeywords.JsonArray [] /\ trace = []) /\
    (keywords <> GeminiKeywords.JsonArray [] ->
     exists n text members,
       requests trace = seqZ 0 (n + 1) /\
       generateContent n = Fulfilled (Some text) /\
       JSON_parse text = Some (GeminiKeywords.JsonObject members) /\
       GeminiKeywords.member "keywords" members = Some keywords /\
       GeminiKeywords.ToBoolean isZero keywords = true).
Proof.
  unfold GeminiKeywords.generatePrimaryKeywords.
  destruct (decide (GeminiService.getGeminiApiKey storage env_API_KEY = ""%string)) as [Hkey|Hkey].
  - unfold generateContentWithRetry. rewrite (proj2 (nonempty_false _) Hkey).
    exists (GeminiKeywords.JsonArray []), []. repeat split; try done; simpl; lia.
  - destruct (generateContentWithRetry_spec generateContent storage env_API_KEY 3
                ltac:(lia) Hkey)
      as (n & c & trace & -> & Hn & Hreq & Hw & Hall & Hc & Hlast).
    assert (Hlen : (length (requests trace) <= 4)%nat).
    { rewrite Hreq, length_seqZ. lia. }
    assert (Hwait : 0 <= waited trace <= 7000).
    { rewrite Hw. pose proof (pow2_le n 3 ltac:(lia)). pose proof (pow2_le 0 n ltac:(lia)).
      change (2 ^ 3) with 8 in *. change (2 ^ 0) with 1 in *. lia. }
    assert (Hempty : exists keywords trace0,
              Some (Return (GeminiKeywords.JsonArray (Number:=Number) []), trace)
              = Some (Return keywords, trace0) /\
              (length (requests trace0) <= 4)%nat /\ 0 <= waited trace0 <= 7000 /\
              (GeminiService.getGeminiApiKey storage env_API_KEY = ""%string ->
               keywords = GeminiKeywords.JsonArray [] /\ trace0 = []) /\
              (keywords <> GeminiKeywords.JsonArray [] ->
               exists n text members,
                 requests trace0 = seqZ 0 (n + 1) /\
                 generateContent n = Fulfilled (Some text) /\
                 JSON_parse text = Some (GeminiKeywords.JsonObject members) /\
                 GeminiKeywords.member "keywords" members = Some keywords /\
                 GeminiKeywords.ToBoolean isZero keywords = true)).
    { exists (GeminiKeywords.JsonArray []), trace. repeat split; try done; lia. }
    destruct (generateContent n) as [response|error] eqn:Hresp; subst c; [|exact Hempty].
    unfold GeminiKeywords.keywords_of_response.
    destruct response as [text|]; [|exact Hempty].
    destruct (nonempty text) eqn:Htext; [|exact Hempty].
    destruct (JSON_parse text) as [data|] eqn:Hparse; [|exact Hempty].
    destruct data as [| | | | |members]; simpl; try exact Hempty.
    destruct (GeminiKeywords.member "keywords" members) as [v|] eqn:Hv; simpl;
      [|exact Hempty].
    destruct (GeminiKeywords.ToBoolean isZero v) eqn:Htruthy; [|exact Hempty].
    exists v, trace. repeat split; try done; try lia.
    intros _. exists n, text, members. done.
Qed.

Lemma retry_schedule_witness :
  0 <= 3 /\
  generateContentWithRetry busy_twice example_storage None 3
  = Some (Return (Some "{}"%string), [Request 0; Timeout 1000; Request 1; Timeout 2000; Request 2]) /\
  exists n c trace,
    generateContentWithRetry busy_twice example_storage None 3 = Some (c, trace) /\
    0 <= n <= 3 /\ requests trace = seqZ 0 (n + 1) /\ waited trace = 1000 * (2 ^ n - 1).
Proof.
  split; [lia|]. split; [vm_compute; reflexivity|].
  destruct (proj2 (retry_schedule busy_twice example_storage None 3 ltac:(lia)))
    as (n & c & trace & H1 & H2 & H3 & H4 & _).
  - vm_compute. discriminate.
  - exists n, c, trace. done.
Defined.

Lemma keywords_never_throw_witness :
  GeminiKeywords.generatePrimaryKeywords (Z.eqb 0) example_JSON_parse quota_once
    example_storage None
  = Some (Return (GeminiKeywords.JsonArray
                    [GeminiKeywords.JsonString "solar"; GeminiKeywords.JsonString "panels"]),
          [Request 0; Timeout 1000; Request 1]) /\
  GeminiKeywords.generatePrimaryKeywords (Z.eqb 0) example_JSON_parse keywords_as_string
    example_storage None
  = Some (Return (GeminiKeywords.JsonString "solar"), [Request 0]) /\
  exists keywords trace,
    GeminiKeywords.generatePrimaryKeywords (Z.eqb 0) example_JSON_parse keywords_as_string
      example_storage None
    = Some (Return keywords, trace) /\
    (length (requests trace) <= 4)%nat /\ 0 <= waited trace <= 7000.
Proof.
  split; [vm_compute; reflexivity|]. split; [vm_compute; reflexivity|].
  destruct (keywords_never_throw (Z.eqb 0) example_JSON_parse keywords_as_string
              example_storage None)
    as (keywords & trace & H1 & H2 & H3 & _).
  exists keywords, trace. done.
Defined.


Local Close Scope Z_scope.
Lemma matchesAt_length eqc p l : matchesAt eqc p l = true -> length p <= length l.
Proof.
  revert l. induction p as [|a p IH]; intros [|b l]; simpl; try done; try lia.
  intros [_ H]%andb_true_iff. apply IH in H. lia.
Qed.

(** A match cannot reach over a code unit that is foreign to the pattern. *)
Lemma matchesAt_inert eqc p a c r :
  inert eqc p c -> matchesAt eqc p (a ++ c :: r) = matchesAt eqc p a.
Proof.
  revert a. induction p as [|q p IH]; intros a Hc; [by destruct a|].
  apply Forall_cons in Hc as [Hq Hp].
  destruct a as [|x a]; simpl; [by rewrite Hq|]. by rewrite IH.
Qed.

Lemma remove_from_inert eqc p skip a c r :
  p <> [] -> inert eqc p c -> skip <= length a ->
  remove_from eqc p skip (a ++ c :: r)
  = remove_from eqc p skip a ++ c :: remove_from eqc p 0 r.
Proof.
  intros Hp Hc. revert skip. induction a as [|x a IH]; intros skip Hskip.
  - simpl in Hskip. replace skip with 0 by lia. simpl.
    destruct p as [|q p]; [done|]. apply Forall_cons in Hc as [Hq _].
    simpl. by rewrite Hq.
  - destruct skip as [|k].
    + change (remove_from eqc p 0 ((x :: a) ++ c :: r)) with
        (if matchesAt eqc p ((x :: a) ++ c :: r)
         then remove_from eqc p (length p - 1) (a ++ c :: r)
         else x :: remove_from eqc p 0 (a ++ c :: r)).
      change (remove_from eqc p 0 (x :: a)) with
        (if matchesAt eqc p (x :: a)
         then remove_from eqc p (length p - 1) a
         else x :: remove_from eqc p 0 a).
      rewrite matchesAt_inert by done.
      destruct (matchesAt eqc p (x :: a)) eqn:Hm.
      * apply matchesAt_length in Hm. simpl in Hm. apply IH. lia.
      * simpl. f_equal. apply IH. lia.
    + simpl. apply IH. simpl in Hskip. lia.
Qed.

Lemma removeAll_inert eqc p a c r :
  p <> [] -> inert eqc p c ->
  removeAll eqc p (a ++ c :: r) = removeAll eqc p a ++ c :: removeAll eqc p r.
Proof. intros. apply remove_from_inert; [done|done|lia]. Qed.

(** What is left is made of code units that were there. *)
Lemma remove_from_Forall (P : ascii -> Prop) eqc p skip l :
  Forall P l -> Forall P (remove_from eqc p skip l).
Proof.
  intros H. revert skip. induction H as [|x l Hx Hl IH]; intros skip; simpl; [done|].
  destruct skip; [|apply IH].
  destruct (matchesAt eqc p (x :: l)); [apply IH|]. constructor; [done|apply IH].
Qed.

(** Nothing is removed from a text without the first code unit of the
    pattern. *)
Lemma remove_from_none eqc q p l :
  Forall (fun x => eqc q x = false) l -> remove_from eqc (q :: p) 0 l = l.
Proof.
  induction 1 as [|x l Hx _ IH]; [done|].
  simpl. rewrite Hx. simpl. by rewrite IH.
Qed.

Lemma indexOf_char_first c a r :
  Forall (fun x => x <> c) a -> indexOf_char c (a ++ c :: r) = Some (length a).
Proof.
  induction 1 as [|x a Hx _ IH]; simpl.
  - by rewrite Ascii.eqb_refl.
  - destruct (Ascii.eqb_spec x c); [done|]. by rewrite IH.
Qed.

Lemma lastIndexOf_char_last c a r :
  Forall (fun x => x <> c) r -> lastIndexOf_char c (a ++ c :: r) = Some (length a).
Proof.
  intros Hr. unfold lastIndexOf_char.
  rewrite reverse_app, reverse_cons, <- app_assoc. simpl.
  rewrite indexOf_char_first by by apply Forall_reverse.
  simpl. f_equal. rewrite length_reverse, length_app. simpl. lia.
Qed.

Lemma trimStart_app c a r :
  isWhiteSpace c = false ->
  trimStart_chars (a ++ c :: r) = trimStart_chars a ++ c :: r.
Proof.
  intros Hc. induction a as [|x a IH]; simpl; [by rewrite Hc|].
  by destruct (isWhiteSpace x).
Qed.

Lemma trimEnd_app c a r :
  isWhiteSpace c = false ->
  trimEnd_chars (a ++ c :: r) = a ++ c :: trimEnd_chars r.
Proof.
  intros Hc. unfold trimEnd_chars.
  rewrite reverse_app, reverse_cons, <- app_assoc. simpl.
  rewrite trimStart_app by done.
  rewrite reverse_app, reverse_cons, reverse_involutive, <- app_assoc. done.
Qed.

Lemma Forall_trimStart (P : ascii -> Prop) l : Forall P l -> Forall P (trimStart_chars l).
Proof.
  induction 1 as [|x l Hx Hl IH]; simpl; [done|].
  destruct (isWhiteSpace x); [done|by constructor].
Qed.

Lemma Forall_trimEnd (P : ascii -> Prop) l : Forall P l -> Forall P (trimEnd_chars l).
Proof.
  intros H. unfold trimEnd_chars. apply Forall_reverse, Forall_trimStart.
  by apply Forall_reverse.
Qed.

Lemma eq_ignoreCase_backtick x : eq_ignoreCase "`"%char x = true -> x = "`"%char.
Proof.
  destruct x as [[] [] [] [] [] [] [] []]; vm_compute; intros H; first [done | discriminate H].
Qed.

Lemma no_backtick_ci l :
  Forall (fun c => c <> "`"%char) l -> Forall (fun x => eq_ignoreCase "`"%char x = false) l.
Proof.
  intros H. eapply Forall_impl; [exact H|]. intros x Hx. simpl in Hx.
  destruct (eq_ignoreCase "`"%char x) eqn:E; [|done]. by apply eq_ignoreCase_backtick in E.
Qed.

Lemma no_backtick_eqb l :
  Forall (fun c => c <> "`"%char) l -> Forall (fun x => Ascii.eqb "`"%char x = false) l.
Proof.
  intros H. eapply Forall_impl; [exact H|]. intros x Hx. simpl in Hx.
  destruct (Ascii.eqb_spec "`"%char x); [done|done].
Qed.

(** Both passes leave an object without backticks alone and drop nothing
    but parts of what is around it. *)
Lemma strip_fences_object pre body post :
  Forall (fun c => c <> "`"%char) body ->
  removeAll Ascii.eqb fence (removeAll eq_ignoreCase fence_json
    (pre ++ "{"%char :: body ++ "}"%char :: post))
  = removeAll Ascii.eqb fence (removeAll eq_ignoreCase fence_json pre)
    ++ "{"%char :: body
    ++ "}"%char :: removeAll Ascii.eqb fence (removeAll eq_ignoreCase fence_json post).
Proof.
  intros Hbody.
  assert (I1 : forall c, c = "{"%char \/ c = "}"%char -> inert eq_ignoreCase fence_json c).
  { intros c [->| ->]; repeat constructor. }
  assert (I2 : forall c, c = "{"%char \/ c = "}"%char -> inert Ascii.eqb fence c).
  { intros c [->| ->]; repeat constructor. }
  rewrite (removeAll_inert eq_ignoreCase fence_json pre) by (done || auto).
  rewrite (removeAll_inert eq_ignoreCase fence_json body) by (done || auto).
  rewrite (removeAll_inert Ascii.eqb fence) by (done || auto).
  rewrite (removeAll_inert Ascii.eqb fence) by (done || auto).
  f_equal. f_equal. f_equal.
  unfold removeAll, fence, fence_json. simpl chars.
  rewrite (remove_from_none eq_ignoreCase) by by apply no_backtick_ci.
  by rewrite (remove_from_none Ascii.eqb) by by apply no_backtick_eqb.
Qed.

Lemma trim_chars_object pre body post :
  trim_chars (pre ++ "{"%char :: body ++ "}"%char :: post)
  = trimStart_chars pre ++ "{"%char :: body ++ "}"%char :: trimEnd_chars post.
Proof.
  unfold trim_chars. rewrite trimStart_app by done.
  change (trimStart_chars pre ++ "{"%char :: body ++ "}"%char :: post)
    with (trimStart_chars pre ++ ("{"%char :: body) ++ "}"%char :: post).
  rewrite (app_assoc (trimStart_chars pre) ("{"%char :: body)).
  rewrite trimEnd_app by done. by rewrite <- app_assoc.
Qed.

(** X18.  [cleanJsonOutput] digs the object out of an answer.  When the
    text holds an object, with no backtick inside, and nothing before or
    after it holds a brace, the result is the object alone: the prose, the
    fences (in either case of "json") and the white space around it are
    dropped, and the object is unchanged. *)
Theorem cleanJsonOutput_extracts (pre body post : list ascii) :
  Forall (fun c => c <> "{"%char /\ c <> "}"%char) pre ->
  Forall (fun c => c <> "{"%char /\ c <> "}"%char) post ->
  Forall (fun c => c <> "`"%char) body ->
  cleanJsonOutput (of_chars (pre ++ "{"%char :: body ++ "}"%char :: post))
  = of_chars ("{"%char :: body ++ ["}"%char]).
Proof.
  intros Hpre Hpost Hbody. unfold cleanJsonOutput. rewrite chars_of_chars.
  rewrite trim_chars_object, strip_fences_object by done.
  set (pre' := removeAll Ascii.eqb fence (removeAll eq_ignoreCase fence_json (trimStart_chars pre))).
  set (post' := removeAll Ascii.eqb fence (removeAll eq_ignoreCase fence_json (trimEnd_chars post))).
  assert (Hpre' : Forall (fun c => c <> "{"%char /\ c <> "}"%char) pre').
  { apply remove_from_Forall, remove_from_Forall, Forall_trimStart, Hpre. }
  assert (Hpost' : Forall (fun c => c <> "{"%char /\ c <> "}"%char) post').
  { apply remove_from_Forall, remove_from_Forall, Forall_trimEnd, Hpost. }
  rewrite indexOf_char_first by (eapply Forall_impl; [exact Hpre'|]; by intros ? [? ?]).
  change (pre' ++ "{"%char :: body ++ "}"%char :: post')
    with (pre' ++ ("{"%char :: body) ++ "}"%char :: post').
  rewrite (app_assoc pre' ("{"%char :: body)).
  rewrite lastIndexOf_char_last by (eapply Forall_impl; [exact Hpost'|]; by intros ? [? ?]).
  rewrite length_app. simpl length.
  rewrite (proj2 (Nat.ltb_lt _ _)) by lia.
  unfold substring_chars.
  rewrite <- app_assoc, drop_app_length.
  replace (length pre' + S (length body) + 1 - length pre') with (length ("{"%char :: body ++ ["}"%char]))
    by (simpl; rewrite length_app; simpl; lia).
  change (("{"%char :: body) ++ "}"%char :: post') with ("{"%char :: (body ++ "}"%char :: post')).
  replace ("{"%char :: body ++ "}"%char :: post') with (("{"%char :: body ++ ["}"%char]) ++ post')
    by (simpl; by rewrite <- app_assoc).
  rewrite take_app_length.
  f_equal. apply trim_chars_fixed.
  - by intros c l' [= <- _].
  - intros c. rewrite app_comm_cons, last_snoc. by intros [= <-].
Qed.

Lemma cleanJsonOutput_extracts_witness :
  of_chars (example_pre ++ "{"%char :: example_body ++ "}"%char :: example_post)
  = "Here you go: ```JSON {" +:+ of_chars [quote] +:+ "keywords" +:+ of_chars [quote]
    +:+ ": [1, 2]} ``` Enjoy!" /\
  cleanJsonOutput (of_chars (example_pre ++ "{"%char :: example_body ++ "}"%char :: example_post))
  = of_chars ("{"%char :: example_body ++ ["}"%char]).
Proof.
  split; [vm_compute; reflexivity|].
  apply cleanJsonOutput_extracts.
  - apply Forall_forall. intros c Hc. apply (bool_decide_unpack _).
    revert c Hc. apply Forall_forall. apply (bool_decide_unpack _). vm_compute. reflexivity.
  - apply Forall_forall. intros c Hc. apply (bool_decide_unpack _).
    revert c Hc. apply Forall_forall. apply (bool_decide_unpack _). vm_compute. reflexivity.
  - apply (bool_decide_unpack _). vm_compute. reflexivity.
Defined.

(** *** What the result of [cleanJsonOutput] never holds *)

Lemma startsWith_chars_app p l r :
  startsWith_chars p l = true -> startsWith_chars p (l ++ r) = true.
Proof.
  revert l. induction p as [|a p IH]; intros [|b l]; simpl; try done.
  intros [-> H]%andb_true_iff. simpl. by apply IH.
Qed.

Lemma includes_chars_app_l p l r :
  includes_chars p l = true -> includes_chars p (l ++ r) = true.
Proof.
  induction l as [|x l IH].
  - simpl. rewrite orb_false_r. intros H. destruct p; [|done].
    by destruct r.
  - change (includes_chars p (x :: l)) with
      (startsWith_chars p (x :: l) || includes_chars p l).
    change (includes_chars p ((x :: l) ++ r)) with
      (startsWith_chars p ((x :: l) ++ r) || includes_chars p (l ++ r)).
    intros [H|H]%orb_true_iff.
    + by rewrite startsWith_chars_app.
    + rewrite IH by done. apply orb_true_r.
Qed.

Lemma includes_chars_app_r p l r :
  includes_chars p r = true -> includes_chars p (l ++ r) = true.
Proof.
  intros H. induction l as [|x l IH]; [done|].
  change (includes_chars p ((x :: l) ++ r)) with
    (startsWith_chars p ((x :: l) ++ r) || includes_chars p (l ++ r)).
  rewrite IH. apply orb_true_r.
Qed.

(** A part of a text without [p] is without [p]. *)
Lemma includes_chars_part p a l r :
  includes_chars p (a ++ l ++ r) = false -> includes_chars p l = false.
Proof.
  intros H. destruct (includes_chars p l) eqn:E; [|done].
  rewrite includes_chars_app_r in H; [done|]. by apply includes_chars_app_l.
Qed.

Lemma includes_chars_take p n l :
  includes_chars p l = false -> includes_chars p (take n l) = false.
Proof.
  intros H. apply (includes_chars_part p [] _ (drop n l)). simpl. by rewrite take_drop.
Qed.

Lemma includes_chars_drop p n l :
  includes_chars p l = false -> includes_chars p (drop n l) = false.
Proof.
  intros H. apply (includes_chars_part p (take n l) _ []).
  by rewrite app_nil_r, take_drop.
Qed.

Lemma includes_chars_trim p l :
  includes_chars p l = false -> includes_chars p (trim_chars l) = false.
Proof.
  intros H. unfold trim_chars.
  destruct (trimStart_suffix l) as (ws1 & H1 & _).
  destruct (trimEnd_prefix (trimStart_chars l)) as (ws2 & H2 & _).
  apply (includes_chars_part p ws1 _ ws2). by rewrite <- H2, <- H1.
Qed.

Lemma matchesAt_eqb p l : matchesAt Ascii.eqb p l = true <-> exists r, l = p ++ r.
Proof.
  revert l. induction p as [|a p IH]; intros l; simpl.
  - split; [by exists l|done].
  - destruct l as [|b l]; [split; [done|by intros (r & ?)]|].
    rewrite andb_true_iff, IH. split.
    + intros [Hab (r & ->)]. apply Ascii.eqb_eq in Hab as ->. by exists r.
    + intros (r & [= -> ->]). split; [apply Ascii.eqb_refl|by exists r].
Qed.

Lemma startsWith_chars_spec p l : startsWith_chars p l = true <-> exists r, l = p ++ r.
Proof.
  revert l. induction p as [|a p IH]; intros l; simpl.
  - split; [by exists l|done].
  - destruct l as [|b l]; [split; [done|by intros (r & ?)]|].
    rewrite andb_true_iff, IH. split.
    + intros [Hab (r & ->)]. apply Ascii.eqb_eq in Hab as ->. by exists r.
    + intros (r & [= -> ->]). split; [apply Ascii.eqb_refl|by exists r].
Qed.

(** After the second pass no fence is left: of a run of backticks, fewer
    than three remain. *)
Lemma remove_fence_spec l skip :
  let out := remove_from Ascii.eqb fence skip l in
  includes_chars fence out = false /\
  (skip = 0 ->
   (forall t, out = "`"%char :: t -> exists r, l = "`"%char :: r) /\
   (forall t, out = "`"%char :: "`"%char :: t -> exists r, l = "`"%char :: "`"%char :: r)).
Proof.
  revert skip. induction l as [|x l IH]; intros skip; [done|].
  destruct skip as [|k]; [|split; [apply (IH k)|done]].
  cbv zeta.
  change (remove_from Ascii.eqb fence 0 (x :: l)) with
    (if matchesAt Ascii.eqb fence (x :: l)
     then remove_from Ascii.eqb fence 2 l
     else x :: remove_from Ascii.eqb fence 0 l).
  destruct (matchesAt Ascii.eqb fence (x :: l)) eqn:Hm.
  - split; [apply (IH 2)|]. intros _.
    apply matchesAt_eqb in Hm as (r & Hm). change fence with (chars "```") in Hm.
    simpl in Hm. rewrite Hm. split; intros; eauto.
  - destruct (IH 0) as (Hno & Hrun). destruct (Hrun eq_refl) as [Hrun1 Hrun2].
    set (out := remove_from Ascii.eqb fence 0 l) in *.
    split; [|intros _; split].
    + change (includes_chars fence (x :: out)) with
        (startsWith_chars fence (x :: out) || includes_chars fence out).
      rewrite Hno, orb_false_r.
      destruct (startsWith_chars fence (x :: out)) eqn:Hs; [|done].
      exfalso. apply startsWith_chars_spec in Hs as (t & Hs).
      change fence with (chars "```") in Hs. simpl in Hs. injection Hs as -> Hs.
      destruct (Hrun2 _ Hs) as (r & ->).
      assert (matchesAt Ascii.eqb fence ("`"%char :: "`"%char :: "`"%char :: r) = true)
        by (apply matchesAt_eqb; by exists r).
      congruence.
    + intros t [= -> _]. eauto.
    + intros t [= -> Ht]. destruct (Hrun1 _ Ht) as (r & ->). eauto.
Qed.

Lemma removeAll_fence l : includes_chars fence (removeAll Ascii.eqb fence l) = false.
Proof. apply (remove_fence_spec l 0). Qed.

(** *** Where the braces are *)

Lemma indexOf_char_Some c l f :
  indexOf_char c l = Some f ->
  exists a r, l = a ++ c :: r /\ length a = f /\ Forall (fun x => x <> c) a.
Proof.
  revert f. induction l as [|x l IH]; intros f; simpl; [done|].
  destruct (Ascii.eqb_spec x c) as [->|Hne].
  - intros [= <-]. by exists [], l.
  - destruct (indexOf_char c l) as [i|]; [|done]. simpl. intros [= <-].
    destruct (IH i eq_refl) as (a & r & -> & <- & Ha).
    exists (x :: a), r. repeat split; try done. by constructor.
Qed.

Lemma indexOf_char_None c l : indexOf_char c l = None -> Forall (fun x => x <> c) l.
Proof.
  induction l as [|x l IH]; simpl; [done|].
  destruct (Ascii.eqb_spec x c) as [->|Hne]; [done|].
  destruct (indexOf_char c l); [done|]. intros _. constructor; auto.
Qed.

Lemma indexOf_char_le c a r :
  exists f, indexOf_char c (a ++ c :: r) = Some f /\ f <= length a.
Proof.
  induction a as [|x a (f & IH & Hf)]; simpl.
  - rewrite Ascii.eqb_refl. exists 0. split; [done|lia].
  - destruct (Ascii.eqb x c); [exists 0; split; [done|lia]|].
    rewrite IH. exists (S f). split; [done|]. simpl. lia.
Qed.

Lemma lastIndexOf_char_Some c l n :
  lastIndexOf_char c l = Some n ->
  exists a r, l = a ++ c :: r /\ length a = n /\ Forall (fun x => x <> c) r.
Proof.
  unfold lastIndexOf_char. destruct (indexOf_char c (reverse l)) as [i|] eqn:E; [|done].
  simpl. intros [= <-].
  apply indexOf_char_Some in E as (a & r & E & <- & Ha).
  apply (f_equal reverse) in E. rewrite reverse_involutive in E.
  rewrite reverse_app, reverse_cons, <- app_assoc in E. simpl in E.
  exists (reverse r), (reverse a). split; [done|]. split; [|by apply Forall_reverse].
  rewrite E, length_app, length_reverse. simpl. rewrite length_reverse. lia.
Qed.

Lemma lastIndexOf_char_None c l : lastIndexOf_char c l = None -> Forall (fun x => x <> c) l.
Proof.
  unfold lastIndexOf_char. destruct (indexOf_char c (reverse l)) eqn:E; [done|].
  intros _. apply indexOf_char_None in E. rewrite Forall_reverse in E. exact E.
Qed.

Lemma lastIndexOf_char_ge c a r :
  exists n, lastIndexOf_char c (a ++ c :: r) = Some n /\ length a <= n.
Proof.
  unfold lastIndexOf_char. rewrite reverse_app, reverse_cons, <- app_assoc. simpl.
  destruct (indexOf_char_le c (reverse r) (reverse a)) as (f & -> & Hf).
  simpl. eexists. split; [done|].
  rewrite length_reverse in Hf. rewrite length_app. simpl. lia.
Qed.

Lemma braces_in_order_part a l r : braces_in_order l -> braces_in_order (a ++ l ++ r).
Proof.
  intros (a' & m & z & ->). exists (a ++ a'), m, (z ++ r).
  rewrite <- !app_assoc. simpl. by rewrite <- !app_assoc.
Qed.

(** What the brace step of [cleanJsonOutput] gives. *)
Lemma brace_step l :
  let out :=
    match indexOf_char "{"%char l, lastIndexOf_char "}"%char l with
    | Some f, Some n => if Nat.ltb f n then substring_chars f (n + 1) l else l
    | _, _ => l
    end in
  (exists m, out = "{"%char :: m ++ ["}"%char]) \/ (out = l /\ ~ braces_in_order l).
Proof.
  cbv zeta.
  destruct (indexOf_char "{"%char l) as [f|] eqn:Hf.
  2:{ right. split; [done|]. intros (a & m & z & ->).
      destruct (indexOf_char_le "{"%char a (m ++ "}"%char :: z)) as (? & ? & _). congruence. }
  destruct (lastIndexOf_char "}"%char l) as [n|] eqn:Hn.
  2:{ right. split; [done|]. intros (a & m & z & ->).
      change (a ++ "{"%char :: m ++ "}"%char :: z)
        with (a ++ ("{"%char :: m) ++ "}"%char :: z) in Hn.
      rewrite (app_assoc a ("{"%char :: m)) in Hn.
      destruct (lastIndexOf_char_ge "}"%char (a ++ "{"%char :: m) z) as (? & ? & _).
      congruence. }
  destruct (Nat.ltb_spec f n) as [Hlt|Hge].
  - left. apply indexOf_char_Some in Hf as (a & r & -> & <- & Ha).
    apply lastIndexOf_char_Some in Hn as (a2 & z & E & <- & Hz).
    apply app_eq_inv in E as [(k & -> & E)|(k & -> & E)].
    + rewrite length_app in Hlt. lia.
    + destruct k as [|c k]; [rewrite app_nil_r in Hlt; lia|].
      simpl in E. injection E as <- ->.
      exists k. unfold substring_chars. rewrite drop_app_length.
      replace (length (a ++ "{"%char :: k) + 1 - length a)
        with (length ("{"%char :: k ++ ["}"%char]))
        by (rewrite length_app; simpl; rewrite length_app; simpl; lia).
      replace ("{"%char :: k ++ "}"%char :: z) with (("{"%char :: k ++ ["}"%char]) ++ z)
        by (simpl; by rewrite <- app_assoc).
      by rewrite take_app_length.
  - right. split; [done|]. intros (a & m & z & E). subst l.
    destruct (indexOf_char_le "{"%char a (m ++ "}"%char :: z)) as (f' & Hf' & Hle).
    assert (E : a ++ "{"%char :: m ++ "}"%char :: z = (a ++ "{"%char :: m) ++ "}"%char :: z)
      by (by rewrite <- app_assoc).
    rewrite E in Hn.
    destruct (lastIndexOf_char_ge "}"%char (a ++ "{"%char :: m) z) as (n' & Hn' & Hge').
    rewrite length_app in Hge'. simpl in Hge'.
    assert (f' = f) by congruence. assert (n' = n) by congruence. lia.
Qed.

(** X19.  The result of [cleanJsonOutput], whatever the text: it has no
    white space at its ends, it holds no code fence, and either it starts
    with an opening brace and ends with a closing brace, or it holds no
    opening brace before a closing one, so that no object is in it. *)
Theorem cleanJsonOutput_result (text : string) :
  let result := cleanJsonOutput text in
  trim result = result /\
  includes result "```" = false /\
  ((exists m, chars result = "{"%char :: m ++ ["}"%char]) \/
   ~ braces_in_order (chars result)).
Proof.
  cbv zeta. unfold cleanJsonOutput.
  set (stripped := removeAll Ascii.eqb fence
                     (removeAll eq_ignoreCase fence_json (trim_chars (chars text)))).
  pose proof (removeAll_fence (removeAll eq_ignoreCase fence_json (trim_chars (chars text))))
    as Hfence. fold stripped in Hfence.
  pose proof (brace_step stripped) as Hbrace. cbv zeta in Hbrace.
  set (out := match indexOf_char "{"%char stripped, lastIndexOf_char "}"%char stripped with
              | Some f, Some n =>
                  if Nat.ltb f n then substring_chars f (n + 1) stripped else stripped
              | _, _ => stripped
              end) in *.
  split; [|split].
  - unfold trim. by rewrite chars_of_chars, trim_chars_idem.
  - unfold includes. rewrite chars_of_chars. apply includes_chars_trim.
    subst out. destruct (indexOf_char "{"%char stripped) as [f|]; [|done].
    destruct (lastIndexOf_char "}"%char stripped) as [n|]; [|done].
    destruct (Nat.ltb f n); [|done].
    unfold substring_chars. by apply includes_chars_take, includes_chars_drop.
  - rewrite chars_of_chars. destruct Hbrace as [(m & ->)|[-> Hno]].
    + left. exists m. apply trim_chars_fixed.
      * by intros c l' [= <- _].
      * intros c. rewrite app_comm_cons, last_snoc. by intros [= <-].
    + right. intros H. apply Hno.
      destruct (trimStart_suffix stripped) as (ws1 & H1 & _).
      destruct (trimEnd_prefix (trimStart_chars stripped)) as (ws2 & H2 & _).
      rewrite H1, H2. by apply braces_in_order_part.
Qed.
